(** * Popcorn migration support: loop path enumeration and stack-map insertion

    A shallow embedding of two LLVM passes of the Popcorn compiler:

    - [LoopPaths]: the analysis [EnumerateLoopPaths] (LoopPaths.cpp), which
      enumerates, per loop, the paths between the header, the equivalence
      points and the back-edges;
    - [StackMaps]: the module pass [InsertStackMaps] (InsertStackMaps.cpp),
      which records the live values of every call site in a stack-map
      marker call. *)

From Stdlib Require Import ZArith Lia Bool List String Ascii Sorted Permutation.
From stdpp Require Import base option list gmap.

#[local] Set Warnings "-register-all,-clear-no-such-hyp,-abstract-large-number".

(** ** Control flow shared by the iterations of both passes *)

(** [for (x : xs) if (!body(x)) return false;] over a fallible body.  [None]
    is the exhausted recursion budget of the body. *)
Fixpoint forEach {A S : Type} (body : A → S → option (bool * S))
    (xs : list A) (s : S) : option (bool * S) :=
  match xs with
  | [] => Some (true, s)
  | x :: xs' =>
      match body x s with
      | Some (true, s') => forEach body xs' s'
      | r => r
      end
  end.

Module LoopPaths.

(** *** The CFG and the loop forest (LLVM's [Function] and [LoopInfo]) *)

(** A basic block is its identity; an instruction is its parent block and its
    position in that block. *)
Definition BasicBlock := nat.
Definition Instruction := (BasicBlock * nat)%type.

(** What the analysis reads of a block: for each instruction, in order, the
    answer of the oracle [Popcorn::isEquivalencePoint]; and the successors of
    the block.  The last instruction is the terminator. *)
Record BlockData := mkBlock {
  eqPoints : list bool;
  succs : list BasicBlock
}.

Definition Function := BasicBlock → BlockData.

(** [llvm::Loop]: the block list holds the blocks of the nested loops too. *)
Inductive Loop := mkLoop {
  loopId : nat;
  getHeader : BasicBlock;
  getBlocks : list BasicBlock;
  getSubLoops : list Loop
}.

(** Induction on a loop with the hypothesis for its sub-loops. *)
Fixpoint Loop_nest_ind (P : Loop → Prop)
    (step : ∀ L, Forall P (getSubLoops L) → P L) (L : Loop) : P L :=
  step L
    (match L as L0 return Forall P (getSubLoops L0) with
     | mkLoop id h bs subs =>
         (fix subloops (ls : list Loop) : Forall P ls :=
            match ls with
            | [] => @List.Forall_nil Loop P
            | Sub :: ls' =>
                @List.Forall_cons Loop P Sub ls'
                                  (Loop_nest_ind P step Sub) (subloops ls')
            end) subs
     end).

Definition count (s : list BasicBlock) (b : BasicBlock) : bool :=
  bool_decide (b ∈ s).

Definition contains (L : Loop) (b : BasicBlock) : bool := count (getBlocks L) b.

Definition getParent (I : Instruction) : BasicBlock := I.1.
Definition front (b : BasicBlock) : Instruction := (b, 0).
Definition getNextNode (I : Instruction) : Instruction := (I.1, S I.2).

Section CFG.
Variable F : Function.

Definition successors (b : BasicBlock) : list BasicBlock := succs (F b).
Definition size (b : BasicBlock) : nat := length (eqPoints (F b)).
Definition getTerminator (b : BasicBlock) : Instruction := (b, pred (size b)).
Definition isTerminator (I : Instruction) : bool := S I.2 =? size I.1.
Definition isEquivalencePoint (I : Instruction) : bool :=
  nth I.2 (eqPoints (F I.1)) false.

(** The first [true] of [l], as a position counted from [i]. *)
Fixpoint firstTrue (i : nat) (l : list bool) : option nat :=
  match l with
  | [] => None
  | x :: l' => if x then Some i else firstTrue (S i) l'
  end.

(** [hasEquivalencePoint]: the first equivalence point of the block at or
    after [I]. *)
Definition hasEquivalencePoint (I : Instruction) : option Instruction :=
  match firstTrue I.2 (drop I.2 (eqPoints (F I.1))) with
  | Some j => Some (I.1, j)
  | None => None
  end.

(** [Loop::getExitingBlocks]: the blocks of the loop with a successor outside
    of it, in block order. *)
Definition getExitingBlocks (L : Loop) : list BasicBlock :=
  filter (λ b, existsb (λ s, negb (contains L s)) (successors b) = true)
         (getBlocks L).

(** [Loop::getLoopLatches]: the predecessors of the header inside the loop. *)
Definition getLoopLatches (L : Loop) : list BasicBlock :=
  filter (λ b, count (successors b) (getHeader L) = true) (getBlocks L).

End CFG.

(** [LoopPathUtilities::populateLoopNest]: the loop and all the loops nested
    in it.  The nest is a set in the source; here its elements are listed
    parents first. *)
Fixpoint populateLoopNest (L : Loop) : list Loop :=
  L :: flat_map populateLoopNest (getSubLoops L).

(** The loop of [populateLoopNest] over its queue [ToVisit], for at most
    [fuel] iterations; the nest lists the loops in the order in which they
    are inserted. *)
Fixpoint populateLoop (fuel : nat) (ToVisit Nest : list Loop) : list Loop :=
  match fuel with
  | 0 => Nest
  | S fuel' =>
      match ToVisit with
      | [] => Nest
      | Sub :: ToVisit' =>
          populateLoop fuel' (ToVisit' ++ getSubLoops Sub)
                       (Nest ++ getSubLoops Sub)
      end
  end.

(** [C] is a sub-loop of [P]. *)
Definition subLoopOf (P C : Loop) : Prop := C ∈ getSubLoops P.

(** [LoopPathUtilities::getSubBlocks]: the blocks of all the loops nested
    strictly inside [L]. *)
Definition getSubBlocks (L : Loop) : list BasicBlock :=
  flat_map (λ Sub, flat_map getBlocks (populateLoopNest Sub)) (getSubLoops L).

(** [LoopInfo::getLoopFor]: the innermost loop a block lives in. *)
Fixpoint getLoopForIn (L : Loop) (b : BasicBlock) : option Loop :=
  if contains L b then
    match
      (fix inner (subs : list Loop) : option Loop :=
         match subs with
         | [] => None
         | s :: subs' =>
             match getLoopForIn s b with
             | Some r => Some r
             | None => inner subs'
             end
         end) (getSubLoops L)
    with
    | Some r => Some r
    | None => Some L
    end
  else None.

Fixpoint getLoopFor (LI : list Loop) (b : BasicBlock) : option Loop :=
  match LI with
  | [] => None
  | L :: LI' =>
      match getLoopForIn L b with
      | Some r => Some r
      | None => getLoopFor LI' b
      end
  end.

(** *** Paths *)

(** A path node: the block and whether it is an opaque sub-loop block. *)
Definition PathNode := (BasicBlock * bool)%type.
Definition getBlock (n : PathNode) : BasicBlock := n.1.
Definition isSubLoopExit (n : PathNode) : bool := n.2.

Record LoopPath := mkLoopPath {
  Nodes : list PathNode;
  Start : Instruction;
  End : Instruction;
  startsAtHeader : bool;
  endsAtBackedge : bool
}.

(** Modelled from the spec: the container [LoopPath::Nodes] is declared in
    LoopPaths.h, which is not part of the sources; the spec has a path as an
    "ordered, deduplicated sequence of PathNodes".  [insertNode] is the
    insertion of that container: a node already present is not added again. *)
Definition insertNode (ns : list PathNode) (n : PathNode) : list PathNode :=
  if bool_decide (n ∈ ns) then ns else ns ++ [n].

(** The constructor [LoopPath::LoopPath].  Its three assertions (a path has a
    node, the start lies in the first block, the end in the last one) are
    facts of every call and are proved below. *)
Definition LoopPath_new (NodeVector : list PathNode) (Start End : Instruction)
    (StartsAtHeader EndsAtBackedge : bool) : LoopPath :=
  mkLoopPath (fold_left insertNode NodeVector []) Start End
             StartsAtHeader EndsAtBackedge.

(** Modelled from the spec: [LoopPath::contains], [isSpanningPath] and
    [isEqPointPath] of the absent LoopPaths.h: a path passes through a block
    that is one of its nodes; a spanning path runs from the header to a
    back-edge; an equivalence-point path is one that does not end at a
    back-edge. *)
Definition pathThrough (p : LoopPath) (b : BasicBlock) : bool :=
  count (map getBlock (Nodes p)) b.
Definition isSpanningPath (p : LoopPath) : bool :=
  startsAtHeader p && endsAtBackedge p.
Definition isEqPointPath (p : LoopPath) : bool := negb (endsAtBackedge p).

(** *** The state of the pass and of one search *)

(** The members [Paths], [HasSpPath], [HasEqPointPath], [TooManyPaths] and
    [DetectedCycle] of the pass, keyed by loop and block identity, and the
    two locals of [analyzeLoop] that [loopDFS] updates through references:
    [DFSI.PathNodes] and [NewPaths]. *)
Record State := mkState {
  Paths : gmap nat (list LoopPath);
  HasSpPath : gmap nat (gmap BasicBlock bool);
  HasEqPointPath : gmap nat (gmap BasicBlock bool);
  TooManyPaths : bool;
  DetectedCycle : bool;
  PathNodes : list PathNode;
  NewPaths : list Instruction
}.

Definition setPaths (v : gmap nat (list LoopPath)) (s : State) : State :=
  mkState v (HasSpPath s) (HasEqPointPath s) (TooManyPaths s)
          (DetectedCycle s) (PathNodes s) (NewPaths s).
Definition setHasSpPath (v : gmap nat (gmap BasicBlock bool)) (s : State) :=
  mkState (Paths s) v (HasEqPointPath s) (TooManyPaths s)
          (DetectedCycle s) (PathNodes s) (NewPaths s).
Definition setHasEqPointPath (v : gmap nat (gmap BasicBlock bool)) (s : State) :=
  mkState (Paths s) (HasSpPath s) v (TooManyPaths s)
          (DetectedCycle s) (PathNodes s) (NewPaths s).
Definition setTooManyPaths (v : bool) (s : State) : State :=
  mkState (Paths s) (HasSpPath s) (HasEqPointPath s) v
          (DetectedCycle s) (PathNodes s) (NewPaths s).
Definition setDetectedCycle (v : bool) (s : State) : State :=
  mkState (Paths s) (HasSpPath s) (HasEqPointPath s) (TooManyPaths s)
          v (PathNodes s) (NewPaths s).
Definition setPathNodes (v : list PathNode) (s : State) : State :=
  mkState (Paths s) (HasSpPath s) (HasEqPointPath s) (TooManyPaths s)
          (DetectedCycle s) v (NewPaths s).
Definition setNewPaths (v : list Instruction) (s : State) : State :=
  mkState (Paths s) (HasSpPath s) (HasEqPointPath s) (TooManyPaths s)
          (DetectedCycle s) (PathNodes s) v.

(** [Map[L][B]] of a map of maps read as a value: the entries are created
    with the default [false] when they are missing. *)
Definition index (m : gmap nat (gmap BasicBlock bool)) (l : nat)
    (b : BasicBlock) : bool * gmap nat (gmap BasicBlock bool) :=
  let inner := default ∅ (m !! l) in
  let v := default false (inner !! b) in
  (v, <[l := <[b := v]> inner]> m).

(** [Map[L][B] = true]. *)
Definition setTrue (m : gmap nat (gmap BasicBlock bool)) (l : nat)
    (b : BasicBlock) : gmap nat (gmap BasicBlock bool) :=
  <[l := <[b := true]> (default ∅ (m !! l))]> m.

(** The value a query reads: an absent entry is not [true]. *)
Definition flag (m : gmap nat (gmap BasicBlock bool)) (l : nat)
    (b : BasicBlock) : bool :=
  default false (default ∅ (m !! l) !! b).

(** [pushIfNotPresent]. *)
Definition pushIfNotPresent (I : Instruction) (List : list Instruction)
    : list Instruction :=
  if bool_decide (I ∈ List) then List else List ++ [I].

(** [pathContains]. *)
Definition pathContains (Path : list PathNode) (BB : BasicBlock) : bool :=
  existsb (λ Node, getBlock Node =? BB) Path.

(** *** The depth-first search of one loop *)

(** The result of a call that returns [bool]: the value and the state it
    leaves.  [andThen r k] continues with [k] when [r] returned [true]. *)
Definition andThen (r : option (bool * State))
    (k : State → option (bool * State)) : option (bool * State) :=
  match r with
  | Some (true, s) => k s
  | _ => r
  end.

Section Search.
Variable F : Function.
Variable LI : list Loop.
(** The option [-max-num-paths] (10000 unless given). *)
Variable MaxNumPaths : nat.
(** The members [CurLoop], [Latches] and [SubLoopBlocks], which [analyzeLoop]
    sets before the search and the search only reads. *)
Variable CurLoop : Loop.
Variables Latches SubLoopBlocks : list BasicBlock.
(** [DFSI.Start] and [DFSI.StartsAtHeader], fixed during one search. *)
Variable DFSI_Start : Instruction.
Variable DFSI_StartsAtHeader : bool.

(** [CurPaths] is a reference to [Paths[CurLoop]]. *)
Definition CurPaths (s : State) : list LoopPath :=
  default [] (Paths s !! loopId CurLoop).

Definition emplace_back (End : Instruction) (EndsAtBackedge : bool)
    (s : State) : State :=
  setPaths (<[loopId CurLoop :=
               CurPaths s ++ [LoopPath_new (PathNodes s) DFSI_Start End
                                DFSI_StartsAtHeader EndsAtBackedge]]> (Paths s)) s.

(** [CurPaths.emplace_back(...)] followed by the check of the ceiling. *)
Definition addPath (End : Instruction) (EndsAtBackedge : bool) (s : State)
    : option (bool * State) :=
  let s := emplace_back End EndsAtBackedge s in
  if MaxNumPaths <? length (CurPaths s)
  then Some (false, setTooManyPaths true s)
  else Some (true, s).

(** [for (Node : DFSI.PathNodes) if (!SubLoopBlocks.count(PathBlock))
    Map[CurLoop][PathBlock] = true;] *)
Definition markPath (m : gmap nat (gmap BasicBlock bool))
    (nodes : list PathNode) : gmap nat (gmap BasicBlock bool) :=
  fold_left (λ m Node,
               let PathBlock := getBlock Node in
               if negb (count SubLoopBlocks PathBlock)
               then setTrue m (loopId CurLoop) PathBlock else m) nodes m.

Definition pushNew (I : Instruction) (s : State) : State :=
  setNewPaths (pushIfNotPresent I (NewPaths s)) s.

(** [getSubLoopSuccessors]: the terminators of the exiting blocks of the
    sub-loop of [Successor], by the summary of that sub-loop.  The reads
    [HasSpPath[SubLoop][Exit]] create missing entries.  The result is the
    pair of vectors ([EqPoint], [Spanning]) and the state; [visitExit] is
    the body of the loop over the exiting blocks. *)
Definition visitExit (SubLoop : Loop)
    (acc : list Instruction * list Instruction * State) (Exit : BasicBlock)
    : list Instruction * list Instruction * State :=
  let '(EqPoint, Spanning, s) := acc in
  let Term := getTerminator F Exit in
  let '(sp, m1) := index (HasSpPath s) (loopId SubLoop) Exit in
  let s := setHasSpPath m1 s in
  let Spanning := if sp then Spanning ++ [Term] else Spanning in
  let '(ep, m2) := index (HasEqPointPath s) (loopId SubLoop) Exit in
  let s := setHasEqPointPath m2 s in
  let EqPoint := if ep then EqPoint ++ [Term] else EqPoint in
  (EqPoint, Spanning, s).

Definition getSubLoopSuccessors (Successor : BasicBlock) (s : State)
    : list Instruction * list Instruction * State :=
  match getLoopFor LI Successor with
  | None => ([], [], s)
  | Some SubLoop =>
      fold_left (visitExit SubLoop) (getExitingBlocks F SubLoop) ([], [], s)
  end.

(** The handling of a successor inside a sub-loop when the current block is
    searched further (the [else] branches of [loopDFS]): one path ending at
    the terminator of [BB] for every exit with an equivalence-point path,
    that exit queued as a new start; then the search continues behind the
    exits with a spanning path. *)
Definition throughSubLoop (rec : Instruction → State → option (bool * State))
    (BB Succ : BasicBlock) (s : State) : option (bool * State) :=
  let '(EqPointInsts, SpanningInsts, s) := getSubLoopSuccessors Succ s in
  andThen
    (forEach (λ SLE s,
                andThen (addPath (getTerminator F BB) false s)
                        (λ s, Some (true, pushNew SLE s)))
             EqPointInsts s)
    (forEach rec SpanningInsts).

(** The branches of [loopDFS]; [rec] is the recursive call and [BB] the
    block of the instruction the search is at. *)

(** A successor of a block whose terminator is the equivalence point at
    which the current path ended. *)
Definition queueSuccessor (rec : Instruction → State → option (bool * State))
    (Succ : BasicBlock) (s : State) : option (bool * State) :=
  if negb (contains CurLoop Succ) || (Succ =? getHeader CurLoop)
  then Some (true, s)
  else if negb (count SubLoopBlocks Succ)
  then Some (true, pushNew (front Succ) s)
  else
    let '(EqPointInsts, SpanningInsts, s) := getSubLoopSuccessors Succ s in
    let s := fold_left (λ s SLE, pushNew SLE s) EqPointInsts s in
    forEach rec SpanningInsts s.

(** The current path ended at the equivalence point [EqPoint] of [BB]. *)
Definition atEquivalencePoint
    (rec : Instruction → State → option (bool * State))
    (BB : BasicBlock) (EqPoint : Instruction) (s : State)
    : option (bool * State) :=
  andThen (addPath EqPoint false s) (λ s,
    let s := setHasEqPointPath
               (markPath (HasEqPointPath s) (PathNodes s)) s in
    (* the instruction after the equivalence point, or the starts of the
       successors, begin new searches *)
    if negb (isTerminator F EqPoint) then
      Some (true, pushNew (getNextNode EqPoint) s)
    else
      forEach (queueSuccessor rec) (successors F BB) s).

(** The current path ended at the back-edge of the latch [BB]. *)
Definition atLatch (BB : BasicBlock) (s : State) : option (bool * State) :=
  andThen (addPath (getTerminator F BB) true s) (λ s,
    if DFSI_StartsAtHeader
    then Some (true, setHasSpPath (markPath (HasSpPath s) (PathNodes s)) s)
    else Some (true, setHasEqPointPath
                       (markPath (HasEqPointPath s) (PathNodes s)) s)).

(** The search goes on into the successors of [BB] inside the loop. *)
Definition intoSuccessors (rec : Instruction → State → option (bool * State))
    (BB : BasicBlock) (s : State) : option (bool * State) :=
  forEach (λ Succ s,
    if negb (contains CurLoop Succ) then Some (true, s)
    else if negb (count SubLoopBlocks Succ)
    then rec (front Succ) s
    else throughSubLoop rec BB Succ s)
    (successors F BB) s.

(** [BB] is an exiting block of a sub-loop: only the successors outside of
    that sub-loop and inside the current loop are explored. *)
Definition outOfSubLoop (rec : Instruction → State → option (bool * State))
    (BB : BasicBlock) (s : State) : option (bool * State) :=
  let WeedOutLoop := getLoopFor LI BB in
  forEach (λ Succ s,
    if from_option (λ W, contains W Succ) false WeedOutLoop
       || negb (contains CurLoop Succ)
    then Some (true, s)
    else if negb (count SubLoopBlocks Succ)
    then rec (front Succ) s
    else throughSubLoop rec BB Succ s)
    (successors F BB) s.

(** [DFSI.PathNodes.pop_back()] at the end of a successful activation. *)
Definition pop_back (s : State) : option (bool * State) :=
  Some (true, setPathNodes (removelast (PathNodes s)) s).

(** One activation of [loopDFS]. *)
Definition loopDFS_body (rec : Instruction → State → option (bool * State))
    (I : Instruction) (s : State) : option (bool * State) :=
  let BB := getParent I in
  if negb (count SubLoopBlocks BB) then
    if pathContains (PathNodes s) BB then
      Some (false, setDetectedCycle true s)
    else
      let s := setPathNodes (PathNodes s ++ [(BB, false)]) s in
      andThen
        match hasEquivalencePoint F I with
        | Some EqPoint => atEquivalencePoint rec BB EqPoint s
        | None =>
            if count Latches BB then atLatch BB s
            else intoSuccessors rec BB s
        end
        pop_back
  else
    if pathContains (PathNodes s) BB then
      Some (false, setDetectedCycle true s)
    else
      let s := setPathNodes (PathNodes s ++ [(BB, true)]) s in
      andThen (outOfSubLoop rec BB s) pop_back.

(** [loopDFS], with the depth of the recursion bounded by [depth]. *)
Fixpoint loopDFS (depth : nat) (I : Instruction) (s : State)
    : option (bool * State) :=
  match depth with
  | 0 => None
  | S depth' => loopDFS_body (loopDFS depth') I s
  end.

End Search.

(** *** [analyzeLoop] and [runOnFunction] *)

(** A run of code with a [while] loop, which gets a budget of iterations:
    either the run returned (with its [bool]), or the budget ran out in the
    given state. *)
Inductive Outcome :=
  | Returned (ok : bool) (s : State)
  | Unfinished (s : State).

Section Analysis.
Variable F : Function.
Variable LI : list Loop.
Variable MaxNumPaths : nat.

(** Every block a search of [L] can enter lies in this list: the recursion
    of [loopDFS] is never deeper than its length. *)
Definition reachable (L : Loop) : list BasicBlock :=
  getHeader L :: flat_map getBlocks (L :: flat_map populateLoopNest LI).

Definition depthOf (L : Loop) : nat := S (length (reachable L)).

(** [while (!NewPaths.empty()) { ... }] of [analyzeLoop], at most [n]
    iterations. *)
Fixpoint drain (L : Loop) (Latches SubLoopBlocks : list BasicBlock)
    (n : nat) (s : State) : Outcome :=
  match NewPaths s with
  | [] => Returned true s
  | Start :: rest =>
      match n with
      | 0 => Unfinished s
      | S n' =>
          match loopDFS F LI MaxNumPaths L Latches SubLoopBlocks Start false
                        (depthOf L) Start (setNewPaths rest s) with
          | Some (true, s') => drain L Latches SubLoopBlocks n' s'
          | Some (false, s') => Returned false s'
          | None => Unfinished s
          end
      end
  end.

(** [CurPaths.clear(); HasSpPath[L].clear(); HasEqPointPath[L].clear();] and
    the fresh locals [NewPaths] and [DFSI] of [analyzeLoop]. *)
Definition clearLoop (L : Loop) (s : State) : State :=
  let s := setPaths (<[loopId L := []]> (Paths s)) s in
  let s := setHasSpPath (<[loopId L := ∅]> (HasSpPath s)) s in
  let s := setHasEqPointPath (<[loopId L := ∅]> (HasEqPointPath s)) s in
  setNewPaths [] (setPathNodes [] s).

Definition analyzeLoop (n : nat) (L : Loop) (s : State) : Outcome :=
  let s := clearLoop L s in
  let Latches := getLoopLatches F L in
  let SubLoopBlocks := getSubBlocks L in
  let Start := front (getHeader L) in
  match loopDFS F LI MaxNumPaths L Latches SubLoopBlocks Start true
                (depthOf L) Start s with
  | Some (true, s') => drain L Latches SubLoopBlocks n s'
  | Some (false, s') => Returned false s'
  | None => Unfinished s
  end.

(** Modelled from the spec: [reset], [analysisFailed] and [hasPaths] are
    defined in LoopPaths.h, which is not part of the sources.  By the spec an
    aborted analysis discards "all previously computed loops' results for
    that function", the abort conditions are the detected cycle and the
    exceeded ceiling, and a loop "has results" when paths are stored for
    it. *)
Definition reset (s : State) : State :=
  setPaths ∅ (setHasSpPath ∅ (setHasEqPointPath ∅ s)).
Definition analysisFailed (s : State) : bool :=
  TooManyPaths s || DetectedCycle s.
Definition hasPaths (s : State) (L : Loop) : bool :=
  bool_decide (is_Some (Paths s !! loopId L)).

(** The order in which [for (auto L : Nest)] visits a nest: the container
    [LoopNest] is declared in the absent LoopPaths.h. *)
Variable LoopNestOrder : list Loop → list Loop.

(** [for (auto L : Nest) { ...; if (!analyzeLoop(L, CurPaths)) break; }] *)
Fixpoint searchNest (n : nat) (Nest : list Loop) (s : State) : Outcome :=
  match Nest with
  | [] => Returned true s
  | L :: Nest' =>
      (* std::vector<LoopPath> &CurPaths = Paths[L]; *)
      let s := setPaths (<[loopId L := default [] (Paths s !! loopId L)]>
                           (Paths s)) s in
      match analyzeLoop n L s with
      | Returned true s' => searchNest n Nest' s'
      | r => r
      end
  end.

(** [for (auto Nest : Nests) { ...; if (analysisFailed()) break; }] *)
Fixpoint searchNests (n : nat) (Nests : list (list Loop)) (s : State)
    : Outcome :=
  match Nests with
  | [] => Returned true s
  | Nest :: Nests' =>
      match searchNest n (LoopNestOrder Nest) s with
      | Returned _ s' =>
          if analysisFailed s' then Returned false s'
          else searchNests n Nests' s'
      | Unfinished s' => Unfinished s'
      end
  end.

(** [runOnFunction]; every [while] loop of the run gets [n] iterations.  The
    top-level loops of [LI] are the loops of depth 1. *)
Definition runOnFunction (n : nat) (s : State) : Outcome :=
  let s := reset s in
  let s := setDetectedCycle false (setTooManyPaths false s) in
  let Nests := map populateLoopNest LI in
  match searchNests n Nests s with
  | Returned _ s =>
      let s := if TooManyPaths s then reset s else s in
      let s := if DetectedCycle s then reset s else s in
      Returned false s
  | Unfinished s => Unfinished s
  end.

(** [rerunOnLoop]. *)
Definition rerunOnLoop (n : nat) (L : Loop) (s : State) : Outcome :=
  let s := setPaths (<[loopId L := default [] (Paths s !! loopId L)]>
                       (Paths s)) s in
  match analyzeLoop n L s with
  | Returned false s' => Returned false (reset s')
  | r => r
  end.

End Analysis.

(** *** A bound on the searches of a loop *)

Section Bound.
Variable F : Function.
Variable LI : list Loop.

(** The starts a successor of a block can add to the work list behind an
    equivalence point that ends the block: its first instruction, or exits
    of its sub-loop. *)
Definition exitsBehind (Succ : BasicBlock) : nat :=
  match getLoopFor LI Succ with
  | Some Sub => length (getExitingBlocks F Sub)
  | None => 0
  end.

Definition startsBehind (BB : BasicBlock) : nat :=
  list_sum (map (λ Succ, S (exitsBehind Succ)) (successors F BB)).

(** No recorded path of a search of [L] adds more starts than this. *)
Definition startsPerPath (L : Loop) : nat :=
  S (list_max (map startsBehind (reachable LI L))).

(** The searches the [while] loop of [analyzeLoop] can still make. *)
Definition searchesLeft (MaxNumPaths : nat) (L : Loop) (s : State) : nat :=
  length (NewPaths s)
  + startsPerPath L * (MaxNumPaths - length (CurPaths L s)).

(** From [s] to [s'] the work list has grown by no more than [k] starts and
    the number of starts that the paths recorded in between allow. *)
Definition pays (L : Loop) (k : nat) (s s' : State) : Prop :=
  length (CurPaths L s) ≤ length (CurPaths L s') ∧
  length (NewPaths s') + startsPerPath L * length (CurPaths L s)
    ≤ length (NewPaths s) + startsPerPath L * length (CurPaths L s') + k.

End Bound.

(** Two states of the pass with the same results: they differ at most in
    the locals of [analyzeLoop]. *)
Definition sameResults (s s' : State) : Prop :=
  Paths s = Paths s' ∧ HasSpPath s = HasSpPath s' ∧
  HasEqPointPath s = HasEqPointPath s' ∧
  TooManyPaths s = TooManyPaths s' ∧ DetectedCycle s = DetectedCycle s'.

Definition sameOutcome (r r' : Outcome) : Prop :=
  match r, r' with
  | Returned ok s, Returned ok' s' => ok = ok' ∧ sameResults s s'
  | Unfinished s, Unfinished s' => sameResults s s'
  | _, _ => False
  end.

(** The pass object before its first run. *)
Definition initial : State := mkState ∅ ∅ ∅ false false [] [].

(** *** What a successful search does, as a sequence of events *)

Section Trace.
Variable F : Function.
Variable LI : list Loop.
Variable MaxNumPaths : nat.
Variable CurLoop : Loop.
Variables Latches SubLoopBlocks : list BasicBlock.

(** An instruction a search can stand at: its position is at most the
    terminator's, and its block is one of the blocks the search can enter. *)
Definition valid (I : Instruction) : Prop :=
  I.2 ≤ pred (size F I.1) ∧ getParent I ∈ reachable LI CurLoop.

(** The node stack of a search: no block twice, and a node is flagged as
    opaque exactly when its block lies in a sub-loop. *)
Definition wfPath (pn : list PathNode) : Prop :=
  NoDup (map getBlock pn) ∧
  Forall (λ n, isSubLoopExit n = count SubLoopBlocks (getBlock n)) pn.

(** The steps of a search that change the state, each with the facts that
    hold where the source takes it. *)
Inductive event (Start : Instruction) (SAH : bool) : State → State → Prop :=
  | ev_nodes s pn :
      event Start SAH s (setPathNodes pn s)
  | ev_eqPoint s s1 I E pn :
      PathNodes s = pn ++ [(getParent I, false)] →
      wfPath (PathNodes s) →
      hasEquivalencePoint F I = Some E →
      addPath MaxNumPaths CurLoop Start SAH E false s = Some (true, s1) →
      event Start SAH s
        (setHasEqPointPath
           (markPath CurLoop SubLoopBlocks (HasEqPointPath s1) (PathNodes s1)) s1)
  | ev_latch s s1 I pn :
      PathNodes s = pn ++ [(getParent I, false)] →
      wfPath (PathNodes s) →
      hasEquivalencePoint F I = None →
      count Latches (getParent I) = true →
      addPath MaxNumPaths CurLoop Start SAH
              (getTerminator F (getParent I)) true s = Some (true, s1) →
      event Start SAH s
        (if SAH
         then setHasSpPath
                (markPath CurLoop SubLoopBlocks (HasSpPath s1) (PathNodes s1)) s1
         else setHasEqPointPath
                (markPath CurLoop SubLoopBlocks (HasEqPointPath s1) (PathNodes s1)) s1)
  | ev_subLoop s s1 I pn f Succ SLE :
      PathNodes s = pn ++ [(getParent I, f)] →
      wfPath (PathNodes s) →
      valid I →
      (f = false → hasEquivalencePoint F I = None) →
      Succ ∈ successors F (getParent I) →
      contains CurLoop Succ = true →
      count SubLoopBlocks Succ = true →
      valid SLE →
      addPath MaxNumPaths CurLoop Start SAH
              (getTerminator F (getParent I)) false s = Some (true, s1) →
      event Start SAH s (pushNew SLE s1)
  | ev_push s I :
      valid I →
      event Start SAH s (pushNew I s)
  | ev_summary s Succ :
      event Start SAH s (getSubLoopSuccessors F LI Succ s).2.

End Trace.

(** *** Computations of the search, and the steps of the analysis *)

Section Computations.
Variable F : Function.
Variable LI : list Loop.
Variable MaxNumPaths : nat.
Variable CurLoop : Loop.
Variables Latches SubLoopBlocks : list BasicBlock.
Variable Start : Instruction.
Variable SAH : bool.

(** Two states that differ in the summary maps at most. *)
Definition sameButSummary (s s' : State) : Prop :=
  Paths s' = Paths s ∧ PathNodes s' = PathNodes s ∧ NewPaths s' = NewPaths s ∧
  TooManyPaths s' = TooManyPaths s ∧ DetectedCycle s' = DetectedCycle s ∧
  (∀ l b, flag (HasSpPath s') l b = flag (HasSpPath s) l b) ∧
  (∀ l b, flag (HasEqPointPath s') l b = flag (HasEqPointPath s) l b).

(** [I] is the terminator of a block of the innermost loop of [Succ]. *)
Definition exitOf (Succ : BasicBlock) (I : Instruction) : Prop :=
  ∃ SubLoop Exit, getLoopFor LI Succ = Some SubLoop ∧
                  Exit ∈ getBlocks SubLoop ∧ I = getTerminator F Exit.

(** A computation that, when it returns [true] from a state whose node
    stack is [pn], leaves that stack as it was and has only taken events. *)
Definition tracedAt (pn : list PathNode)
    (c : State → option (bool * State)) : Prop :=
  ∀ s s', PathNodes s = pn → c s = Some (true, s') →
          PathNodes s' = pn ∧ rtc (event F LI MaxNumPaths CurLoop Latches SubLoopBlocks Start SAH) s s'.

(** A search returns [false] only with one of the two failure flags set. *)
Definition failing (c : State → option (bool * State)) : Prop :=
  ∀ s s', c s = Some (false, s') → analysisFailed s' = true.

(** The blocks a search can still enter when its node stack is [pn]. *)
Definition free (pn : list PathNode) : list BasicBlock :=
  filter (λ b, b ∉ map getBlock pn) (reachable LI CurLoop).

(** A computation that returns from every state whose node stack is [pn]. *)
Definition totalAt (pn : list PathNode)
    (c : State → option (bool * State)) : Prop :=
  ∀ s, PathNodes s = pn → is_Some (c s).

(** A computation that, when it returns [true], leaves the node stack [pn]
    as it was. *)
Definition keepsNodes (pn : list PathNode)
    (c : State → option (bool * State)) : Prop :=
  ∀ s s', PathNodes s = pn → c s = Some (true, s') → PathNodes s' = pn.

(** A computation that, when it returns [true] from a state of [Inv] whose
    node stack is [pn], leaves a state of [Inv] with that stack. *)
Definition holdsAt (Inv : State → Prop) (pn : list PathNode)
    (c : State → option (bool * State)) : Prop :=
  ∀ s s', Inv s → PathNodes s = pn → c s = Some (true, s') →
          Inv s' ∧ PathNodes s' = pn.

(** A computation that returns what another one returns, where that one
    returns: the same search with a larger bound on its depth. *)
Definition below (c c' : State → option (bool * State)) : Prop :=
  ∀ s r, c s = Some r → c' s = Some r.

End Computations.

Section Steps.
Variable F : Function.
Variable LI : list Loop.
Variable MaxNumPaths : nat.

(** A step of [analyzeLoop]: an event of one of its searches, or the
    removal of the next start from the work list. *)
Inductive step (L : Loop) : State → State → Prop :=
  | step_event Start SAH s s' :
      event F LI MaxNumPaths L (getLoopLatches F L) (getSubBlocks L)
            Start SAH s s' →
      step L s s'
  | step_dequeue s I rest :
      NewPaths s = I :: rest → step L s (setNewPaths rest s).

(** What no step of the analysis of [L] touches. *)
Definition frame (L : Loop) (s s' : State) : Prop :=
  TooManyPaths s' = TooManyPaths s ∧ DetectedCycle s' = DetectedCycle s ∧
  (∀ k, k ≠ loopId L → Paths s' !! k = Paths s !! k) ∧
  (∀ k, is_Some (Paths s !! k) → is_Some (Paths s' !! k)) ∧
  (Forall (valid F LI L) (NewPaths s) → Forall (valid F LI L) (NewPaths s')).

(** What a run of the [while] loop of [analyzeLoop] amounts to. *)
Definition outcomeOf (L : Loop) (s : State) (r : Outcome) : Prop :=
  match r with
  | Returned true s' => rtc (step L) s s' ∧ NewPaths s' = [] ∧ PathNodes s' = []
  | Returned false s' => analysisFailed s' = true
  | Unfinished s' => rtc (step L) s s'
  end.

(** What [analyzeLoop] does to the failure flags and to the stored paths. *)
Definition kept (s s' : State) : Prop :=
  analysisFailed s' = analysisFailed s ∧
  ∀ k, is_Some (Paths s !! k) → is_Some (Paths s' !! k).

End Steps.

(** *** The queries about single blocks *)

(** [Map.find(L)->second.find(BB)->second]: the entry stored for the block.
    There is none when one of the two [find] returns the end of its map; the
    source then reads behind the map. *)
Definition entry (m : gmap nat (gmap BasicBlock bool)) (l : nat)
    (b : BasicBlock) : option bool :=
  match m !! l with
  | Some inner => inner !! b
  | None => None
  end.

(** [spanningPathThroughBlock] and [eqPointPathThroughBlock]; the result is
    [None] where an assertion fails or no entry is stored. *)
Definition spanningPathThroughBlock (s : State) (L : Loop) (BB : BasicBlock)
    : option bool :=
  if hasPaths s L && contains L BB then entry (HasSpPath s) (loopId L) BB
  else None.

Definition eqPointPathThroughBlock (s : State) (L : Loop) (BB : BasicBlock)
    : option bool :=
  if hasPaths s L && contains L BB then entry (HasEqPointPath s) (loopId L) BB
  else None.

(** The entries stored for a loop are all [true]. *)
Definition onlyTrue (m : gmap nat (gmap BasicBlock bool)) (l : nat) : Prop :=
  ∀ b v, entry m l b = Some v → v = true.

(** A path begins in the block of its start instruction, and a path from
    the header starts at the first instruction of the header: the second
    assertion of the constructor [LoopPath::LoopPath]. *)
Definition startsWell (L : Loop) (p : LoopPath) : Prop :=
  (∃ n, head (Nodes p) = Some n ∧ getBlock n = getParent (Start p)) ∧
  (startsAtHeader p = true → Start p = front (getHeader L)).

(** *** The shape of the enumerated paths *)

Section Shapes.
Variable F : Function.
Variable CurLoop : Loop.
Variables Latches SubLoopBlocks : list BasicBlock.

(** The three ways in which [loopDFS] ends a path whose last node is
    [(BB, f)]: at the back-edge of a latch; at an equivalence point of a
    block of the loop itself; or at the terminator of a block with a
    successor inside a sub-loop of the loop. *)
Definition endsAtLatch (p : LoopPath) (BB : BasicBlock) (f : bool) : Prop :=
  endsAtBackedge p = true ∧ f = false ∧ count Latches BB = true ∧
  End p = getTerminator F BB.

Definition endsAtEqPoint (p : LoopPath) (BB : BasicBlock) (f : bool) : Prop :=
  endsAtBackedge p = false ∧ f = false ∧ getParent (End p) = BB ∧
  isEquivalencePoint F (End p) = true.

Definition endsBeforeSubLoop (p : LoopPath) (BB : BasicBlock) (f : bool)
    : Prop :=
  endsAtBackedge p = false ∧ End p = getTerminator F BB ∧
  (f = false → isEquivalencePoint F (End p) = false) ∧
  ∃ Succ, Succ ∈ successors F BB ∧ contains CurLoop Succ = true ∧
          count SubLoopBlocks Succ = true.

Definition goodPath (p : LoopPath) : Prop :=
  Nodes p ≠ [] ∧ NoDup (map getBlock (Nodes p)) ∧
  ∃ BB f, last (Nodes p) = Some (BB, f) ∧
          (endsAtLatch p BB f ∨ endsAtEqPoint p BB f ∨ endsBeforeSubLoop p BB f).

(** The paths that set [HasEqPointPath]: those recorded at an equivalence
    point, and those from an equivalence point to a back-edge. *)
Definition recordedAtEqPoint (p : LoopPath) : Prop :=
  endsAtBackedge p = false ∧ isEquivalencePoint F (End p) = true ∧
  ∃ BB, last (Nodes p) = Some (BB, false).

Definition pointToBackedge (p : LoopPath) : Prop :=
  startsAtHeader p = false ∧ endsAtBackedge p = true.

(** A summary [fl] against the stored paths [ps]: a block outside of the
    sub-loops is flagged exactly when a path of kind [Q] passes through it. *)
Definition summary (Q : LoopPath → Prop) (fl : BasicBlock → bool)
    (ps : list LoopPath) : Prop :=
  ∀ b, count SubLoopBlocks b = false →
       (fl b = true ↔ ∃ p, p ∈ ps ∧ pathThrough p b = true ∧ Q p).

Definition spanningSummary (s : State) : Prop :=
  summary (λ p, startsAtHeader p = true ∧ endsAtBackedge p = true)
          (flag (HasSpPath s) (loopId CurLoop)) (CurPaths CurLoop s).

Definition eqPointSummary (s : State) : Prop :=
  summary (λ p, recordedAtEqPoint p ∨ pointToBackedge p)
          (flag (HasEqPointPath s) (loopId CurLoop)) (CurPaths CurLoop s).

End Shapes.

(** *** The properties of the paths and of the summaries as the
    specification words them *)

(** A block "contains a migration point". *)
Definition hasMigrationPoint (F : Function) (BB : BasicBlock) : Prop :=
  ∃ i, isEquivalencePoint F (BB, i) = true.

(** "Every path never repeats a block, and its final block either is a latch
    ([endsAtBackedge = true]) or contains a migration point
    ([endsAtBackedge = false]); no path is empty." *)
Definition pathAsSpecified (F : Function) (L : Loop) (p : LoopPath) : Prop :=
  Nodes p ≠ [] ∧ NoDup (map getBlock (Nodes p)) ∧
  ∃ BB, last (map getBlock (Nodes p)) = Some BB ∧
        ((count (getLoopLatches F L) BB = true ∧ endsAtBackedge p = true) ∨
         (hasMigrationPoint F BB ∧ endsAtBackedge p = false)).

(** "[hasEqPointPath[b]] is true iff some path (header- or point-started)
    passing through [b] ends at a migration point." *)
Definition eqPointSummaryAsSpecified (F : Function) (L : Loop) (s : State)
    (b : BasicBlock) : Prop :=
  flag (HasEqPointPath s) (loopId L) b = true ↔
  ∃ p, p ∈ CurPaths L s ∧ pathThrough p b = true ∧
       isEquivalencePoint F (End p) = true.

(** The work list after the successors of a block [BB], none of them in a
    sub-loop, have been queued behind the equivalence point that is the
    terminator of [BB]: the first instruction of every successor inside the
    loop other than the header, unless it is queued already. *)
Definition queuedStarts (F : Function) (L : Loop) (BB : BasicBlock)
    (queued : list Instruction) : list Instruction :=
  fold_left (λ l Succ, pushIfNotPresent (front Succ) l)
            (filter (λ Succ, contains L Succ = true ∧ Succ ≠ getHeader L)
                    (successors F BB))
            queued.

(** The same by the words of the specification: "every in-loop successor
    block that is not the header and not a latch". *)
Definition queuedStartsAsSpecified (F : Function) (L : Loop)
    (Latches : list BasicBlock) (BB : BasicBlock)
    (queued : list Instruction) : list Instruction :=
  fold_left (λ l Succ, pushIfNotPresent (front Succ) l)
            (filter (λ Succ, contains L Succ = true ∧ Succ ≠ getHeader L ∧
                             count Latches Succ = false)
                    (successors F BB))
            queued.

(** *** Example functions *)

Definition stateOf (o : Outcome) : State :=
  match o with
  | Returned _ s => s
  | Unfinished s => s
  end.


(** A loop of two blocks: the header 0, whose second of three instructions
    is an equivalence point, and the latch 1. *)
Definition eqLatchF : Function := λ b,
  match b with
  | 0 => mkBlock [false; true; false] [1]
  | 1 => mkBlock [false] [0; 9]
  | _ => mkBlock [false] []
  end.
Definition eqLatchL : Loop := mkLoop 0 0 [0; 1] [].
Definition eqLatchDone : State :=
  stateOf (analyzeLoop eqLatchF [eqLatchL] 10000 8 eqLatchL initial).

(** A loop of two blocks: the header 0 is one instruction, an equivalence
    point and the terminator; its successor 1 is the latch.  [endLatchSearch]
    is the search from the header. *)
Definition endLatchF : Function := λ b,
  match b with
  | 0 => mkBlock [true] [1]
  | 1 => mkBlock [false] [0; 9]
  | _ => mkBlock [false] []
  end.
Definition endLatchL : Loop := mkLoop 0 0 [0; 1] [].
Definition endLatchSearch : option (bool * State) :=
  loopDFS endLatchF [endLatchL] 10000 endLatchL
          (getLoopLatches endLatchF endLatchL) (getSubBlocks endLatchL)
          (front 0) true 1 (front 0) (clearLoop endLatchL initial).
Definition endLatchSearched : State :=
  match endLatchSearch with
  | Some (_, s) => s
  | None => initial
  end.

(** A nest of two loops: the outer header 0 enters the inner loop, which is
    the single block 1 with an equivalence point and a back-edge to itself;
    the inner loop exits to the outer latch 2.  The inner loop is analysed
    first. *)
Definition nestedF : Function := λ b,
  match b with
  | 0 => mkBlock [false] [1]
  | 1 => mkBlock [true; false] [1; 2]
  | 2 => mkBlock [false] [0; 9]
  | _ => mkBlock [false] []
  end.
Definition innerL : Loop := mkLoop 1 1 [1] [].
Definition outerL : Loop := mkLoop 0 0 [0; 1; 2] [innerL].
Definition nestedInnerDone : State :=
  stateOf (analyzeLoop nestedF [outerL] 10000 8 innerL initial).
Definition nestedOuterDone : State :=
  stateOf (analyzeLoop nestedF [outerL] 10000 8 outerL nestedInnerDone).
(** The path of the outer loop that stops in front of the inner loop. *)
Definition nestedCut : LoopPath :=
  mkLoopPath [(0, false)] (0, 0) (0, 0) true false.

End LoopPaths.

Module InsertStackMaps.

Open Scope Z_scope.

(** *** The IR the pass reads and writes *)

(** A value by its identity: the result of an instruction, an argument of
    the function, an integer constant of a given width, or anything else (a
    global, a block, ...). *)
Inductive Value :=
  | VInst (id : nat)
  | VArg (id : nat)
  | ConstantInt (bits : nat) (v : Z)
  | VOther (id : nat).

#[global] Instance Value_eq_dec : EqDecision Value.
Proof. solve_decision. Defined.

(** The instruction classes the pass tells apart.  The callee of a call is
    the name of the called function, [None] for an indirect call or a callee
    without a name. *)
Inductive Opcode :=
  | ExtractElementInst
  | InsertElementInst
  | ExtractValueInst
  | InsertValueInst
  | GetElementPtrInst
  | BitCastInst
  | CallInst (callee : option string)
  | InvokeInst (callee : option string)
  | OtherInst.

Record Instruction := mkInst {
  instId : nat;
  opcode : Opcode;
  operands : list Value
}.

Definition BasicBlock := list Instruction.

Record Function := mkFunction {
  getName : string;
  isDeclaration : bool;
  getBasicBlocks : list BasicBlock
}.

Definition Module := list Function.

(** [InsertStackMaps::SMName]. *)
Definition SMName : string := "llvm.experimental.pcn.stackmap".

(** The test of [removeOldStackmaps]: a [CallInst] whose called function has
    the name of the stack-map intrinsic. *)
Definition isStackmap (I : Instruction) : bool :=
  match opcode I with
  | CallInst (Some name) => String.eqb name SMName
  | _ => false
  end.

(** Modelled from the spec: [Popcorn::isCallSite] is declared in
    PopcornUtil.h, which is not part of the sources.  The spec has the
    operations "tagged as terminator, call, or other" and the pass walk "all
    call sites"; calls of intrinsics (functions whose name starts with
    [llvm.], the marker among them) are no call sites. *)
Definition isIntrinsic (callee : option string) : bool :=
  match callee with
  | Some name => String.prefix "llvm." name
  | None => false
  end.

Definition isCallSite (I : Instruction) : bool :=
  match opcode I with
  | CallInst callee | InvokeInst callee => negb (isIntrinsic callee)
  | _ => false
  end.

(** [CallSite::isInvoke]. *)
Definition isInvoke (I : Instruction) : bool :=
  match opcode I with
  | InvokeInst _ => true
  | _ => false
  end.

(** [size_t] arithmetic. *)
Definition wrap64 (z : Z) : Z := z mod 2 ^ 64.

(** The members [callSiteID] and [numInstrumented] of the pass, and the
    identity the next created instruction gets. *)
Record Pass := mkPass {
  callSiteID : Z;
  numInstrumented : Z;
  nextId : nat
}.

(** The pass as its constructor leaves it, for a module whose instruction
    identities lie below [fresh]. *)
Definition newPass (fresh : nat) : Pass := mkPass 0 0 fresh.

(** *** The ordered set of live values *)

Section Order.
(** [Value::hasName]/[getName] and [ModuleSlotTracker::getLocalSlot]. *)
Variable valueName : Value → option string.
Variable getLocalSlot : Value → Z.

(** [ValueComp::operator()]. *)
Definition ValueComp (a b : Value) : bool :=
  match valueName a, valueName b with
  | Some na, Some nb =>
      match String.compare na nb with
      | Lt => true
      | _ => false
      end
  | Some _, None => true
  | None, Some _ => false
  | None, None => getLocalSlot a <? getLocalSlot b
  end.

(** [std::set<const Value *, ValueComp>::insert] on the set as the sequence
    of its elements in order: an element equivalent to [v] under the
    comparison keeps [v] out. *)
Fixpoint insert (v : Value) (s : list Value) : list Value :=
  match s with
  | [] => [v]
  | x :: s' =>
      if ValueComp v x then v :: x :: s'
      else if ValueComp x v then x :: insert v s'
      else x :: s'
  end.

Definition insertAll (vs : list Value) (s : list Value) : list Value :=
  fold_left (λ s v, insert v s) vs s.

(** No two distinct values of [vs] compare equivalent: names are unique in a
    function, and so are the slots of the values without a name. *)
Definition distinctKeys (vs : list Value) : Prop :=
  ∀ a b, a ∈ vs → b ∈ vs →
         ValueComp a b = false → ValueComp b a = false → a = b.

(** The same as a test. *)
Definition distinctKeysb (vs : list Value) : bool :=
  forallb (λ a, forallb (λ b, ValueComp a b || ValueComp b a
                              || bool_decide (a = b)) vs) vs.

(** The order of the values with a name and of those without. *)
Definition byName (a b : Value) : Prop :=
  match valueName a, valueName b with
  | Some na, Some nb => String.compare na nb = Lt
  | _, _ => False
  end.

Definition bySlot (a b : Value) : Prop :=
  valueName a = None ∧ valueName b = None ∧ getLocalSlot a < getLocalSlot b.

End Order.

(** *** Hidden values *)

(** The lambda [hidesValues] of [getHiddenVals]. *)
Definition hidesValues (I : Instruction) : bool :=
  match opcode I with
  | ExtractElementInst | InsertElementInst | ExtractValueInst
  | InsertValueInst | GetElementPtrInst | BitCastInst => true
  | _ => false
  end.

Definition isaInstruction (v : Value) : bool :=
  match v with VInst _ => true | _ => false end.
Definition isaArgument (v : Value) : bool :=
  match v with VArg _ => true | _ => false end.

(** [inst_begin(F) .. inst_end(F)]. *)
Definition instructions (F : Function) : list Instruction :=
  concat (getBasicBlocks F).

(** [getHiddenVals]: for every instruction of the function an entry in each
    of the two maps, with the operands it hides that are instructions or
    arguments.  The maps are listed in the order of their creation; the pass
    enumerates them in the order of a hash table. *)
Definition getHiddenVals (F : Function)
    : list (Instruction * list Value) * list (Instruction * list Value) :=
  (map (λ I, (I, if hidesValues I
                 then List.filter isaInstruction (operands I) else []))
       (instructions F),
   map (λ I, (I, if hidesValues I
                 then List.filter isaArgument (operands I) else []))
       (instructions F)).

(** *** The pass *)

Section Run.
(** The option [-no-live-vals]. *)
Variable NoLiveVals : bool.
(** [LiveValues::getLiveValues]: the values live across a call, as the
    returned set enumerates them; and [DominatorTree::dominates]. *)
Variable getLiveValues : Instruction → list Value.
Variable dominates : Instruction → Instruction → bool.
Variable valueName : Value → option string.
Variable getLocalSlot : Value → Z.

(** [live->count(v)]. *)
Definition liveCount (live : list Value) (v : Value) : bool :=
  bool_decide (v ∈ live).

(** [for (pair : hidden) if (cond(pair.first))
          for (inst : pair.second) sortedLive.insert(inst);] *)
Definition addHidden (cond : Instruction → bool)
    (hidden : list (Instruction * list Value)) (sortedLive : list Value)
    : list Value :=
  fold_left (λ sortedLive pair,
               if cond pair.1
               then insertAll valueName getLocalSlot pair.2 sortedLive
               else sortedLive) hidden sortedLive.

(** The set [sortedLive] of a call site [I]: the live values; the hidden
    instructions of the live hiding instructions that dominate the call; the
    hidden arguments of the live hiding instructions. *)
Definition sortedLiveAt
    (hiddenInst hiddenArgs : list (Instruction * list Value))
    (I : Instruction) : list Value :=
  let live := getLiveValues I in
  let sortedLive := insertAll valueName getLocalSlot live [] in
  let sortedLive :=
    addHidden (λ H, dominates H I && liveCount live (VInst (instId H)))
              hiddenInst sortedLive in
  addHidden (λ H, liveCount live (VInst (instId H))) hiddenArgs sortedLive.

(** The values that can reach the set of a call site. *)
Definition candidates (hiddenInst hiddenArgs : list (Instruction * list Value))
    (I : Instruction) : list Value :=
  getLiveValues I ++ flat_map snd hiddenInst ++ flat_map snd hiddenArgs.

(** [builder.CreateCall(this->SMFunc, args)]. *)
Definition CreateCall (id : nat) (args : list Value) : Instruction :=
  mkInst id (CallInst (Some SMName)) args.

(** The two leading arguments of a marker. *)
Definition siteArgs (p : Pass) : list Value :=
  [ConstantInt 64 (callSiteID p); ConstantInt 32 0].

(** The body of the loop over the instructions of a block: the instruction
    [I], followed by its marker when it is a call site other than an invoke.
    The iterator then stands on the marker, which is no call site. *)
Definition visitInstruction
    (hiddenInst hiddenArgs : list (Instruction * list Value))
    (I : Instruction) (p : Pass) : list Instruction * Pass :=
  if isCallSite I then
    if isInvoke I then ([I], p)
    else
      let args := siteArgs p in
      let p := mkPass (wrap64 (callSiteID p + 1)) (numInstrumented p)
                      (nextId p) in
      let args := if NoLiveVals then args
                  else args ++ sortedLiveAt hiddenInst hiddenArgs I in
      ([I; CreateCall (nextId p) args],
       mkPass (callSiteID p) (wrap64 (numInstrumented p + 1)) (S (nextId p)))
  else ([I], p).

Fixpoint visitBlock (hiddenInst hiddenArgs : list (Instruction * list Value))
    (b : BasicBlock) (p : Pass) : BasicBlock * Pass :=
  match b with
  | [] => ([], p)
  | Inst :: b' =>
      let '(out, p) := visitInstruction hiddenInst hiddenArgs Inst p in
      let '(b'', p) := visitBlock hiddenInst hiddenArgs b' p in
      (out ++ b'', p)
  end.

Fixpoint visitBlocks (hiddenInst hiddenArgs : list (Instruction * list Value))
    (bs : list BasicBlock) (p : Pass) : list BasicBlock * Pass :=
  match bs with
  | [] => ([], p)
  | b :: bs' =>
      let '(b', p) := visitBlock hiddenInst hiddenArgs b p in
      let '(bs'', p) := visitBlocks hiddenInst hiddenArgs bs' p in
      (b' :: bs'', p)
  end.

(** The body of the loop over the functions of the module. *)
Definition visitFunction (F : Function) (p : Pass) : Function * Pass :=
  if isDeclaration F then (F, p)
  else
    let '(hiddenInst, hiddenArgs) := getHiddenVals F in
    let '(bs, p) := visitBlocks hiddenInst hiddenArgs (getBasicBlocks F) p in
    (mkFunction (getName F) false bs,
     (* this->callSiteID = 0; *)
     mkPass 0 (numInstrumented p) (nextId p)).

Fixpoint visitFunctions (M : Module) (p : Pass) : Module * Pass :=
  match M with
  | [] => ([], p)
  | F :: M' =>
      let '(F', p) := visitFunction F p in
      let '(M'', p) := visitFunctions M' p in
      (F' :: M'', p)
  end.

(** [addSMDeclaration]: the declaration of the intrinsic is added at the end
    of the module unless a function of that name exists. *)
Definition addSMDeclaration (M : Module) : bool * Module :=
  if existsb (λ F, String.eqb (getName F) SMName) M then (false, M)
  else (true, M ++ [mkFunction SMName true []]).

(** The loop of [removeOldStackmaps] over the instructions of a block, with
    the iterator as a position [i] in the block [bb]: a marker is erased,
    the iterator is set back to the first instruction, and the increment of
    the [for] statement then moves it to the second one. *)
Fixpoint removeLoop (fuel : nat) (bb : BasicBlock) (i : nat) (modified : bool)
    : BasicBlock * bool :=
  match fuel with
  | O => (bb, modified)
  | S fuel' =>
      match bb !! i with
      | None => (bb, modified)
      | Some Inst =>
          if isStackmap Inst then removeLoop fuel' (delete i bb) 1%nat true
          else removeLoop fuel' bb (S i) modified
      end
  end.

(** The steps the loop can take on a block. *)
Definition removeFuel (bb : BasicBlock) : nat :=
  (S (length bb) * S (length bb))%nat.

Definition removeFromBlock (bb : BasicBlock) (modified : bool)
    : BasicBlock * bool :=
  removeLoop (removeFuel bb) bb 0 modified.

Fixpoint removeFromBlocks (bs : list BasicBlock) (modified : bool)
    : list BasicBlock * bool :=
  match bs with
  | [] => ([], modified)
  | bb :: bs' =>
      let '(bb', modified) := removeFromBlock bb modified in
      let '(bs'', modified) := removeFromBlocks bs' modified in
      (bb' :: bs'', modified)
  end.

(** [removeOldStackmaps]. *)
Fixpoint removeOldStackmapsFrom (M : Module) (modified : bool)
    : Module * bool :=
  match M with
  | [] => ([], modified)
  | F :: M' =>
      let '(bs, modified) := removeFromBlocks (getBasicBlocks F) modified in
      let '(M'', modified) := removeOldStackmapsFrom M' modified in
      (mkFunction (getName F) (isDeclaration F) bs :: M'', modified)
  end.

Definition removeOldStackmaps (M : Module) : Module * bool :=
  removeOldStackmapsFrom M false.

(** [runOnModule]: the result, the module and the pass afterwards. *)
Definition runOnModule (M : Module) (p : Pass) : bool * Module * Pass :=
  let modified := false in
  let '(added, M) := addSMDeclaration M in
  let modified := if added then true else modified in
  let '(M, removed) := removeOldStackmaps M in
  let modified := modified || removed in
  let '(M, p) := visitFunctions M p in
  let modified := if 0 <? numInstrumented p then true else modified in
  (modified, M, p).

End Run.

(** *** What a run leaves in the module *)

(** The argument lists of the markers of a block, a function, a module. *)
Definition markersOf (b : BasicBlock) : list (list Value) :=
  map operands (List.filter isStackmap b).

Definition markersOfFunction (F : Function) : list (list Value) :=
  markersOf (instructions F).

Definition markersOfModule (M : Module) : list (list Value) :=
  flat_map markersOfFunction M.

(** The call sites of a function that get a marker, in order. *)
Definition instrumentedSites (F : Function) : list Instruction :=
  List.filter (λ I, isCallSite I && negb (isInvoke I)) (instructions F).

(** The markers of a function of [n] call sites when no live values are
    recorded: the site identifiers from [c] on, each with the flags 0. *)
Definition bareMarker (site : Z) : list Value :=
  [ConstantInt 64 site; ConstantInt 32 0].

Definition bareMarkers (c : Z) (n : nat) : list (list Value) :=
  map (λ k, bareMarker (wrap64 (c + Z.of_nat k))) (seq 0 n).

(** The number of markers a run inserts into a module. *)
Definition insertedMarkers (M : Module) : nat :=
  length (flat_map instrumentedSites
                   (List.filter (λ F, negb (isDeclaration F)) M)).

(** The module declares the intrinsic; the module holds a marker. *)
Definition declared (M : Module) : bool :=
  existsb (λ F, String.eqb (getName F) SMName) M.

Definition hasStackmap (M : Module) : bool :=
  existsb (λ F, existsb (existsb isStackmap) (getBasicBlocks F)) M.

(** A module up to the identities of its markers, which are new in every
    run. *)
Definition forget (I : Instruction) : Instruction :=
  if isStackmap I then mkInst 0 (opcode I) (operands I) else I.

Definition forgetIds (M : Module) : Module :=
  map (λ F, mkFunction (getName F) (isDeclaration F)
                       (map (map forget) (getBasicBlocks F))) M.

(** No marker in a block, in a module. *)
Definition noStackmap (b : BasicBlock) : Prop :=
  Forall (λ I, isStackmap I = false) b.

Definition noStackmaps (M : Module) : Prop :=
  Forall (λ F, Forall noStackmap (getBasicBlocks F)) M.

(** No marker at the head of a block, of a block of a module. *)
Definition headClean (b : BasicBlock) : Prop :=
  ∀ I, b !! 0%nat = Some I → isStackmap I = false.

Definition headsClean (M : Module) : Prop :=
  Forall (λ F, Forall headClean (getBasicBlocks F)) M.

(** A block, a module without its markers. *)
Definition sweep (b : BasicBlock) : BasicBlock :=
  List.filter (λ I, negb (isStackmap I)) b.

Definition sweepModule (M : Module) : Module :=
  map (λ F, mkFunction (getName F) (isDeclaration F)
                       (map sweep (getBasicBlocks F))) M.

(** *** Example modules *)

(** A function [f(n)]: an allocation [arr], an address computation on [arr]
    and [n], a call of [g] and a use of the address. *)
Definition allocaI : Instruction := mkInst 1 OtherInst [].
Definition gepI : Instruction :=
  mkInst 2 GetElementPtrInst [VInst 1; VArg 0; ConstantInt 64 0].
Definition callI : Instruction := mkInst 3 (CallInst (Some "g"%string)) [VInst 2].
Definition useI : Instruction := mkInst 4 OtherInst [VInst 2].
Definition retI : Instruction := mkInst 5 OtherInst [].
Definition exampleF : Function :=
  mkFunction "f" false [[allocaI; gepI; callI; useI; retI]].

(** Its collaborators: the address is live across the call; an instruction
    dominates the later ones of the block; the allocation is [arr], the
    argument [n], and the address has no name and the slot 0. *)
Definition exampleLive (I : Instruction) : list Value :=
  if (instId I =? 3)%nat then [VInst 2] else [].
Definition exampleDominates (D U : Instruction) : bool :=
  (instId D <? instId U)%nat.
Definition exampleName (v : Value) : option string :=
  match v with
  | VInst 1 => Some "arr"%string
  | VArg 0 => Some "n"%string
  | _ => None
  end.
Definition exampleSlot (v : Value) : Z :=
  match v with
  | VInst 2 => 0
  | VInst id => Z.of_nat id
  | _ => -1
  end.

Definition exampleSorted : list Value :=
  sortedLiveAt exampleLive exampleDominates exampleName exampleSlot
               (getHiddenVals exampleF).1 (getHiddenVals exampleF).2 callI.

(** Collaborators under which two values compare equivalent.  [tiedLive]
    reports, besides the address, two values without a name that have no
    slot of their own (the slot -1 for both); [clashLive] reports, besides
    the address, a value to which [clashName] gives the name [n] of the
    argument. *)
Definition tiedLive (I : Instruction) : list Value :=
  if (instId I =? 3)%nat then [VOther 8; VOther 7; VInst 2] else [].
Definition clashLive (I : Instruction) : list Value :=
  if (instId I =? 3)%nat then [VInst 2; VOther 9] else [].
Definition clashName (v : Value) : option string :=
  match v with
  | VOther 9 => Some "n"%string
  | _ => exampleName v
  end.

(** A function whose only block begins with two markers of an earlier run,
    in a module that declares the intrinsic. *)
Definition staleMarker (id : nat) (site : Z) : Instruction :=
  mkInst id (CallInst (Some SMName)) [ConstantInt 64 site; ConstantInt 32 0].
Definition staleF : Function :=
  mkFunction "f" false [[staleMarker 1 0; staleMarker 2 1; retI]].
Definition staleM : Module := [staleF; mkFunction SMName true []].

(** The first and the second run of a fresh pass on [staleM]; there is no
    call, and so nothing is asked of the collaborators. *)
Definition staleRun1 : bool * Module * Pass :=
  runOnModule false (λ _, []) (λ _ _, false) (λ _, None) (λ _, -1)
              staleM (newPass 6).
Definition staleRun2 : bool * Module * Pass :=
  runOnModule false (λ _, []) (λ _ _, false) (λ _, None) (λ _, -1)
              staleRun1.1.2 staleRun1.2.

End InsertStackMaps.

Module LoopPathsFacts.
Import LoopPaths.

(** *** The summary maps *)

Lemma flag_index m l b l' b' :
  flag (index m l b).2 l' b' = flag m l' b'.
Proof.
  unfold flag, index. simpl.
  destruct (decide (l = l')) as [->|Hl].
  - rewrite lookup_insert_eq. simpl.
    destruct (decide (b = b')) as [->|Hb].
    + rewrite lookup_insert_eq. simpl. reflexivity.
    + rewrite lookup_insert_ne by done. reflexivity.
  - rewrite lookup_insert_ne by done. reflexivity.
Qed.

Lemma flag_setTrue m l b l' b' :
  flag (setTrue m l b) l' b' =
  (bool_decide (l = l' ∧ b = b') || flag m l' b').
Proof.
  unfold flag, setTrue.
  destruct (decide (l = l')) as [->|Hl].
  - rewrite lookup_insert_eq. simpl.
    destruct (decide (b = b')) as [->|Hb].
    + rewrite lookup_insert_eq. simpl.
      rewrite bool_decide_eq_true_2 by done. reflexivity.
    + rewrite lookup_insert_ne by done.
      rewrite bool_decide_eq_false_2 by naive_solver. reflexivity.
  - rewrite lookup_insert_ne by done.
    rewrite bool_decide_eq_false_2 by naive_solver. reflexivity.
Qed.

Lemma flag_markPath L Sub nodes m l b :
  flag (markPath L Sub m nodes) l b =
  (bool_decide (l = loopId L ∧ b ∈ map getBlock nodes ∧ count Sub b = false)
   || flag m l b).
Proof.
  revert m. induction nodes as [|n nodes IH]; intros m; simpl.
  - rewrite bool_decide_eq_false_2; [reflexivity|].
    intros (_ & H & _). inversion H.
  - unfold markPath in *. simpl. rewrite IH. clear IH.
    destruct (count Sub (getBlock n)) eqn:Hc; simpl.
    + f_equal. apply bool_decide_ext. split.
      * intros (? & ? & ?). split_and!; [done| |done]. by right.
      * intros (? & H & ?). split_and!; [done| |done].
        apply elem_of_cons in H as [->|H]; [congruence|done].
    + rewrite flag_setTrue.
      destruct (flag m l b); [by rewrite !orb_true_r|]. rewrite !orb_false_r.
      apply eq_true_iff_eq. rewrite orb_true_iff, !bool_decide_eq_true.
      split.
      * intros [(? & ? & ?)|(? & ?)]; subst.
        -- split_and!; [done| |done]. by right.
        -- split_and!; [done| |done]. by left.
      * intros (? & H & ?). apply elem_of_cons in H as [->|H]; [right|left]; done.
Qed.

(** *** Elementary facts of the search *)

Lemma pathContains_false pn b :
  pathContains pn b = false ↔ b ∉ map getBlock pn.
Proof.
  unfold pathContains. induction pn as [|n pn IH]; simpl.
  - split; [intros _ H; inversion H|done].
  - rewrite orb_false_iff, IH, not_elem_of_cons, Nat.eqb_neq. naive_solver.
Qed.

Lemma wfPath_nil Sub : wfPath Sub [].
Proof. split; simpl; constructor. Qed.

Lemma wfPath_push Sub pn BB :
  wfPath Sub pn → pathContains pn BB = false →
  wfPath Sub (pn ++ [(BB, count Sub BB)]).
Proof.
  intros [Hnd Hfl] Hc. apply pathContains_false in Hc. split.
  - rewrite map_app. simpl. apply NoDup_app. split_and!; [done| |].
    + intros x Hx Hx'. apply list_elem_of_singleton in Hx'. by subst.
    + apply NoDup_singleton.
  - apply Forall_app. split; [done|]. by constructor.
Qed.

Lemma valid_front F LI L b :
  b ∈ reachable LI L → valid F LI L (front b).
Proof. unfold valid, front. simpl. split; [lia|done]. Qed.

Lemma valid_getTerminator F LI L b :
  b ∈ reachable LI L → valid F LI L (getTerminator F b).
Proof. unfold valid, getTerminator. simpl. split; [lia|done]. Qed.

Lemma contains_reachable LI L b : contains L b = true → b ∈ reachable LI L.
Proof.
  unfold contains, count, reachable. intros Hb%bool_decide_eq_true.
  right. simpl. apply elem_of_app. by left.
Qed.

Lemma getLoopForIn_nest L b Sub :
  getLoopForIn L b = Some Sub → Sub ∈ populateLoopNest L.
Proof.
  revert Sub. induction L as [[id h bs subs] IH] using Loop_nest_ind.
  intros Sub. simpl. destruct (contains _ b); [|done].
  simpl in IH.
  assert (Hin : ∀ r,
    (fix inner (subs0 : list Loop) : option Loop :=
       match subs0 with
       | [] => None
       | s :: subs' =>
           match getLoopForIn s b with
           | Some r => Some r
           | None => inner subs'
           end
       end) subs = Some r → r ∈ flat_map populateLoopNest subs).
  { induction IH as [|s subs Hs _ IHs]; intros r; [done|].
    simpl. destruct (getLoopForIn s b) as [r'|] eqn:Hr.
    - intros [= <-]. apply elem_of_app. left. by apply Hs.
    - intros Hr'. apply elem_of_app. right. by apply IHs. }
  match goal with
  | |- match ?x with _ => _ end = _ → _ => destruct x as [r|] eqn:Hr
  end.
  - intros [= <-]. right. by apply Hin.
  - intros [= <-]. by left.
Qed.

Lemma getLoopFor_nest LI b Sub :
  getLoopFor LI b = Some Sub → Sub ∈ flat_map populateLoopNest LI.
Proof.
  induction LI as [|L LI IH]; simpl; [done|].
  destruct (getLoopForIn L b) as [r|] eqn:Hr.
  - intros [= <-]. apply elem_of_app. left. by eapply getLoopForIn_nest.
  - intros H. apply elem_of_app. right. by apply IH.
Qed.

Lemma firstTrue_spec l i j :
  firstTrue i l = Some j →
  i ≤ j ∧ j < i + length l ∧ nth (j - i) l false = true.
Proof.
  revert i. induction l as [|x l IH]; intros i; simpl; [done|].
  destruct x.
  - intros [= <-]. rewrite Nat.sub_diag. split_and!; [lia|lia|done].
  - intros H. apply IH in H as (? & ? & ?). split_and!; [lia|lia|].
    replace (j - i) with (S (j - S i)) by lia. done.
Qed.

Lemma firstTrue_None l i k :
  firstTrue i l = None → nth k l false = false.
Proof.
  revert i k. induction l as [|x l IH]; intros i k; simpl.
  - by destruct k.
  - destruct x; [done|]. intros H. destruct k; [done|]. by eapply IH.
Qed.

Lemma hasEquivalencePoint_Some F I E :
  hasEquivalencePoint F I = Some E →
  getParent E = getParent I ∧ I.2 ≤ E.2 ∧ E.2 < size F I.1 ∧
  isEquivalencePoint F E = true.
Proof.
  unfold hasEquivalencePoint.
  destruct (firstTrue _ _) as [j|] eqn:Hj; [|done]. intros [= <-].
  apply firstTrue_spec in Hj as (H1 & H2 & H3).
  rewrite length_drop in H2.
  assert (I.2 ≤ length (eqPoints (F I.1)) ∨ length (eqPoints (F I.1)) < I.2)
    as [Hle|Hgt] by lia.
  - unfold isEquivalencePoint, size, getParent. simpl. split_and!; [done|done|lia|].
    rewrite <- H3. rewrite <- (take_drop I.2 (eqPoints (F I.1))) at 1.
    rewrite app_nth2; rewrite length_take; [f_equal; lia|lia].
  - lia.
Qed.

Lemma hasEquivalencePoint_None F I J :
  hasEquivalencePoint F I = None → getParent J = getParent I → I.2 ≤ J.2 →
  isEquivalencePoint F J = false.
Proof.
  unfold hasEquivalencePoint, getParent, isEquivalencePoint.
  destruct (firstTrue _ _) eqn:Hj; [done|]. intros _ -> Hle.
  apply (firstTrue_None _ _ (J.2 - I.2)) in Hj.
  rewrite nth_lookup, lookup_drop in Hj. rewrite nth_lookup.
  by replace (I.2 + (J.2 - I.2)) with J.2 in Hj by lia.
Qed.

Lemma valid_getNextNode F LI L I E :
  valid F LI L I →
  hasEquivalencePoint F I = Some E → isTerminator F E = false →
  valid F LI L (getNextNode E).
Proof.
  intros [_ HI] H Ht. apply hasEquivalencePoint_Some in H as (Hp & _ & Hlt & _).
  unfold isTerminator in Ht. apply Nat.eqb_neq in Ht.
  unfold valid, getNextNode, getParent in *. simpl. rewrite Hp in *.
  split; [lia|done].
Qed.

Section SearchFacts.
Variable F : Function.
Variable LI : list Loop.
Variable MaxNumPaths : nat.
Variable CurLoop : Loop.
Variables Latches SubLoopBlocks : list BasicBlock.

Local Abbreviation exitOf := (exitOf F LI).
Local Abbreviation free := (free LI CurLoop).

Lemma visitExits_spec Succ SubLoop s exits E0 Sp0 s0 E Sp s' :
  getLoopFor LI Succ = Some SubLoop →
  (∀ x, x ∈ exits → x ∈ getBlocks SubLoop) →
  sameButSummary s s0 → Forall (exitOf Succ) E0 → Forall (exitOf Succ) Sp0 →
  fold_left (visitExit F SubLoop) exits (E0, Sp0, s0) = (E, Sp, s') →
  sameButSummary s s' ∧ Forall (exitOf Succ) E ∧ Forall (exitOf Succ) Sp.
Proof.
  intros HL. revert E0 Sp0 s0.
  induction exits as [|x exits IH]; intros E0 Sp0 s0 Hin Hs HE HS; simpl.
  - intros [= <- <- <-]. done.
  - assert (exitOf Succ (getTerminator F x)).
    { exists SubLoop, x. split_and!; [done| |done]. apply Hin. by left. }
    destruct Hs as (H1 & H2 & H3 & H4 & H5 & H6 & H7).
    apply IH; [intros; apply Hin; by right| | |].
    + repeat split; simpl; try done.
      * intros l b. rewrite <- H6. apply flag_index.
      * intros l b. rewrite <- H7. apply flag_index.
    + destruct (default false _); [|done].
      apply Forall_app. split; [done|]. by constructor.
    + destruct (default false _); [|done].
      apply Forall_app. split; [done|]. by constructor.
Qed.

Lemma getSubLoopSuccessors_spec Succ s E Sp s' :
  getSubLoopSuccessors F LI Succ s = (E, Sp, s') →
  sameButSummary s s' ∧ Forall (exitOf Succ) E ∧ Forall (exitOf Succ) Sp.
Proof.
  unfold getSubLoopSuccessors.
  destruct (getLoopFor LI Succ) as [SubLoop|] eqn:HL.
  2:{ intros [= <- <- <-]. by repeat split. }
  apply (visitExits_spec Succ SubLoop s); try done.
  intros x Hx. unfold getExitingBlocks in Hx.
  by apply list_elem_of_filter in Hx as [_ ?].
Qed.

Lemma exitOf_valid Succ I : exitOf Succ I → valid F LI CurLoop I.
Proof.
  intros (SubLoop & Exit & HS%getLoopFor_nest & HE & ->).
  apply valid_getTerminator. right. apply list_elem_of_In, in_flat_map.
  exists SubLoop. split; [|by apply list_elem_of_In].
  right. by apply list_elem_of_In.
Qed.

Lemma andThen_true r k s' :
  andThen r k = Some (true, s') →
  ∃ s1, r = Some (true, s1) ∧ k s1 = Some (true, s').
Proof. destruct r as [[[] s1]|]; simpl; [eauto|done|done]. Qed.

Variable Start : Instruction.
Variable SAH : bool.

Local Abbreviation ev := (event F LI MaxNumPaths CurLoop Latches SubLoopBlocks Start SAH).
Local Abbreviation dfs := (loopDFS F LI MaxNumPaths CurLoop Latches SubLoopBlocks Start SAH).
Local Abbreviation body := (loopDFS_body F LI MaxNumPaths CurLoop Latches SubLoopBlocks
                               Start SAH).
Local Abbreviation add := (addPath MaxNumPaths CurLoop Start SAH).
Local Abbreviation tracedAt :=
  (tracedAt F LI MaxNumPaths CurLoop Latches SubLoopBlocks Start SAH).

Lemma addPath_true E eab s s1 :
  add E eab s = Some (true, s1) →
  s1 = emplace_back CurLoop Start SAH E eab s ∧
  length (CurPaths CurLoop s1) ≤ MaxNumPaths.
Proof.
  unfold addPath. destruct (_ <? _) eqn:Hlt; [done|].
  intros [= <-]. split; [done|]. apply Nat.ltb_ge in Hlt. done.
Qed.

Lemma tracedAt_forEach {A} pn (f : A → State → option (bool * State)) xs :
  (∀ x, x ∈ xs → tracedAt pn (f x)) → tracedAt pn (forEach f xs).
Proof.
  induction xs as [|x xs IH]; intros Hf s s' Hpn; simpl.
  - intros [= <-]. done.
  - destruct (f x s) as [[[] s1]|] eqn:Hx; [|done|done]. intros Hrest.
    destruct (Hf x (ltac:(by left)) s s1 Hpn Hx) as [Hpn1 Hr1].
    destruct (IH (λ y Hy, Hf y (ltac:(by right))) s1 s' Hpn1 Hrest) as [? Hr2].
    split; [done|]. by etrans.
Qed.

Lemma tracedAt_pushAll pn (Is : list Instruction) :
  Forall (valid F LI CurLoop) Is →
  ∀ s, PathNodes s = pn →
       PathNodes (fold_left (λ s SLE, pushNew SLE s) Is s) = pn ∧
       rtc ev s (fold_left (λ s SLE, pushNew SLE s) Is s).
Proof.
  induction 1 as [|I Is HI _ IH]; intros s Hpn; simpl; [done|].
  destruct (IH (pushNew I s) Hpn) as [? Hr]. split; [done|].
  eapply rtc_l; [|exact Hr]. by constructor.
Qed.

Lemma tracedAt_throughSubLoop rec pn I f Succ :
  (∀ J, valid F LI CurLoop J → tracedAt (pn ++ [(getParent I, f)]) (rec J)) →
  wfPath SubLoopBlocks (pn ++ [(getParent I, f)]) →
  valid F LI CurLoop I →
  (f = false → hasEquivalencePoint F I = None) →
  Succ ∈ successors F (getParent I) →
  contains CurLoop Succ = true →
  count SubLoopBlocks Succ = true →
  tracedAt (pn ++ [(getParent I, f)])
           (throughSubLoop F LI MaxNumPaths CurLoop Start SAH rec
                           (getParent I) Succ).
Proof.
  intros Hrec Hwf HI Hf HS HC HSub s s' Hpn. unfold throughSubLoop.
  destruct (getSubLoopSuccessors F LI Succ s) as [[E Sp] s0] eqn:Hsub.
  assert (Hev : rtc ev s s0).
  { apply rtc_once. replace s0 with (getSubLoopSuccessors F LI Succ s).2
      by by rewrite Hsub. constructor. }
  apply getSubLoopSuccessors_spec in Hsub as ((_ & Hpn0 & _) & HE & HSp).
  rewrite Hpn in Hpn0. intros Hrun.
  apply andThen_true in Hrun as (s1 & Hrun1 & Hrun2).
  assert (H1 : tracedAt (pn ++ [(getParent I, f)])
            (forEach (λ SLE s2, andThen (add (getTerminator F (getParent I)) false s2)
                                  (λ s3, Some (true, pushNew SLE s3))) E)).
  { apply tracedAt_forEach. intros SLE HSLE t t' Ht Hrun.
    apply andThen_true in Hrun as (t1 & Hadd & [= <-]).
    pose proof Hadd as Hadd'. apply addPath_true in Hadd' as [-> _].
    split; [done|]. apply rtc_once.
    eapply ev_subLoop with (I := I) (pn := pn) (f := f) (Succ := Succ);
      try done.
    - by rewrite Ht.
    - eapply exitOf_valid. rewrite Forall_forall in HE. by apply HE. }
  destruct (H1 s0 s1 Hpn0 Hrun1) as [Hpn1 Hr1].
  assert (H2 : tracedAt (pn ++ [(getParent I, f)]) (forEach rec Sp)).
  { apply tracedAt_forEach. intros SLE HSLE. apply Hrec.
    eapply exitOf_valid. rewrite Forall_forall in HSp. by apply HSp. }
  destruct (H2 s1 s' Hpn1 Hrun2) as [? Hr2].
  split; [done|]. etrans; [exact Hev|]. by etrans.
Qed.

Lemma tracedAt_pop pn n r s s' :
  PathNodes s = pn →
  (∀ t t', r = Some (true, t') → t = setPathNodes (pn ++ [n]) s →
           PathNodes t' = pn ++ [n] ∧ rtc ev t t') →
  andThen r pop_back = Some (true, s') →
  PathNodes s' = pn ∧ rtc ev s s'.
Proof.
  intros Hpn Hc Hrun. apply andThen_true in Hrun as (s2 & Hrun & [= <-]).
  destruct (Hc _ s2 Hrun eq_refl) as [Hpn2 Hr].
  simpl. rewrite Hpn2, removelast_last. split; [done|].
  eapply rtc_l; [apply ev_nodes with (pn := pn ++ [n])|].
  eapply rtc_r; [exact Hr|]. constructor.
Qed.

Section Activation.
Variable rec : Instruction → State → option (bool * State).
Hypothesis Hrec :
  ∀ J pn, valid F LI CurLoop J → wfPath SubLoopBlocks pn → tracedAt pn (rec J).
Variables (I : Instruction) (pn : list PathNode).
Hypothesis HI : valid F LI CurLoop I.

Local Abbreviation BB := (getParent I).

Lemma queueSuccessor_traced Succ :
  wfPath SubLoopBlocks (pn ++ [(BB, false)]) →
  tracedAt (pn ++ [(BB, false)])
    (queueSuccessor F LI CurLoop SubLoopBlocks rec Succ).
Proof.
  intros Hwf u u' Hu. unfold queueSuccessor.
  destruct (_ || _) eqn:Hskip; [by intros [= <-]|].
  apply orb_false_iff in Hskip as [HC%negb_false_iff _].
  destruct (count SubLoopBlocks Succ) eqn:HS; simpl.
  - destruct (getSubLoopSuccessors F LI Succ u) as [[Es Sp] u0] eqn:Hs.
    assert (Hev0 : rtc ev u u0).
    { apply rtc_once.
      replace u0 with (getSubLoopSuccessors F LI Succ u).2
        by by rewrite Hs. constructor. }
    apply getSubLoopSuccessors_spec in Hs as ((_ & Hu0 & _) & HEs & HSp).
    rewrite Hu in Hu0.
    destruct (tracedAt_pushAll _ Es
                (Forall_impl _ _ _ HEs (exitOf_valid Succ)) u0 Hu0)
      as [Hu1 Hev1].
    intros Hrun'.
    assert (H2 : tracedAt (pn ++ [(BB, false)]) (forEach rec Sp)).
    { apply tracedAt_forEach. intros SLE HSLE. apply Hrec; [|done].
      eapply exitOf_valid. rewrite Forall_forall in HSp. by apply HSp. }
    destruct (H2 _ _ Hu1 Hrun') as [? Hev2].
    split; [done|]. etrans; [exact Hev0|]. by etrans.
  - intros [= <-]. split; [done|]. apply rtc_once. constructor.
    by apply valid_front, contains_reachable.
Qed.

Lemma atEquivalencePoint_traced E :
  wfPath SubLoopBlocks (pn ++ [(BB, false)]) →
  hasEquivalencePoint F I = Some E →
  tracedAt (pn ++ [(BB, false)])
    (atEquivalencePoint F LI MaxNumPaths CurLoop SubLoopBlocks Start SAH
                        rec BB E).
Proof.
  intros Hwf HE t t' Ht Hrun. unfold atEquivalencePoint in Hrun.
  apply andThen_true in Hrun as (t1 & Hadd & Hrun).
  pose proof Hadd as Hadd'. apply addPath_true in Hadd' as [Ht1 _].
  assert (Hpn1 : PathNodes t1 = pn ++ [(BB, false)]) by by rewrite Ht1.
  set (t2 := setHasEqPointPath _ t1) in Hrun.
  assert (Hev : rtc ev t t2).
  { apply rtc_once. eapply ev_eqPoint with (I := I) (pn := pn); try done.
    by rewrite Ht. }
  assert (Hpn2 : PathNodes t2 = pn ++ [(BB, false)]) by done.
  clearbody t2.
  destruct (isTerminator F E) eqn:HT; simpl in Hrun.
  - assert (Hfe : PathNodes t' = pn ++ [(BB, false)] ∧ rtc ev t2 t');
      [|destruct Hfe; split; [done|by etrans]].
    refine (tracedAt_forEach _ _ _ _ t2 t' Hpn2 Hrun).
    intros Succ _. by apply queueSuccessor_traced.
  - injection Hrun as <-. split; [done|].
    eapply rtc_r; [exact Hev|]. constructor.
    by eapply valid_getNextNode.
Qed.

Lemma atLatch_traced :
  wfPath SubLoopBlocks (pn ++ [(BB, false)]) →
  hasEquivalencePoint F I = None →
  count Latches BB = true →
  tracedAt (pn ++ [(BB, false)]) (atLatch F MaxNumPaths CurLoop SubLoopBlocks
                                          Start SAH BB).
Proof.
  intros Hwf HE HL t t' Ht Hrun. unfold atLatch in Hrun.
  apply andThen_true in Hrun as (t1 & Hadd & Hrun).
  pose proof Hadd as Hadd'. apply addPath_true in Hadd' as [Ht1 _].
  assert (Hpn1 : PathNodes t1 = pn ++ [(BB, false)]) by by rewrite Ht1.
  assert (Hev : rtc ev t
    (if SAH
     then setHasSpPath
            (markPath CurLoop SubLoopBlocks (HasSpPath t1) (PathNodes t1)) t1
     else setHasEqPointPath
            (markPath CurLoop SubLoopBlocks (HasEqPointPath t1)
                      (PathNodes t1)) t1)).
  { apply rtc_once. eapply ev_latch with (I := I) (pn := pn); try done.
    by rewrite Ht. }
  destruct SAH; injection Hrun as <-; done.
Qed.

Lemma intoSuccessors_traced :
  wfPath SubLoopBlocks (pn ++ [(BB, false)]) →
  hasEquivalencePoint F I = None →
  tracedAt (pn ++ [(BB, false)])
    (intoSuccessors F LI MaxNumPaths CurLoop SubLoopBlocks Start SAH rec BB).
Proof.
  intros Hwf HE. unfold intoSuccessors.
  apply tracedAt_forEach. intros Succ HSucc.
  destruct (negb (contains CurLoop Succ)) eqn:HC;
    [by intros t t' Ht [= <-]|].
  apply negb_false_iff in HC.
  destruct (count SubLoopBlocks Succ) eqn:HS; simpl.
  - apply tracedAt_throughSubLoop; try done. intros J HJ. by apply Hrec.
  - apply Hrec; [by apply valid_front, contains_reachable|done].
Qed.

Lemma outOfSubLoop_traced :
  wfPath SubLoopBlocks (pn ++ [(BB, true)]) →
  tracedAt (pn ++ [(BB, true)])
    (outOfSubLoop F LI MaxNumPaths CurLoop SubLoopBlocks Start SAH rec BB).
Proof.
  intros Hwf. unfold outOfSubLoop.
  apply tracedAt_forEach. intros Succ HSucc.
  destruct (_ || _) eqn:Hskip; [by intros t t' Ht [= <-]|].
  apply orb_false_iff in Hskip as [_ HC]. apply negb_false_iff in HC.
  destruct (count SubLoopBlocks Succ) eqn:HS; simpl.
  - apply tracedAt_throughSubLoop; try done. intros J HJ. by apply Hrec.
  - apply Hrec; [by apply valid_front, contains_reachable|done].
Qed.

Lemma body_traced :
  wfPath SubLoopBlocks pn → tracedAt pn (body rec I).
Proof.
  intros Hwf s s' Hpn. unfold loopDFS_body. rewrite Hpn.
  destruct (pathContains pn BB) eqn:Hc; [by destruct (negb _)|].
  pose proof (wfPath_push _ _ _ Hwf Hc) as Hwf0.
  destruct (count SubLoopBlocks BB) eqn:HSub; simpl.
  - apply tracedAt_pop with (n := (BB, true)); [done|]. intros t t' Hrun ->.
    by eapply outOfSubLoop_traced.
  - apply tracedAt_pop with (n := (BB, false)); [done|]. intros t t' Hrun ->.
    destruct (hasEquivalencePoint F I) as [E|] eqn:HE.
    + by eapply atEquivalencePoint_traced.
    + destruct (count Latches BB) eqn:HL.
      * by eapply atLatch_traced.
      * by eapply intoSuccessors_traced.
Qed.

End Activation.

Lemma andThen_false r k s' :
  andThen r k = Some (false, s') →
  r = Some (false, s') ∨ ∃ s1, r = Some (true, s1) ∧ k s1 = Some (false, s').
Proof. destruct r as [[[] s1]|]; simpl; [eauto|by left|done]. Qed.

Lemma failing_forEach {A} (f : A → State → option (bool * State)) xs :
  (∀ x, failing (f x)) → failing (forEach f xs).
Proof.
  intros Hf. induction xs as [|x xs IH]; intros s s'; simpl; [done|].
  destruct (f x s) as [[[] s1]|] eqn:Hx; [apply IH| |done].
  intros [= <-]. by eapply Hf.
Qed.

Lemma failing_addPath E eab : failing (add E eab).
Proof.
  intros s s'. unfold addPath. destruct (_ <? _); [|done].
  intros [= <-]. done.
Qed.

Lemma failing_throughSubLoop rec B Succ :
  (∀ J, failing (rec J)) →
  failing (throughSubLoop F LI MaxNumPaths CurLoop Start SAH rec B Succ).
Proof.
  intros Hrec s s'. unfold throughSubLoop.
  destruct (getSubLoopSuccessors F LI Succ s) as [[E Sp] s0].
  intros [H|(s1 & _ & H)]%andThen_false; revert H.
  - apply failing_forEach. intros SLE t t'.
    intros [H|(t1 & _ & H)]%andThen_false; [by eapply failing_addPath|done].
  - by apply failing_forEach.
Qed.

Lemma failing_body rec I : (∀ J, failing (rec J)) → failing (body rec I).
Proof.
  intros Hrec s s'. unfold loopDFS_body.
  assert (Hsub : ∀ B Succ t t', (if negb (count SubLoopBlocks Succ)
            then rec (front Succ) t
            else throughSubLoop F LI MaxNumPaths CurLoop Start SAH rec B Succ t)
           = Some (false, t') → analysisFailed t' = true).
  { intros B Succ t t'. destruct (negb _); [apply Hrec|].
    by apply failing_throughSubLoop. }
  destruct (pathContains (PathNodes s) (getParent I));
    [destruct (negb _); intros [= <-]; unfold analysisFailed; simpl;
     apply orb_true_r|].
  destruct (negb _).
  - intros [H|(s1 & _ & H)]%andThen_false; [|done]. revert H.
    destruct (hasEquivalencePoint F I) as [E|].
    + unfold atEquivalencePoint.
      intros [H|(s1 & _ & H)]%andThen_false; [by eapply failing_addPath|].
      revert H. destruct (negb (isTerminator F E)); [done|].
      apply failing_forEach. intros Succ t t'. unfold queueSuccessor.
      destruct (_ || _); [done|]. destruct (negb _); [done|].
      destruct (getSubLoopSuccessors F LI Succ t) as [[Es Sp] t0].
      by apply failing_forEach.
    + destruct (count Latches (getParent I)).
      * unfold atLatch.
        intros [H|(s1 & _ & H)]%andThen_false; [by eapply failing_addPath|].
        by destruct SAH.
      * apply failing_forEach. intros Succ t t'.
        destruct (negb (contains CurLoop Succ)); [done|]. apply Hsub.
  - intros [H|(s1 & _ & H)]%andThen_false; [|done]. revert H.
    apply failing_forEach. intros Succ t t'.
    destruct (_ || _); [done|]. apply Hsub.
Qed.

Lemma loopDFS_false depth I : failing (dfs depth I).
Proof.
  revert I. induction depth as [|depth IH]; intros I; simpl; [done|].
  by apply failing_body.
Qed.

(** A search that returns [true] leaves the node stack as it found it, and
    its effect on the state is a sequence of events. *)
Lemma loopDFS_traced depth I pn :
  valid F LI CurLoop I → wfPath SubLoopBlocks pn → tracedAt pn (dfs depth I).
Proof.
  revert I pn. induction depth as [|depth IH]; intros I pn HI Hwf; simpl.
  - by intros s s' _ ?.
  - apply body_traced; [|done|done]. intros J pn' HJ Hpn'. by apply IH.
Qed.

(** **** The recursion is never deeper than the number of blocks *)

Lemma free_push pn BB f :
  BB ∈ reachable LI CurLoop → BB ∉ map getBlock pn →
  (length (free (pn ++ [(BB, f)])) < length (free pn))%nat.
Proof.
  unfold free. generalize (reachable LI CurLoop) as U.
  intros U HU Hpn.
  assert (Hle : ∀ U', (length (filter (λ b, b ∉ map getBlock (pn ++ [(BB, f)])) U')
                 ≤ length (filter (λ b, b ∉ map getBlock pn) U'))%nat).
  { induction U' as [|x U' IH]; [done|].
    rewrite !filter_cons. repeat case_decide; simpl; try lia.
    exfalso. rewrite map_app, elem_of_app in *. naive_solver. }
  induction U as [|x U IH]; [inversion HU|].
  rewrite !filter_cons. apply elem_of_cons in HU as [<-|HU].
  - rewrite decide_False, decide_True by
      (try done; rewrite map_app, elem_of_app; simpl; intros H; apply H;
       right; by left).
    simpl. specialize (Hle U). lia.
  - specialize (IH HU). repeat case_decide; simpl; try lia.
    exfalso. rewrite map_app, elem_of_app in *. naive_solver.
Qed.

Lemma andThen_is_Some r k :
  is_Some r → (∀ s, r = Some (true, s) → is_Some (k s)) →
  is_Some (andThen r k).
Proof. intros [[[] s] ->] Hk; simpl; [by apply Hk|done]. Qed.

Lemma tracedAt_keepsNodes pn c : tracedAt pn c → keepsNodes pn c.
Proof. intros H s s' Hpn Hrun. by destruct (H s s' Hpn Hrun). Qed.

Lemma keepsNodes_forEach {A} pn (f : A → State → option (bool * State)) xs :
  (∀ x, x ∈ xs → keepsNodes pn (f x)) → keepsNodes pn (forEach f xs).
Proof.
  induction xs as [|x xs IH]; intros Hf s s' Hpn; simpl.
  - by intros [= <-].
  - destruct (f x s) as [[[] s1]|] eqn:Hx; [|done|done]. intros Hrest.
    pose proof (Hf x (ltac:(by left)) s s1 Hpn Hx) as Hpn1.
    apply (IH (λ y Hy, Hf y (ltac:(by right))) s1 s' Hpn1 Hrest).
Qed.

Lemma totalAt_forEach {A} pn (f : A → State → option (bool * State)) xs :
  (∀ x, x ∈ xs → totalAt pn (f x)) → (∀ x, x ∈ xs → keepsNodes pn (f x)) →
  totalAt pn (forEach f xs).
Proof.
  induction xs as [|x xs IH]; intros Hto Htr s Hpn; simpl; [done|].
  destruct (Hto x (ltac:(by left)) s Hpn) as [[[] s1] Hx]; rewrite Hx; [|done].
  pose proof (Htr x (ltac:(by left)) s s1 Hpn Hx) as Hpn1.
  apply IH; [| |done]; intros y Hy; [apply Hto|apply Htr]; by right.
Qed.

Lemma add_is_Some E eab s : is_Some (add E eab s).
Proof. unfold addPath. by destruct (_ <? _). Qed.

Section Returns.
Variable rec : Instruction → State → option (bool * State).
Variables (I : Instruction) (pn : list PathNode) (f : bool).
Hypothesis Hrec :
  ∀ J pn, valid F LI CurLoop J → wfPath SubLoopBlocks pn → tracedAt pn (rec J).
Hypothesis Htotal :
  ∀ J, valid F LI CurLoop J → totalAt (pn ++ [(getParent I, f)]) (rec J).
Hypothesis HI : valid F LI CurLoop I.
Hypothesis Hwf : wfPath SubLoopBlocks (pn ++ [(getParent I, f)]).

Local Abbreviation BB := (getParent I).
Local Abbreviation pn0 := (pn ++ [(getParent I, f)]).

Lemma throughSubLoop_total Succ :
  totalAt pn0 (throughSubLoop F LI MaxNumPaths CurLoop Start SAH rec BB Succ).
Proof.
  intros s Hpn. unfold throughSubLoop.
  destruct (getSubLoopSuccessors F LI Succ s) as [[E Sp] s0] eqn:Hsub.
  apply getSubLoopSuccessors_spec in Hsub as ((_ & Hpn0 & _) & HE & HSp).
  rewrite Hpn in Hpn0. rewrite Forall_forall in HSp.
  match goal with
  | |- is_Some (andThen (forEach ?g E s0) _) =>
      assert (Htr : ∀ SLE, keepsNodes pn0 (g SLE))
  end.
  { intros SLE t t' Ht Hrun.
    by apply andThen_true in Hrun as (t1 & [-> _]%addPath_true & [= <-]). }
  apply andThen_is_Some.
  - apply (totalAt_forEach pn0); [|by intros; apply Htr|done].
    intros SLE _ t Ht. apply andThen_is_Some; [apply add_is_Some|done].
  - intros s1 Hrun1.
    pose proof (keepsNodes_forEach pn0 _ E (λ x _, Htr x) s0 s1 Hpn0 Hrun1)
      as Hpn1.
    apply (totalAt_forEach pn0); [| |done].
    + intros SLE HSLE. apply Htotal. eapply exitOf_valid. by apply HSp.
    + intros SLE HSLE. apply tracedAt_keepsNodes, Hrec; [|done].
      eapply exitOf_valid. by apply HSp.
Qed.

Lemma throughSubLoop_keeps Succ :
  keepsNodes pn0
    (throughSubLoop F LI MaxNumPaths CurLoop Start SAH rec BB Succ).
Proof.
  intros s s' Hpn. unfold throughSubLoop.
  destruct (getSubLoopSuccessors F LI Succ s) as [[E Sp] s0] eqn:Hsub.
  apply getSubLoopSuccessors_spec in Hsub as ((_ & Hpn0 & _) & HE & HSp).
  rewrite Hpn in Hpn0. rewrite Forall_forall in HSp.
  intros (s1 & Hrun1 & Hrun2)%andThen_true.
  assert (Hpn1 : PathNodes s1 = pn0).
  { revert Hrun1. apply keepsNodes_forEach; [|done].
    intros SLE _ t t' Ht Hrun.
    by apply andThen_true in Hrun as (t1 & [-> _]%addPath_true & [= <-]). }
  revert Hrun2. apply keepsNodes_forEach; [|done].
  intros SLE HSLE. apply tracedAt_keepsNodes, Hrec; [|done].
  eapply exitOf_valid. by apply HSp.
Qed.

Lemma visitSuccessor_total Succ :
  contains CurLoop Succ = true →
  totalAt pn0 (λ s, if negb (count SubLoopBlocks Succ)
                    then rec (front Succ) s
                    else throughSubLoop F LI MaxNumPaths CurLoop Start SAH
                                        rec BB Succ s) ∧
  keepsNodes pn0 (λ s, if negb (count SubLoopBlocks Succ)
                       then rec (front Succ) s
                       else throughSubLoop F LI MaxNumPaths CurLoop Start SAH
                                           rec BB Succ s).
Proof.
  intros HC. destruct (negb _).
  - split; [by apply Htotal, valid_front, contains_reachable|].
    apply tracedAt_keepsNodes, Hrec; [|done].
    by apply valid_front, contains_reachable.
  - split; [apply throughSubLoop_total|apply throughSubLoop_keeps].
Qed.

Lemma queueSuccessor_total Succ :
  totalAt pn0 (queueSuccessor F LI CurLoop SubLoopBlocks rec Succ).
Proof.
  intros s Hpn. unfold queueSuccessor.
  destruct (_ || _); [done|]. destruct (negb _); [done|].
  destruct (getSubLoopSuccessors F LI Succ s) as [[E Sp] s0] eqn:Hsub.
  apply getSubLoopSuccessors_spec in Hsub as ((_ & Hpn0 & _) & HE & HSp).
  rewrite Hpn in Hpn0. rewrite Forall_forall in HSp.
  destruct (tracedAt_pushAll pn0 E (Forall_impl _ _ _ HE (exitOf_valid Succ))
              s0 Hpn0) as [Hpn1 _].
  apply (totalAt_forEach pn0); [| |done].
  - intros SLE HSLE. apply Htotal. eapply exitOf_valid. by apply HSp.
  - intros SLE HSLE. apply tracedAt_keepsNodes, Hrec; [|done].
    eapply exitOf_valid. by apply HSp.
Qed.

End Returns.

Lemma body_total rec I pn :
  (∀ J pn, valid F LI CurLoop J → wfPath SubLoopBlocks pn →
           tracedAt pn (rec J)) →
  (pathContains pn (getParent I) = false →
   ∀ J, valid F LI CurLoop J →
        totalAt (pn ++ [(getParent I, count SubLoopBlocks (getParent I))])
                (rec J)) →
  valid F LI CurLoop I → wfPath SubLoopBlocks pn →
  totalAt pn (body rec I).
Proof.
  intros Hrec Htotal HI Hwf s Hpn. unfold loopDFS_body. rewrite Hpn.
  destruct (pathContains pn (getParent I)) eqn:Hc; [by destruct (negb _)|].
  specialize (Htotal eq_refl).
  pose proof (wfPath_push _ _ _ Hwf Hc) as Hwf0.
  destruct (count SubLoopBlocks (getParent I)) eqn:HSub; simpl.
  - apply andThen_is_Some; [|done]. unfold outOfSubLoop.
    apply (totalAt_forEach (pn ++ [(getParent I, true)])); [| |done].
    + intros Succ _ t Ht. destruct (_ || _) eqn:Hskip; [done|].
      apply orb_false_iff in Hskip as [_ HC%negb_false_iff].
      by apply (visitSuccessor_total rec I pn true Hrec Htotal Hwf0 Succ HC).
    + intros Succ _ t t' Ht. destruct (_ || _) eqn:Hskip; [by intros [= <-]|].
      apply orb_false_iff in Hskip as [_ HC%negb_false_iff].
      by apply (visitSuccessor_total rec I pn true Hrec Htotal Hwf0 Succ HC).
  - apply andThen_is_Some; [|done].
    destruct (hasEquivalencePoint F I) as [E|] eqn:HE.
    + unfold atEquivalencePoint.
      apply andThen_is_Some; [apply add_is_Some|].
      intros s1 [-> _]%addPath_true.
      destruct (negb (isTerminator F E)); [done|].
      apply (totalAt_forEach (pn ++ [(getParent I, false)])); [| |done].
      * intros Succ _. by apply queueSuccessor_total.
      * intros Succ _. by apply tracedAt_keepsNodes, queueSuccessor_traced.
    + destruct (count Latches (getParent I)).
      * unfold atLatch. apply andThen_is_Some; [apply add_is_Some|].
        intros s1 _. by destruct SAH.
      * unfold intoSuccessors.
        apply (totalAt_forEach (pn ++ [(getParent I, false)])); [| |done].
        -- intros Succ _ t Ht.
           destruct (negb (contains CurLoop Succ)) eqn:HC; [done|].
           apply negb_false_iff in HC.
           by apply (visitSuccessor_total rec I pn false Hrec Htotal Hwf0
                                          Succ HC).
        -- intros Succ _ t t' Ht.
           destruct (negb (contains CurLoop Succ)) eqn:HC; [by intros [= <-]|].
           apply negb_false_iff in HC.
           by apply (visitSuccessor_total rec I pn false Hrec Htotal Hwf0
                                          Succ HC).
Qed.

(** A search whose recursion may go as deep as there are blocks it has not
    entered returns. *)
Lemma loopDFS_total depth I pn :
  valid F LI CurLoop I → wfPath SubLoopBlocks pn →
  (length (free pn) < depth)%nat →
  totalAt pn (dfs depth I).
Proof.
  revert I pn. induction depth as [|depth IH]; intros I pn HI Hwf Hd; [lia|].
  simpl. apply body_total; try done.
  - intros J pn' HJ Hpn'. by apply loopDFS_traced.
  - intros Hc J HJ. apply IH; [done|by apply wfPath_push|].
    pose proof (free_push pn (getParent I)
                  (count SubLoopBlocks (getParent I))) as Hlt.
    apply pathContains_false in Hc. destruct HI as [_ HI].
    specialize (Hlt HI Hc). lia.
Qed.

Lemma insertNodes_NoDup (l acc : list PathNode) :
  NoDup (acc ++ l) → fold_left insertNode l acc = acc ++ l.
Proof.
  revert acc. induction l as [|n l IH]; intros acc Hnd; simpl.
  - by rewrite app_nil_r.
  - unfold insertNode at 2. rewrite bool_decide_eq_false_2.
    + rewrite IH; rewrite <- app_assoc; done.
    + apply NoDup_app in Hnd as (_ & Hd & _). intros Hin.
      apply (Hd _ Hin). by left.
Qed.

Lemma Nodes_new pn St E sah eab :
  wfPath SubLoopBlocks pn → Nodes (LoopPath_new pn St E sah eab) = pn.
Proof.
  intros [Hnd _]. unfold LoopPath_new. simpl.
  apply (insertNodes_NoDup pn []). simpl.
  by apply (NoDup_fmap_1 getBlock).
Qed.

Section Summaries.
Variable Q : LoopPath → Prop.

Lemma summary_mark fl fl' ps p0 :
  summary SubLoopBlocks Q fl ps → Q p0 →
  (∀ b, count SubLoopBlocks b = false → fl' b = pathThrough p0 b || fl b) →
  summary SubLoopBlocks Q fl' (ps ++ [p0]).
Proof.
  intros Hs HQ Hfl b Hb. rewrite Hfl by done. rewrite orb_true_iff, (Hs b Hb).
  split.
  - intros [H|(p & Hp & ?)].
    + exists p0. split; [|done]. apply elem_of_app. right. by left.
    + exists p. split; [|done]. apply elem_of_app. by left.
  - intros (p & [Hp|Hp]%elem_of_app & Hb' & HQ').
    + right. by exists p.
    + apply list_elem_of_singleton in Hp as ->. by left.
Qed.

Lemma summary_skip fl fl' ps p0 :
  summary SubLoopBlocks Q fl ps → ¬ Q p0 →
  (∀ b, fl' b = fl b) →
  summary SubLoopBlocks Q fl' (ps ++ [p0]).
Proof.
  intros Hs HQ Hfl b Hb. rewrite Hfl, (Hs b Hb). split.
  - intros (p & Hp & ?). exists p. split; [|done]. apply elem_of_app. by left.
  - intros (p & [Hp|Hp]%elem_of_app & Hb' & HQ').
    + by exists p.
    + apply list_elem_of_singleton in Hp as ->. done.
Qed.

Lemma summary_same fl fl' ps :
  summary SubLoopBlocks Q fl ps → (∀ b, fl' b = fl b) →
  summary SubLoopBlocks Q fl' ps.
Proof. intros Hs Hfl b Hb. rewrite Hfl. by apply Hs. Qed.

End Summaries.

Lemma flag_markPath_CurLoop m pn St E sah eab b :
  wfPath SubLoopBlocks pn → count SubLoopBlocks b = false →
  flag (markPath CurLoop SubLoopBlocks m pn) (loopId CurLoop) b =
  pathThrough (LoopPath_new pn St E sah eab) b || flag m (loopId CurLoop) b.
Proof.
  intros Hwf Hb. rewrite flag_markPath. f_equal.
  unfold pathThrough, count. rewrite Nodes_new by done.
  apply bool_decide_ext. naive_solver.
Qed.

Lemma pushIfNotPresent_Forall (P : Instruction → Prop) I l :
  P I → Forall P l → Forall P (pushIfNotPresent I l).
Proof.
  intros HI Hl. unfold pushIfNotPresent. destruct (bool_decide _); [done|].
  apply Forall_app. split; [done|]. by constructor.
Qed.

Lemma Paths_emplace_back St sah E eab s :
  Paths (emplace_back CurLoop St sah E eab s) =
  <[loopId CurLoop :=
      CurPaths CurLoop s ++
        [LoopPath_new (PathNodes s) St E sah eab]]> (Paths s).
Proof. done. Qed.

Lemma CurPaths_emplace_back St sah E eab s :
  CurPaths CurLoop (emplace_back CurLoop St sah E eab s) =
  CurPaths CurLoop s ++ [LoopPath_new (PathNodes s) St E sah eab].
Proof. unfold CurPaths at 1. simpl. by rewrite lookup_insert_eq. Qed.

Lemma CurPaths_setHasSpPath m s :
  CurPaths CurLoop (setHasSpPath m s) = CurPaths CurLoop s.
Proof. done. Qed.

Lemma CurPaths_setHasEqPointPath m s :
  CurPaths CurLoop (setHasEqPointPath m s) = CurPaths CurLoop s.
Proof. done. Qed.

Lemma CurPaths_pushNew I s :
  CurPaths CurLoop (pushNew I s) = CurPaths CurLoop s.
Proof. done. Qed.

Ltac curPaths :=
  rewrite ?CurPaths_setHasSpPath, ?CurPaths_setHasEqPointPath,
          ?CurPaths_pushNew, ?CurPaths_emplace_back.

(** The effect of an event on what it does not record. *)
Lemma event_frame s s' :
  ev s s' →
  TooManyPaths s' = TooManyPaths s ∧ DetectedCycle s' = DetectedCycle s ∧
  (∀ k, k ≠ loopId CurLoop → Paths s' !! k = Paths s !! k) ∧
  (∀ k, is_Some (Paths s !! k) → is_Some (Paths s' !! k)) ∧
  (Forall (valid F LI CurLoop) (NewPaths s) → Forall (valid F LI CurLoop) (NewPaths s')).
Proof.
  assert (Hadd : ∀ E eab t t1, add E eab t = Some (true, t1) →
    TooManyPaths t1 = TooManyPaths t ∧ DetectedCycle t1 = DetectedCycle t ∧
    (∀ k, k ≠ loopId CurLoop → Paths t1 !! k = Paths t !! k) ∧
    (∀ k, is_Some (Paths t !! k) → is_Some (Paths t1 !! k)) ∧
    NewPaths t1 = NewPaths t).
  { intros E eab t t1 [-> _]%addPath_true. split_and!; try done.
    - intros k Hk. rewrite Paths_emplace_back. by rewrite lookup_insert_ne.
    - intros k Hk. rewrite Paths_emplace_back.
      destruct (decide (loopId CurLoop = k)) as [<-|Hne].
      + rewrite lookup_insert_eq. eauto.
      + by rewrite lookup_insert_ne. }
  destruct 1 as [s pn|s s1 I E pn _ _ _ H|s s1 I pn _ _ _ _ H
                |s s1 I pn f Succ SLE _ _ _ _ _ _ _ HSLE H|s I HI|s Succ].
  - done.
  - apply Hadd in H as (? & ? & ? & ? & HN). simpl. by rewrite HN.
  - apply Hadd in H as (? & ? & ? & ? & HN). destruct SAH; simpl; by rewrite HN.
  - apply Hadd in H as (? & ? & ? & ? & HN). simpl. rewrite HN.
    split_and!; try done. by apply pushIfNotPresent_Forall.
  - simpl. split_and!; try done. by apply pushIfNotPresent_Forall.
  - destruct (getSubLoopSuccessors F LI Succ s) as [[Es Sp] s0] eqn:Hs.
    apply getSubLoopSuccessors_spec in Hs as ((HP & _ & HN & ? & ? & _) & _).
    simpl. rewrite HP, HN. done.
Qed.

Local Abbreviation good := (goodPath F CurLoop Latches SubLoopBlocks).

(** A path recorded by an event is one of the three kinds. *)
Lemma event_goodPath s s' :
  ev s s' → Forall good (CurPaths CurLoop s) → Forall good (CurPaths CurLoop s').
Proof.
  assert (Hnew : ∀ t t1 E eab pn BB f,
    add E eab t = Some (true, t1) → PathNodes t = pn ++ [(BB, f)] →
    wfPath SubLoopBlocks (PathNodes t) →
    (let p := LoopPath_new (PathNodes t) Start E SAH eab in
     endsAtLatch F Latches p BB f ∨ endsAtEqPoint F p BB f ∨
     endsBeforeSubLoop F CurLoop SubLoopBlocks p BB f) →
    Forall good (CurPaths CurLoop t) → Forall good (CurPaths CurLoop t1)).
  { intros t t1 E eab pn BB f [-> _]%addPath_true Hpn Hwf Hend Hall.
    rewrite CurPaths_emplace_back. apply Forall_app. split; [done|].
    constructor; [|done]. unfold goodPath. rewrite Nodes_new by done.
    split_and!.
    - rewrite Hpn. by destruct pn.
    - apply Hwf.
    - exists BB, f. split; [|done]. rewrite Hpn. apply last_snoc. }
  destruct 1 as [s pn|s s1 I E pn Hpn Hwf HE H|s s1 I pn Hpn Hwf HE HL H
                |s s1 I pn f Succ SLE Hpn Hwf HI Hf HS HC HSub HSLE H
                |s I HI|s Succ]; intros Hall.
  - done.
  - eapply (Hnew s s1) in H; try done.
    right; left. apply hasEquivalencePoint_Some in HE as (? & _ & _ & ?).
    by split_and!.
  - eapply (Hnew s s1) in H; try done; [by destruct SAH|].
    left. by split_and!.
  - eapply (Hnew s s1) in H; try done.
    right; right. split_and!; [done|done| |by exists Succ].
    intros ->. simpl. eapply hasEquivalencePoint_None; [by apply Hf|done|].
    apply HI.
  - done.
  - destruct (getSubLoopSuccessors F LI Succ s) as [[Es Sp] s0] eqn:Hs.
    apply getSubLoopSuccessors_spec in Hs as ((HP & _) & _).
    unfold CurPaths in *. simpl. by rewrite HP.
Qed.

(** **** The starts queued behind an equivalence point that ends a block *)

Lemma event_NewPaths s s' : ev s s' → NewPaths s ⊆ NewPaths s'.
Proof.
  assert (Hpush : ∀ I l, l ⊆ pushIfNotPresent I l).
  { intros I l. unfold pushIfNotPresent. destruct (bool_decide _); [done|].
    intros x Hx. apply elem_of_app. by left. }
  destruct 1 as [s pn|s s1 I E pn _ _ _ H|s s1 I pn _ _ _ _ H
                |s s1 I pn f Succ SLE _ _ _ _ _ _ _ _ H|s I HI|s Succ].
  - done.
  - by apply addPath_true in H as [-> _].
  - apply addPath_true in H as [-> _]. by destruct SAH.
  - apply addPath_true in H as [-> _]. simpl. apply Hpush.
  - simpl. apply Hpush.
  - destruct (getSubLoopSuccessors F LI Succ s) as [[Es Sp] s0] eqn:Hs.
    apply getSubLoopSuccessors_spec in Hs as ((_ & _ & HN & _) & _).
    simpl. by rewrite HN.
Qed.

Lemma events_NewPaths s s' : rtc ev s s' → NewPaths s ⊆ NewPaths s'.
Proof.
  induction 1 as [|s s1 s' H _ IH]; [done|].
  etrans; [by apply event_NewPaths|done].
Qed.

Lemma pushIfNotPresent_elem I l : I ∈ pushIfNotPresent I l.
Proof.
  unfold pushIfNotPresent. destruct (bool_decide _) eqn:H.
  - by apply bool_decide_eq_true in H.
  - apply elem_of_app. right. by left.
Qed.

Lemma queueSuccessors_elem rec pn0 xs t t' Succ :
  (∀ x, tracedAt pn0 (queueSuccessor F LI CurLoop SubLoopBlocks rec x)) →
  PathNodes t = pn0 →
  forEach (queueSuccessor F LI CurLoop SubLoopBlocks rec) xs t
    = Some (true, t') →
  Succ ∈ xs → contains CurLoop Succ = true → Succ ≠ getHeader CurLoop →
  count SubLoopBlocks Succ = false →
  front Succ ∈ NewPaths t'.
Proof.
  intros Htr. revert t. induction xs as [|x xs IH]; intros t Ht Hrun Hin HC HH HS.
  - inversion Hin.
  - simpl in Hrun.
    destruct (queueSuccessor F LI CurLoop SubLoopBlocks rec x t)
      as [[[] t1]|] eqn:Hx; [|done|done].
    destruct (Htr x t t1 Ht Hx) as [Ht1 _].
    apply elem_of_cons in Hin as [<-|Hin]; [|by eapply IH].
    destruct (tracedAt_forEach pn0 _ xs (λ y _, Htr y) t1 t' Ht1 Hrun)
      as [_ Hev%events_NewPaths].
    apply Hev. unfold queueSuccessor in Hx. rewrite HC, HS in Hx.
    simpl in Hx. apply Nat.eqb_neq in HH. rewrite HH in Hx.
    injection Hx as <-. simpl. apply pushIfNotPresent_elem.
Qed.

Lemma queueSuccessors_exact rec xs t :
  (∀ Succ, Succ ∈ xs → contains CurLoop Succ = true →
           Succ ≠ getHeader CurLoop → count SubLoopBlocks Succ = false) →
  ∃ t', forEach (queueSuccessor F LI CurLoop SubLoopBlocks rec) xs t
          = Some (true, t') ∧
        NewPaths t' =
          fold_left (λ l Succ, pushIfNotPresent (front Succ) l)
            (filter (λ Succ, contains CurLoop Succ = true ∧
                             Succ ≠ getHeader CurLoop) xs)
            (NewPaths t).
Proof.
  revert t. induction xs as [|x xs IH]; intros t Hno; simpl.
  - by exists t.
  - assert (Hno' : ∀ Succ, Succ ∈ xs → contains CurLoop Succ = true →
             Succ ≠ getHeader CurLoop → count SubLoopBlocks Succ = false)
      by (intros; apply Hno; [by right|done|done]).
    unfold queueSuccessor at 1.
    destruct (contains CurLoop x) eqn:HC; simpl.
    + destruct (x =? getHeader CurLoop) eqn:HH.
      * apply Nat.eqb_eq in HH.
        rewrite filter_cons_False by (by intros [_ ?]). by apply IH.
      * apply Nat.eqb_neq in HH. rewrite filter_cons_True by done.
        rewrite (Hno x) by (done || by left). simpl.
        destruct (IH (pushNew (front x) t) Hno') as (t' & Hrun & HN).
        by exists t'.
    + rewrite filter_cons_False by (intros [? _]; congruence). by apply IH.
Qed.

(** C4 (as amended).  Where an activation of [loopDFS] finds an equivalence
    point that is the terminator of its block [BB] (a block of the loop
    itself): after a search that returns [true], the first instruction of
    every successor of [BB] inside the loop that is neither the header nor a
    block of a sub-loop is in the work list, latches included; and when no
    successor of [BB] lies in a sub-loop, the search returns [true] (given
    that [BB] is not on the path and the ceiling is not reached) and the
    work list is exactly the old one followed by these first instructions,
    each added unless it is present already. *)
Theorem loopDFS_queues depth I E s :
  count SubLoopBlocks (getParent I) = false →
  hasEquivalencePoint F I = Some E →
  isTerminator F E = true →
  (∀ s' Succ,
     valid F LI CurLoop I → wfPath SubLoopBlocks (PathNodes s) →
     dfs depth I s = Some (true, s') →
     Succ ∈ successors F (getParent I) → contains CurLoop Succ = true →
     Succ ≠ getHeader CurLoop → count SubLoopBlocks Succ = false →
     front Succ ∈ NewPaths s') ∧
  (pathContains (PathNodes s) (getParent I) = false →
   length (CurPaths CurLoop s) < MaxNumPaths →
   (∀ Succ, Succ ∈ successors F (getParent I) → contains CurLoop Succ = true →
            Succ ≠ getHeader CurLoop → count SubLoopBlocks Succ = false) →
   ∃ s', dfs (S depth) I s = Some (true, s') ∧
         NewPaths s' = queuedStarts F CurLoop (getParent I) (NewPaths s)).
Proof.
  intros HSub HE HT. split.
  - intros s' Succ HI Hwf Hrun Hin HC HH HS.
    destruct depth as [|depth]; [done|]. simpl in Hrun.
    unfold loopDFS_body in Hrun. rewrite HSub, HE in Hrun. simpl in Hrun.
    destruct (pathContains (PathNodes s) (getParent I)) eqn:Hc; [done|].
    apply andThen_true in Hrun as (s2 & Hrun & [= <-]).
    unfold atEquivalencePoint in Hrun.
    apply andThen_true in Hrun as (s1 & Hadd & Hrun).
    rewrite HT in Hrun. simpl in Hrun. simpl.
    pose proof (wfPath_push _ _ _ Hwf Hc) as Hwf0. rewrite HSub in Hwf0.
    eapply (queueSuccessors_elem (dfs depth)
              (PathNodes s ++ [(getParent I, false)])); try done.
    + intros x. apply queueSuccessor_traced; [|done].
      intros J pn' HJ Hpn'. by apply loopDFS_traced.
    + by apply addPath_true in Hadd as [-> _].
  - intros Hc Hlen Hno. simpl. unfold loopDFS_body.
    rewrite HSub, HE, Hc. simpl. unfold atEquivalencePoint, addPath.
    rewrite CurPaths_emplace_back, length_app. simpl.
    change (CurPaths CurLoop (setPathNodes ?pn s)) with (CurPaths CurLoop s).
    replace (MaxNumPaths <? length (CurPaths CurLoop s) + 1) with false
      by (symmetry; apply Nat.ltb_ge; lia).
    simpl. rewrite HT. simpl.
    match goal with
    | |- ∃ s', andThen (forEach _ _ ?t) _ = _ ∧ _ =>
        destruct (queueSuccessors_exact (dfs depth)
                    (successors F (getParent I)) t Hno) as (t' & Hrun & HN)
    end.
    rewrite Hrun. simpl. eexists. split; [reflexivity|]. simpl. by rewrite HN.
Qed.

(** The three path-recording events on the two summaries. *)
Lemma event_spanningSummary s s' :
  ev s s' → spanningSummary CurLoop SubLoopBlocks s →
  spanningSummary CurLoop SubLoopBlocks s'.
Proof.
  unfold spanningSummary.
  destruct 1 as [s pn|s s1 I E pn Hpn Hwf HE H|s s1 I pn Hpn Hwf HE HL H
                |s s1 I pn f Succ SLE Hpn Hwf HI Hf HS HC HSub HSLE H
                |s I HI|s Succ]; intros Hall.
  - done.
  - apply addPath_true in H as [-> _]. simpl.
    curPaths. eapply summary_skip; [done| |done].
    simpl. by intros [_ ?].
  - apply addPath_true in H as [-> _]. destruct SAH; simpl.
    + curPaths. eapply summary_mark; [done|done|].
      intros b Hb. by apply flag_markPath_CurLoop.
    + curPaths. eapply summary_skip; [done| |done].
      simpl. by intros [? _].
  - apply addPath_true in H as [-> _]. simpl.
    curPaths. eapply summary_skip; [done| |done].
    simpl. by intros [_ ?].
  - done.
  - destruct (getSubLoopSuccessors F LI Succ s) as [[Es Sp] s0] eqn:Hs.
    apply getSubLoopSuccessors_spec
      in Hs as ((HP & _ & _ & _ & _ & Hfl & _) & _).
    unfold CurPaths in *. simpl. rewrite HP.
    eapply summary_same; [done|]. intros b. apply Hfl.
Qed.

Lemma event_eqPointSummary s s' :
  ev s s' → eqPointSummary F CurLoop SubLoopBlocks s →
  eqPointSummary F CurLoop SubLoopBlocks s'.
Proof.
  unfold eqPointSummary.
  destruct 1 as [s pn|s s1 I E pn Hpn Hwf HE H|s s1 I pn Hpn Hwf HE HL H
                |s s1 I pn f Succ SLE Hpn Hwf HI Hf HS HC HSub HSLE H
                |s I HI|s Succ]; intros Hall.
  - done.
  - apply addPath_true in H as [-> _]. simpl.
    curPaths. eapply summary_mark; [done| |].
    + left. unfold recordedAtEqPoint. rewrite Nodes_new by done. simpl.
      apply hasEquivalencePoint_Some in HE as (_ & _ & _ & ?).
      split_and!; [done|done|]. exists (getParent I). rewrite Hpn.
      apply last_snoc.
    + intros b Hb. by apply flag_markPath_CurLoop.
  - apply addPath_true in H as [-> _]. destruct SAH; simpl.
    + curPaths. eapply summary_skip; [done| |done].
      unfold recordedAtEqPoint, pointToBackedge. simpl. naive_solver.
    + curPaths. eapply summary_mark; [done| |].
      * by right.
      * intros b Hb. by apply flag_markPath_CurLoop.
  - apply addPath_true in H as [-> _]. simpl.
    curPaths. eapply summary_skip; [done| |done].
    unfold recordedAtEqPoint, pointToBackedge. rewrite Nodes_new by done.
    simpl. intros [(_ & Heq & BB & Hlast)|[_ ?]]; [|done].
    rewrite Hpn, last_snoc in Hlast. injection Hlast as <- ->.
    rewrite (hasEquivalencePoint_None F I) in Heq; [done|by apply Hf|done|].
    apply HI.
  - done.
  - destruct (getSubLoopSuccessors F LI Succ s) as [[Es Sp] s0] eqn:Hs.
    apply getSubLoopSuccessors_spec
      in Hs as ((HP & _ & _ & _ & _ & _ & Hfl) & _).
    unfold CurPaths in *. simpl. rewrite HP.
    eapply summary_same; [done|]. intros b. apply Hfl.
Qed.

End SearchFacts.

(** *** The analysis of one loop as a sequence of steps *)

Section AnalysisFacts.
Variable F : Function.
Variable LI : list Loop.
Variable MaxNumPaths : nat.

#[local] Arguments loopDFS : simpl never.

Local Abbreviation step := (step F LI MaxNumPaths).
Local Abbreviation frame := (frame F LI).
Local Abbreviation outcomeOf := (outcomeOf F LI MaxNumPaths).

Lemma step_frame L s s' : step L s s' → frame L s s'.
Proof.
  destruct 1 as [Start SAH s s' H|s I rest H].
  - by eapply event_frame.
  - unfold frame. simpl. split_and!; try done.
    rewrite H. by inversion 1.
Qed.

Lemma steps_frame L s s' : rtc (step L) s s' → frame L s s'.
Proof.
  induction 1 as [s|s s1 s' H _ IH].
  - by repeat split.
  - apply step_frame in H. unfold frame in *.
    destruct H as (H1 & H2 & H3 & H4 & H5), IH as (I1 & I2 & I3 & I4 & I5).
    split_and!.
    + by rewrite I1.
    + by rewrite I2.
    + intros k Hk. by rewrite I3, H3.
    + eauto.
    + eauto.
Qed.

Lemma events_steps L Start SAH s s' :
  rtc (event F LI MaxNumPaths L (getLoopLatches F L) (getSubBlocks L)
             Start SAH) s s' →
  rtc (step L) s s'.
Proof.
  induction 1 as [|s s1 s' H _ IH]; [done|].
  eapply rtc_l; [|exact IH]. by econstructor.
Qed.

Lemma outcomeOf_steps L s0 s r :
  rtc (step L) s0 s → outcomeOf L s r → outcomeOf L s0 r.
Proof.
  intros H0. destruct r as [[] s'|s']; simpl; [|done|].
  - intros (? & ? & ?). split_and!; [by etrans|done|done].
  - intros. by etrans.
Qed.

Lemma drain_outcome L n s :
  PathNodes s = [] → Forall (valid F LI L) (NewPaths s) →
  outcomeOf L s (drain F LI MaxNumPaths L (getLoopLatches F L)
                       (getSubBlocks L) n s).
Proof.
  revert s. induction n as [|n IH]; intros s Hpn Hval; simpl.
  - destruct (NewPaths s) eqn:HN; simpl; [done|done].
  - destruct (NewPaths s) as [|I rest] eqn:HN; simpl; [done|].
    destruct (loopDFS _ _ _ _ _ _ _ _ _ _ _) as [[[] s1]|] eqn:Hdfs;
      [| |simpl; done].
    + apply loopDFS_traced with (pn := []) in Hdfs as [Hpn1 Hev];
        [|by inversion Hval|apply wfPath_nil|done].
      apply events_steps in Hev.
      assert (Hst : rtc (step L) s s1).
      { eapply rtc_l; [|exact Hev]. by eapply step_dequeue. }
      eapply outcomeOf_steps; [exact Hst|]. apply IH; [done|].
      apply steps_frame in Hst as (_ & _ & _ & _ & Hv). apply Hv.
      by rewrite HN.
    + simpl. by eapply loopDFS_false.
Qed.

Lemma analyzeLoop_outcome n L s :
  outcomeOf L (clearLoop L s) (analyzeLoop F LI MaxNumPaths n L s).
Proof.
  unfold analyzeLoop.
  destruct (loopDFS _ _ _ _ _ _ _ _ _ _ _) as [[[] s1]|] eqn:Hdfs;
    [| |simpl; done].
  - apply loopDFS_traced with (pn := []) in Hdfs as [Hpn1 Hev];
      [|apply valid_front; by left|apply wfPath_nil|done].
    apply events_steps in Hev.
    eapply outcomeOf_steps; [exact Hev|]. apply drain_outcome; [done|].
    apply steps_frame in Hev as (_ & _ & _ & _ & Hv). by apply Hv.
  - simpl. by eapply loopDFS_false.
Qed.

(** The searches of [analyzeLoop] return: the recursion of [loopDFS] never
    uses up the depth [depthOf] it is given. *)
Lemma loopDFS_returns L Start SAH I s :
  valid F LI L I → PathNodes s = [] →
  is_Some (loopDFS F LI MaxNumPaths L (getLoopLatches F L) (getSubBlocks L)
                   Start SAH (depthOf LI L) I s).
Proof.
  intros HI Hpn.
  apply (loopDFS_total F LI MaxNumPaths L _ _ Start SAH _ I []);
    [done|apply wfPath_nil| |done].
  unfold free, depthOf. pose proof (length_filter
    (λ b, b ∉ map getBlock (@nil PathNode)) (reachable LI L)). lia.
Qed.

(** Only the budget of the [while] loop can run out. *)
Lemma drain_unfinished L n s s' :
  PathNodes s = [] → Forall (valid F LI L) (NewPaths s) →
  drain F LI MaxNumPaths L (getLoopLatches F L) (getSubBlocks L) n s
    = Unfinished s' →
  NewPaths s' ≠ [].
Proof.
  revert s. induction n as [|n IH]; intros s Hpn Hval; simpl.
  - destruct (NewPaths s) eqn:HN; [done|]. intros [= <-]. by rewrite HN.
  - destruct (NewPaths s) as [|I rest] eqn:HN; [done|].
    assert (HI : valid F LI L I) by by inversion Hval.
    destruct (loopDFS_returns L I false I (setNewPaths rest s) HI Hpn)
      as [[ok s1] Hdfs].
    rewrite Hdfs. destruct ok; [|done].
    apply loopDFS_traced with (pn := []) in Hdfs as [Hpn1 Hev];
      [|done|apply wfPath_nil|done].
    apply IH; [done|].
    apply events_steps, steps_frame in Hev as (_ & _ & _ & _ & Hv).
    apply Hv. simpl. by inversion Hval.
Qed.

Lemma analyzeLoop_unfinished n L s s' :
  analyzeLoop F LI MaxNumPaths n L s = Unfinished s' → NewPaths s' ≠ [].
Proof.
  unfold analyzeLoop.
  destruct (loopDFS_returns L (front (getHeader L)) true (front (getHeader L))
              (clearLoop L s)) as [[ok s1] Hdfs];
    [apply valid_front; by left|done|].
  rewrite Hdfs. destruct ok; [|done].
  apply loopDFS_traced with (pn := []) in Hdfs as [Hpn1 Hev];
    [|apply valid_front; by left|apply wfPath_nil|done].
  apply drain_unfinished; [done|].
  apply events_steps, steps_frame in Hev as (_ & _ & _ & _ & Hv).
  by apply Hv.
Qed.

Lemma steps_invariant L (Inv : State → Prop) s s' :
  (∀ Start SAH t t',
     event F LI MaxNumPaths L (getLoopLatches F L) (getSubBlocks L)
           Start SAH t t' → Inv t → Inv t') →
  (∀ t l, Inv t → Inv (setNewPaths l t)) →
  rtc (step L) s s' → Inv s → Inv s'.
Proof.
  intros Hev Hdq. induction 1 as [|s s1 s' H _ IH]; [done|].
  intros Hs. apply IH. destruct H as [Start SAH s s1 H|s I rest H].
  - by eapply Hev.
  - by apply Hdq.
Qed.

Lemma analyzeLoop_steps n L s s' :
  analyzeLoop F LI MaxNumPaths n L s = Returned true s' →
  rtc (step L) (clearLoop L s) s'.
Proof.
  intros H. pose proof (analyzeLoop_outcome n L s) as Ho.
  rewrite H in Ho. apply Ho.
Qed.

Lemma CurPaths_clearLoop L s : CurPaths L (clearLoop L s) = [].
Proof. unfold CurPaths. simpl. by rewrite lookup_insert_eq. Qed.

Lemma flag_clear (m : gmap nat (gmap BasicBlock bool)) l b :
  flag (<[l := ∅]> m) l b = false.
Proof. unfold flag. by rewrite lookup_insert_eq. Qed.

(** C2 (as amended).  Every path stored by a successful analysis of a loop
    has at least one node and no block twice, and it ends in one of three
    ways: at the back-edge of a latch (with [endsAtBackedge]), at an
    equivalence point of its last block (without), or, without
    [endsAtBackedge] either, at the terminator of a block that has a
    successor inside a sub-loop of the loop. *)
Theorem analyzeLoop_goodPaths n L s s' p :
  analyzeLoop F LI MaxNumPaths n L s = Returned true s' →
  p ∈ CurPaths L s' →
  goodPath F L (getLoopLatches F L) (getSubBlocks L) p.
Proof.
  intros Hrun%analyzeLoop_steps Hp.
  assert (Hall : Forall (goodPath F L (getLoopLatches F L) (getSubBlocks L))
                        (CurPaths L s')).
  { apply (steps_invariant L
             (λ t, Forall (goodPath F L (getLoopLatches F L) (getSubBlocks L))
                          (CurPaths L t)) _ _
             (λ Start SAH t t', event_goodPath F LI MaxNumPaths L _ _
                                               Start SAH t t')
             (λ t l H, H) Hrun).
    by rewrite CurPaths_clearLoop. }
  rewrite Forall_forall in Hall. by apply Hall.
Qed.

(** C3 (as amended).  After a successful analysis of a loop, for a block
    outside of its sub-loops: [HasSpPath] is set exactly when a stored path
    from the header to a back-edge passes through the block; [HasEqPointPath]
    is set exactly when a stored path through the block was recorded at an
    equivalence point of its last block, or runs from an equivalence point
    to a back-edge. *)
Theorem analyzeLoop_summaries n L s s' b :
  analyzeLoop F LI MaxNumPaths n L s = Returned true s' →
  count (getSubBlocks L) b = false →
  (flag (HasSpPath s') (loopId L) b = true ↔
   ∃ p, p ∈ CurPaths L s' ∧ pathThrough p b = true ∧
        startsAtHeader p = true ∧ endsAtBackedge p = true) ∧
  (flag (HasEqPointPath s') (loopId L) b = true ↔
   ∃ p, p ∈ CurPaths L s' ∧ pathThrough p b = true ∧
        (recordedAtEqPoint F p ∨ pointToBackedge p)).
Proof.
  intros Hrun%analyzeLoop_steps Hb.
  assert (Hsp : spanningSummary L (getSubBlocks L) s').
  { apply (steps_invariant L (spanningSummary L (getSubBlocks L)) _ _
             (λ Start SAH t t', event_spanningSummary F LI MaxNumPaths L _ _
                                                      Start SAH t t')
             (λ t l H, H) Hrun).
    unfold spanningSummary. rewrite CurPaths_clearLoop. intros b' _.
    simpl. rewrite flag_clear. split; [done|].
    intros (p & Hp & _). inversion Hp. }
  assert (Heq : eqPointSummary F L (getSubBlocks L) s').
  { apply (steps_invariant L (eqPointSummary F L (getSubBlocks L)) _ _
             (λ Start SAH t t', event_eqPointSummary F LI MaxNumPaths L _ _
                                                     Start SAH t t')
             (λ t l H, H) Hrun).
    unfold eqPointSummary. rewrite CurPaths_clearLoop. intros b' _.
    simpl. rewrite flag_clear. split; [done|].
    intros (p & Hp & _). inversion Hp. }
  split; [by apply Hsp|by apply Heq].
Qed.

Lemma steps_kept L s s' :
  rtc (step L) (clearLoop L s) s' →
  kept s s' ∧ is_Some (Paths s' !! loopId L).
Proof.
  intros (H1 & H2 & _ & H4 & _)%steps_frame. unfold kept, analysisFailed.
  rewrite H1, H2. simpl in *. split_and!; [done| |].
  - intros k Hk. apply H4. destruct (decide (loopId L = k)) as [<-|Hne].
    + rewrite lookup_insert_eq. eauto.
    + by rewrite lookup_insert_ne.
  - apply H4. rewrite lookup_insert_eq. eauto.
Qed.

Lemma analyzeLoop_kept n L s :
  match analyzeLoop F LI MaxNumPaths n L s with
  | Returned true s' => kept s s' ∧ is_Some (Paths s' !! loopId L)
  | Returned false s' => analysisFailed s' = true
  | Unfinished s' => kept s s'
  end.
Proof.
  pose proof (analyzeLoop_outcome n L s) as H.
  destruct (analyzeLoop F LI MaxNumPaths n L s) as [[] s'|s']; simpl in H.
  - destruct H as (H & _). by apply steps_kept.
  - done.
  - by apply steps_kept in H as [? _].
Qed.

Variable LoopNestOrder : list Loop → list Loop.




End AnalysisFacts.


Lemma analyzeLoop_goodPaths_witness :
  goodPath nestedF outerL (getLoopLatches nestedF outerL) (getSubBlocks outerL)
           nestedCut.
Proof.
  apply (analyzeLoop_goodPaths nestedF [outerL] 10000 8 outerL
                               nestedInnerDone nestedOuterDone).
  - vm_compute. reflexivity.
  - vm_compute. left.
Defined.

(** C2 as the specification states it fails: after the inner loop of
    [nestedF] has been analysed, the analysis of the outer loop succeeds and
    stores a path that ends, without [endsAtBackedge], in the header, which
    is no latch and holds no equivalence point. *)
Lemma pathAsSpecified_counterexample :
  analyzeLoop nestedF [outerL] 10000 8 innerL initial
    = Returned true nestedInnerDone ∧
  analyzeLoop nestedF [outerL] 10000 8 outerL nestedInnerDone
    = Returned true nestedOuterDone ∧
  nestedCut ∈ CurPaths outerL nestedOuterDone ∧
  ¬ pathAsSpecified nestedF outerL nestedCut.
Proof.
  split_and!.
  - vm_compute. reflexivity.
  - vm_compute. reflexivity.
  - vm_compute. left.
  - intros (_ & _ & BB & Hlast & [[Hl _]|[[i Hi] _]]).
    + injection Hlast as <-. vm_compute in Hl. discriminate.
    + injection Hlast as <-. unfold isEquivalencePoint in Hi. simpl in Hi.
      by destruct i as [|[|i]].
Qed.

Lemma analyzeLoop_summaries_witness :
  (flag (HasSpPath eqLatchDone) (loopId eqLatchL) 1 = true ↔
   ∃ p, p ∈ CurPaths eqLatchL eqLatchDone ∧ pathThrough p 1 = true ∧
        startsAtHeader p = true ∧ endsAtBackedge p = true) ∧
  (flag (HasEqPointPath eqLatchDone) (loopId eqLatchL) 1 = true ↔
   ∃ p, p ∈ CurPaths eqLatchL eqLatchDone ∧ pathThrough p 1 = true ∧
        (recordedAtEqPoint eqLatchF p ∨ pointToBackedge p)).
Proof.
  apply (analyzeLoop_summaries eqLatchF [eqLatchL] 10000 8 eqLatchL initial).
  - vm_compute. reflexivity.
  - vm_compute. reflexivity.
Defined.

(** C3 as the specification states it fails: in [eqLatchF] the latch 1 gets
    [HasEqPointPath] from the path that leaves the equivalence point of the
    header and ends at the back-edge, and no stored path through the latch
    ends at an equivalence point. *)
Lemma eqPointSummaryAsSpecified_counterexample :
  analyzeLoop eqLatchF [eqLatchL] 10000 8 eqLatchL initial
    = Returned true eqLatchDone ∧
  count (getSubBlocks eqLatchL) 1 = false ∧
  ¬ eqPointSummaryAsSpecified eqLatchF eqLatchL eqLatchDone 1.
Proof.
  split_and!.
  - vm_compute. reflexivity.
  - vm_compute. reflexivity.
  - intros [H _]. destruct H as (p & Hp & Hb & He); [vm_compute; reflexivity|].
    assert (Hps : CurPaths eqLatchL eqLatchDone =
                  [mkLoopPath [(0, false)] (0, 0) (0, 1) true false;
                   mkLoopPath [(0, false); (1, false)] (0, 2) (1, 0) false true])
      by (vm_compute; reflexivity).
    rewrite Hps in Hp.
    apply elem_of_cons in Hp as [->|Hp]; [by vm_compute in Hb|].
    apply list_elem_of_singleton in Hp as ->. by vm_compute in He.
Qed.

Lemma loopDFS_queues_witness :
  endLatchSearch = Some (true, endLatchSearched) ∧
  NewPaths endLatchSearched = [front 1].
Proof.
  destruct (loopDFS_queues endLatchF [endLatchL] 10000 endLatchL
              (getLoopLatches endLatchF endLatchL) (getSubBlocks endLatchL)
              (front 0) true 0 (front 0) (front 0)
              (clearLoop endLatchL initial))
    as [_ H]; [reflexivity|reflexivity|reflexivity|].
  destruct H as (s' & Hrun & HN).
  - reflexivity.
  - vm_compute. lia.
  - intros Succ HS _ _. vm_compute in HS.
    apply list_elem_of_singleton in HS as ->. reflexivity.
  - split; vm_compute; reflexivity.
Defined.

(** C4 as the specification states it fails: in [endLatchF] the search from
    the header ends its path at the terminator of the header and queues the
    first instruction of the successor 1, which is a latch of the loop; by
    the specification nothing would be queued. *)
Lemma queuedStartsAsSpecified_counterexample :
  ∃ s', endLatchSearch = Some (true, s') ∧
        count (getLoopLatches endLatchF endLatchL) 1 = true ∧
        NewPaths s' = [front 1] ∧
        queuedStartsAsSpecified endLatchF endLatchL
          (getLoopLatches endLatchF endLatchL) 0
          (NewPaths (clearLoop endLatchL initial)) = [].
Proof.
  eexists. split_and!; [vm_compute; reflexivity|..]; vm_compute; reflexivity.
Qed.

(** *** Further properties of the helpers of the search *)

Lemma firstTrue_first l i j k :
  firstTrue i l = Some j → i ≤ k → k < j → nth (k - i) l false = false.
Proof.
  revert i. induction l as [|x l IH]; intros i; simpl; [done|].
  destruct x.
  - intros [= <-]. lia.
  - intros H Hik Hkj. destruct (decide (k = i)) as [->|Hne].
    + by rewrite Nat.sub_diag.
    + replace (k - i) with (S (k - S i)) by lia. apply IH; [done|lia|done].
Qed.

(** X1.  [hasEquivalencePoint] returns the first equivalence point of the
    block at or after the given instruction: the instruction it returns lies
    in the block of [I], not before [I], and is an equivalence point, and no
    instruction between [I] and it is one; it returns null exactly when the
    block holds no equivalence point from [I] on. *)
Theorem hasEquivalencePoint_first F I :
  (∀ E, hasEquivalencePoint F I = Some E →
        getParent E = getParent I ∧ I.2 ≤ E.2 ∧ E.2 < size F I.1 ∧
        isEquivalencePoint F E = true ∧
        ∀ J, getParent J = getParent I → I.2 ≤ J.2 → J.2 < E.2 →
             isEquivalencePoint F J = false) ∧
  (hasEquivalencePoint F I = None ↔
   ∀ J, getParent J = getParent I → I.2 ≤ J.2 →
        isEquivalencePoint F J = false).
Proof.
  split.
  - intros E HE.
    destruct (hasEquivalencePoint_Some F I E HE) as (H1 & H2 & H3 & H4).
    split_and!; try done. intros J HJ Hle Hlt.
    unfold hasEquivalencePoint in HE.
    destruct (firstTrue _ _) as [j|] eqn:Hj; [|done].
    injection HE as <-. simpl in Hlt.
    apply (firstTrue_first _ _ _ J.2) in Hj; [|done|done].
    unfold isEquivalencePoint, getParent in *. rewrite HJ.
    rewrite nth_lookup, lookup_drop in Hj. rewrite nth_lookup.
    by replace (I.2 + (J.2 - I.2)) with J.2 in Hj by lia.
  - split.
    + intros HN J. by apply hasEquivalencePoint_None.
    + intros Hall. destruct (hasEquivalencePoint F I) as [E|] eqn:HE; [|done].
      destruct (hasEquivalencePoint_Some F I E HE) as (H1 & H2 & _ & H4).
      by rewrite (Hall E H1 H2) in H4.
Qed.

Section SummaryReads.
Variable F : Function.
Variable LI : list Loop.

Lemma index_value m l b : (index m l b).1 = flag m l b.
Proof. done. Qed.

Lemma index_entry m l b b' :
  is_Some (default ∅ (m !! l) !! b') ∨ b' = b →
  is_Some (default ∅ ((index m l b).2 !! l) !! b').
Proof.
  intros H. unfold index. cbn [snd]. rewrite lookup_insert_eq.
  cbn [default from_option]. unfold id.
  destruct (decide (b = b')) as [->|Hne].
  - rewrite lookup_insert_eq. eauto.
  - rewrite lookup_insert_ne by done. destruct H as [H|H]; [done|congruence].
Qed.

Lemma visitExit_eq SubLoop E Sp s x :
  visitExit F SubLoop (E, Sp, s) x =
  (if flag (HasEqPointPath s) (loopId SubLoop) x
   then E ++ [getTerminator F x] else E,
   if flag (HasSpPath s) (loopId SubLoop) x
   then Sp ++ [getTerminator F x] else Sp,
   setHasEqPointPath (index (HasEqPointPath s) (loopId SubLoop) x).2
     (setHasSpPath (index (HasSpPath s) (loopId SubLoop) x).2 s)).
Proof. done. Qed.

Lemma visitExits_reads SubLoop s exits E0 Sp0 s0 :
  (∀ l b, flag (HasSpPath s0) l b = flag (HasSpPath s) l b) →
  (∀ l b, flag (HasEqPointPath s0) l b = flag (HasEqPointPath s) l b) →
  let r := fold_left (visitExit F SubLoop) exits (E0, Sp0, s0) in
  r.1.1 = E0 ++ map (getTerminator F)
                    (List.filter (flag (HasEqPointPath s) (loopId SubLoop))
                                 exits) ∧
  r.1.2 = Sp0 ++ map (getTerminator F)
                     (List.filter (flag (HasSpPath s) (loopId SubLoop))
                                  exits) ∧
  (∀ b, is_Some (default ∅ (HasSpPath s0 !! loopId SubLoop) !! b) ∨ b ∈ exits →
        is_Some (default ∅ (HasSpPath r.2 !! loopId SubLoop) !! b)) ∧
  (∀ b, is_Some (default ∅ (HasEqPointPath s0 !! loopId SubLoop) !! b)
        ∨ b ∈ exits →
        is_Some (default ∅ (HasEqPointPath r.2 !! loopId SubLoop) !! b)).
Proof.
  revert E0 Sp0 s0. induction exits as [|x exits IH]; intros E0 Sp0 s0 H1 H2.
  { cbn. rewrite !app_nil_r. split_and!; try done.
    - intros b [?|Hb]; [done|inversion Hb].
    - intros b [?|Hb]; [done|inversion Hb]. }
  cbn [fold_left List.filter]. cbv zeta. rewrite visitExit_eq.
  set (s1 := setHasEqPointPath _ (setHasSpPath _ s0)).
  specialize (IH (if flag (HasEqPointPath s0) (loopId SubLoop) x
                  then E0 ++ [getTerminator F x] else E0)
                 (if flag (HasSpPath s0) (loopId SubLoop) x
                  then Sp0 ++ [getTerminator F x] else Sp0) s1).
  destruct IH as (I1 & I2 & I3 & I4).
  { intros l b. subst s1.
    cbn [HasSpPath HasEqPointPath setHasEqPointPath setHasSpPath].
    rewrite flag_index. apply H1. }
  { intros l b. subst s1.
    cbn [HasSpPath HasEqPointPath setHasEqPointPath setHasSpPath].
    rewrite flag_index. apply H2. }
  cbv zeta in I1, I2, I3, I4.
  rewrite (H1 (loopId SubLoop) x), (H2 (loopId SubLoop) x) in I1, I2, I3, I4 |- *.
  rewrite I1, I2. split_and!.
  - destruct (flag (HasEqPointPath s) (loopId SubLoop) x); [|done].
    by rewrite <- app_assoc.
  - destruct (flag (HasSpPath s) (loopId SubLoop) x); [|done].
    by rewrite <- app_assoc.
  - intros b Hb. apply I3. subst s1.
    cbn [HasSpPath HasEqPointPath setHasEqPointPath setHasSpPath].
    destruct (decide (b ∈ exits)) as [?|Hne]; [by right|left].
    apply index_entry. destruct Hb as [?|Hb]; [by left|].
    apply elem_of_cons in Hb as [->|?]; [by right|done].
  - intros b Hb. apply I4. subst s1.
    cbn [HasSpPath HasEqPointPath setHasEqPointPath setHasSpPath].
    destruct (decide (b ∈ exits)) as [?|Hne]; [by right|left].
    apply index_entry. destruct Hb as [?|Hb]; [by left|].
    apply elem_of_cons in Hb as [->|?]; [by right|done].
Qed.

(** What [getSubLoopSuccessors] returns and leaves, for a successor whose
    innermost loop is known. *)
Lemma getSubLoopSuccessors_filter Succ SubLoop s :
  getLoopFor LI Succ = Some SubLoop →
  (getSubLoopSuccessors F LI Succ s).1.1
    = map (getTerminator F)
          (List.filter (flag (HasEqPointPath s) (loopId SubLoop))
                       (getExitingBlocks F SubLoop)) ∧
  (getSubLoopSuccessors F LI Succ s).1.2
    = map (getTerminator F)
          (List.filter (flag (HasSpPath s) (loopId SubLoop))
                       (getExitingBlocks F SubLoop)) ∧
  sameButSummary s (getSubLoopSuccessors F LI Succ s).2 ∧
  ∀ Exit, Exit ∈ getExitingBlocks F SubLoop →
    is_Some (default ∅ (HasSpPath (getSubLoopSuccessors F LI Succ s).2
                          !! loopId SubLoop) !! Exit) ∧
    is_Some (default ∅ (HasEqPointPath (getSubLoopSuccessors F LI Succ s).2
                          !! loopId SubLoop) !! Exit).
Proof.
  intros HL.
  destruct (getSubLoopSuccessors F LI Succ s) as [[E Sp] s'] eqn:Hs.
  pose proof (getSubLoopSuccessors_spec F LI Succ s E Sp s' Hs) as [Hsame _].
  unfold getSubLoopSuccessors in Hs. rewrite HL in Hs.
  pose proof (visitExits_reads SubLoop s (getExitingBlocks F SubLoop) [] [] s
                (λ _ _, eq_refl) (λ _ _, eq_refl)) as H.
  cbv zeta in H. rewrite Hs in H. cbn [fst snd app] in H.
  destruct H as (H1 & H2 & H3 & H4). split_and!; try done.
  intros Exit HE. split; [apply H3|apply H4]; by right.
Qed.

(** X2.  [getSubLoopSuccessors] for a successor whose innermost loop is
    [SubLoop]: the vector [EqPoint] holds the terminators of the exiting
    blocks of [SubLoop] whose entry in [HasEqPointPath[SubLoop]] is set, in
    the order of the exiting blocks, and [Spanning] those whose entry in
    [HasSpPath[SubLoop]] is set.  The reads change no answer of the two
    summaries and nothing else of the state, but they leave an entry for
    every exiting block in both maps of [SubLoop]. *)
Theorem getSubLoopSuccessors_reads Succ SubLoop s :
  getLoopFor LI Succ = Some SubLoop →
  (getSubLoopSuccessors F LI Succ s).1.1
    = map (getTerminator F)
          (List.filter (flag (HasEqPointPath s) (loopId SubLoop))
                       (getExitingBlocks F SubLoop)) ∧
  (getSubLoopSuccessors F LI Succ s).1.2
    = map (getTerminator F)
          (List.filter (flag (HasSpPath s) (loopId SubLoop))
                       (getExitingBlocks F SubLoop)) ∧
  sameButSummary s (getSubLoopSuccessors F LI Succ s).2 ∧
  ∀ Exit, Exit ∈ getExitingBlocks F SubLoop →
    is_Some (default ∅ (HasSpPath (getSubLoopSuccessors F LI Succ s).2
                          !! loopId SubLoop) !! Exit) ∧
    is_Some (default ∅ (HasEqPointPath (getSubLoopSuccessors F LI Succ s).2
                          !! loopId SubLoop) !! Exit).
Proof. apply getSubLoopSuccessors_filter. Qed.

End SummaryReads.

Lemma getSubLoopSuccessors_reads_witness :
  (getSubLoopSuccessors nestedF [outerL] 1 nestedInnerDone).1.1
    = map (getTerminator nestedF)
          (List.filter (flag (HasEqPointPath nestedInnerDone) (loopId innerL))
                       (getExitingBlocks nestedF innerL)).
Proof.
  apply (getSubLoopSuccessors_reads nestedF [outerL] 1 innerL nestedInnerDone).
  reflexivity.
Defined.

(** *** Further properties of a search *)

Section SearchMore.
Variable F : Function.
Variable LI : list Loop.
Variable MaxNumPaths : nat.
Variable CurLoop : Loop.
Variables Latches SubLoopBlocks : list BasicBlock.
Variable Start : Instruction.
Variable SAH : bool.

Local Abbreviation ev :=
  (event F LI MaxNumPaths CurLoop Latches SubLoopBlocks Start SAH).
Local Abbreviation dfs :=
  (loopDFS F LI MaxNumPaths CurLoop Latches SubLoopBlocks Start SAH).
Local Abbreviation body :=
  (loopDFS_body F LI MaxNumPaths CurLoop Latches SubLoopBlocks Start SAH).

Lemma below_forEach {A} (f g : A → State → option (bool * State)) xs :
  (∀ x, below (f x) (g x)) → below (forEach f xs) (forEach g xs).
Proof.
  intros Hfg. induction xs as [|x xs IH]; intros s r; simpl; [done|].
  destruct (f x s) as [[[] s1]|] eqn:Hf; [|intros [= <-]|done].
  - rewrite (Hfg x s _ Hf). apply IH.
  - by rewrite (Hfg x s _ Hf).
Qed.

Lemma below_andThen r0 k k' res :
  below k k' → andThen r0 k = Some res → andThen r0 k' = Some res.
Proof. intros Hk. destruct r0 as [[[] s1]|]; simpl; [apply Hk|done|done]. Qed.

Lemma below_throughSubLoop rec rec' BB Succ :
  (∀ J, below (rec J) (rec' J)) →
  below (throughSubLoop F LI MaxNumPaths CurLoop Start SAH rec BB Succ)
        (throughSubLoop F LI MaxNumPaths CurLoop Start SAH rec' BB Succ).
Proof.
  intros Hrec s r. unfold throughSubLoop.
  destruct (getSubLoopSuccessors F LI Succ s) as [[Es Sp] s0].
  apply below_andThen. by apply below_forEach.
Qed.

Lemma below_body rec rec' I :
  (∀ J, below (rec J) (rec' J)) → below (body rec I) (body rec' I).
Proof.
  intros Hrec s r. unfold loopDFS_body.
  destruct (negb (count SubLoopBlocks (getParent I)));
    (destruct (pathContains (PathNodes s) (getParent I)); [done|]).
  - intros H. destruct (hasEquivalencePoint F I) as [E|].
    + unfold atEquivalencePoint in *.
      destruct (addPath MaxNumPaths CurLoop Start SAH E false _)
        as [[[] s1]|]; cbn [andThen] in *; try done.
      destruct (negb (isTerminator F E)); [done|].
      destruct (forEach (queueSuccessor F LI CurLoop SubLoopBlocks rec) _ _)
        as [r1|] eqn:Hq; [|done].
      eapply (below_forEach _ (queueSuccessor F LI CurLoop SubLoopBlocks rec'))
        in Hq; [by rewrite Hq|].
      intros Succ t rt. unfold queueSuccessor.
      destruct (_ || _); [done|]. destruct (negb _); [done|].
      destruct (getSubLoopSuccessors F LI Succ t) as [[Es Sp] t0].
      by apply below_forEach.
    + destruct (count Latches (getParent I)); [done|].
      unfold intoSuccessors in *.
      destruct (forEach _ (successors F (getParent I)) _) as [r1|] eqn:Hq;
        [|done].
      eapply (below_forEach _ (λ Succ s,
                if negb (contains CurLoop Succ) then Some (true, s)
                else if negb (count SubLoopBlocks Succ)
                then rec' (front Succ) s
                else throughSubLoop F LI MaxNumPaths CurLoop Start SAH rec'
                                    (getParent I) Succ s)) in Hq;
        [by rewrite Hq|].
      intros Succ t rt. destruct (negb (contains CurLoop Succ)); [done|].
      destruct (negb (count SubLoopBlocks Succ)); [apply Hrec|].
      by apply below_throughSubLoop.
  - intros H. unfold outOfSubLoop in *.
    destruct (forEach _ (successors F (getParent I)) _) as [r1|] eqn:Hq;
      [|done].
    eapply (below_forEach _ (λ Succ s,
              if from_option (λ W, contains W Succ) false
                             (getLoopFor LI (getParent I))
                 || negb (contains CurLoop Succ)
              then Some (true, s)
              else if negb (count SubLoopBlocks Succ)
              then rec' (front Succ) s
              else throughSubLoop F LI MaxNumPaths CurLoop Start SAH rec'
                                  (getParent I) Succ s)) in Hq;
      [by rewrite Hq|].
    intros Succ t rt. destruct (_ || _); [done|].
    destruct (negb (count SubLoopBlocks Succ)); [apply Hrec|].
    by apply below_throughSubLoop.
Qed.

Lemma loopDFS_deeper d d' I s r :
  d ≤ d' → dfs d I s = Some r → dfs d' I s = Some r.
Proof.
  intros Hle. revert d Hle I s r.
  induction d' as [|d' IH]; intros d Hle I s r.
  - assert (d = 0) as -> by lia. done.
  - destruct d as [|d]; [done|]. cbn [loopDFS].
    apply below_body. intros J t rt. apply IH. lia.
Qed.

Lemma events_flags s s' :
  rtc ev s s' →
  TooManyPaths s' = TooManyPaths s ∧ DetectedCycle s' = DetectedCycle s.
Proof.
  induction 1 as [|s s1 s' H _ [IH1 IH2]]; [done|].
  apply event_frame in H as (H1 & H2 & _). by rewrite IH1, IH2.
Qed.

(** X3.  The result of a search and the two failure flags: a search returns
    [false] only with [DetectedCycle] or [TooManyPaths] set, and a search
    that returns [true] leaves both flags as they were.  So the [break] out
    of the loop over a nest in [runOnFunction], which follows a [false], is
    always followed by the [break] out of the loop over the nests. *)
Theorem loopDFS_result_and_flags depth I s :
  (∀ s', dfs depth I s = Some (false, s') → analysisFailed s' = true) ∧
  (∀ s', valid F LI CurLoop I → wfPath SubLoopBlocks (PathNodes s) →
         dfs depth I s = Some (true, s') →
         TooManyPaths s' = TooManyPaths s ∧
         DetectedCycle s' = DetectedCycle s).
Proof.
  split.
  - intros s'. apply loopDFS_false.
  - intros s' HI Hwf Hrun.
    destruct (loopDFS_traced F LI MaxNumPaths CurLoop Latches SubLoopBlocks
                Start SAH depth I (PathNodes s) HI Hwf s s' eq_refl Hrun)
      as [_ Hev].
    by apply events_flags.
Qed.

Lemma pushIfNotPresent_appends I l :
  ∃ new, pushIfNotPresent I l = l ++ new ∧
         (NoDup l → NoDup (pushIfNotPresent I l)).
Proof.
  unfold pushIfNotPresent. destruct (bool_decide (I ∈ l)) eqn:HI.
  - exists []. by rewrite app_nil_r.
  - exists [I]. split; [done|]. intros Hl. apply bool_decide_eq_false in HI.
    apply NoDup_app. split_and!; [done| |apply NoDup_singleton].
    intros x Hx ->%list_elem_of_singleton. done.
Qed.

Lemma event_appends s s' :
  ev s s' →
  ∃ new, NewPaths s' = NewPaths s ++ new ∧
         (NoDup (NewPaths s) → NoDup (NewPaths s')).
Proof.
  assert (Hsame : ∀ t t' : State, NewPaths t' = NewPaths t →
            ∃ new, NewPaths t' = NewPaths t ++ new ∧
                   (NoDup (NewPaths t) → NoDup (NewPaths t'))).
  { intros t t' ->. exists []. by rewrite app_nil_r. }
  destruct 1 as [s pn|s s1 I E pn _ _ _ H|s s1 I pn _ _ _ _ H
                |s s1 I pn f Succ SLE _ _ _ _ _ _ _ _ H|s I HI|s Succ].
  - by apply Hsame.
  - apply addPath_true in H as [-> _]. by apply Hsame.
  - apply addPath_true in H as [-> _]. apply Hsame. by destruct SAH.
  - apply addPath_true in H as [-> _]. simpl. apply pushIfNotPresent_appends.
  - simpl. apply pushIfNotPresent_appends.
  - destruct (getSubLoopSuccessors F LI Succ s) as [[Es Sp] s0] eqn:Hs.
    apply getSubLoopSuccessors_spec in Hs as ((_ & _ & HN & _) & _).
    by apply Hsame.
Qed.

(** X4.  What a search that returns [true] does to the work list
    [NewPaths]: it only appends.  The starts that were queued stay, in their
    order, in front of the new ones, and [pushIfNotPresent] adds no start
    that is in the list: a list without a repetition stays without one. *)
Theorem loopDFS_appends_starts depth I s s' :
  valid F LI CurLoop I → wfPath SubLoopBlocks (PathNodes s) →
  dfs depth I s = Some (true, s') →
  ∃ new, NewPaths s' = NewPaths s ++ new ∧
         (NoDup (NewPaths s) → NoDup (NewPaths s')).
Proof.
  intros HI Hwf Hrun.
  destruct (loopDFS_traced F LI MaxNumPaths CurLoop Latches SubLoopBlocks
              Start SAH depth I (PathNodes s) HI Hwf s s' eq_refl Hrun)
    as [_ Hev].
  clear Hrun Hwf. induction Hev as [|s s1 s' H _ IH].
  - exists []. by rewrite app_nil_r.
  - destruct (event_appends s s1 H) as (n1 & E1 & D1).
    destruct IH as (n2 & E2 & D2). exists (n1 ++ n2).
    split; [by rewrite E2, E1, app_assoc|]. intros Hs. by apply D2, D1.
Qed.

End SearchMore.

Section AnalysisMore.
Variable F : Function.
Variable LI : list Loop.
Variable MaxNumPaths : nat.

(** X5.  A search from an empty stack of path nodes returns: the recursion
    of [loopDFS] is never deeper than the number of the blocks it can enter,
    and the result does not depend on the bound once the bound is that
    large. *)
Theorem loopDFS_terminates L Start SAH I s :
  valid F LI L I → PathNodes s = [] →
  ∃ r, ∀ depth, depthOf LI L ≤ depth →
       loopDFS F LI MaxNumPaths L (getLoopLatches F L) (getSubBlocks L)
               Start SAH depth I s = Some r.
Proof.
  intros HI Hs.
  destruct (loopDFS_returns F LI MaxNumPaths L Start SAH I s HI Hs) as [r Hr].
  exists r. intros depth Hle. by eapply loopDFS_deeper.
Qed.

(** The effect of an event on the summaries of the other loops. *)
Lemma event_others L Start SAH s s' k b :
  event F LI MaxNumPaths L (getLoopLatches F L) (getSubBlocks L) Start SAH s s' →
  k ≠ loopId L →
  flag (HasSpPath s') k b = flag (HasSpPath s) k b ∧
  flag (HasEqPointPath s') k b = flag (HasEqPointPath s) k b.
Proof.
  intros Hev Hk.
  assert (Hmark : ∀ m nodes,
            flag (markPath L (getSubBlocks L) m nodes) k b = flag m k b).
  { intros m nodes. rewrite flag_markPath.
    rewrite bool_decide_eq_false_2; [done|]. by intros [? _]. }
  destruct Hev as [s pn|s s1 I E pn _ _ _ H|s s1 I pn _ _ _ _ H
                  |s s1 I pn f Succ SLE _ _ _ _ _ _ _ _ H|s I HI|s Succ].
  - done.
  - apply addPath_true in H as [-> _].
    cbn [HasSpPath HasEqPointPath setHasEqPointPath]. by rewrite Hmark.
  - apply addPath_true in H as [-> _].
    destruct SAH; cbn [HasSpPath HasEqPointPath setHasEqPointPath setHasSpPath];
      by rewrite Hmark.
  - by apply addPath_true in H as [-> _].
  - done.
  - destruct (getSubLoopSuccessors F LI Succ s) as [[Es Sp] s0] eqn:Hs.
    apply getSubLoopSuccessors_spec in Hs
      as ((_ & _ & _ & _ & _ & H1 & H2) & _).
    cbn [snd]. by rewrite H1, H2.
Qed.

(** X6.  A successful analysis of a loop stores at most [MaxNumPaths] paths
    for it, leaves the work list and the stack of path nodes empty, and
    leaves the failure flags as they were. *)
Theorem analyzeLoop_within_ceiling n L s s' :
  analyzeLoop F LI MaxNumPaths n L s = Returned true s' →
  length (CurPaths L s') ≤ MaxNumPaths ∧
  NewPaths s' = [] ∧ PathNodes s' = [] ∧
  analysisFailed s' = analysisFailed s.
Proof.
  intros Hrun. pose proof (analyzeLoop_outcome F LI MaxNumPaths n L s) as Ho.
  rewrite Hrun in Ho. destruct Ho as (Hsteps & HN & HP).
  pose proof (analyzeLoop_kept F LI MaxNumPaths n L s) as Hk.
  rewrite Hrun in Hk. destruct Hk as [[Hf _] _]. split_and!; try done.
  apply (steps_invariant F LI MaxNumPaths L
           (λ t, length (CurPaths L t) ≤ MaxNumPaths) _ _) in Hsteps.
  - done.
  - intros St sah t t' Hev Ht.
    destruct Hev as [t pn|t t1 I E pn _ _ _ H|t t1 I pn _ _ _ _ H
                    |t t1 I pn f Succ SLE _ _ _ _ _ _ _ _ H|t I HI|t Succ].
    + done.
    + by apply addPath_true in H as [-> H].
    + apply addPath_true in H as [-> H]. by destruct sah.
    + by apply addPath_true in H as [-> H].
    + done.
    + destruct (getSubLoopSuccessors F LI Succ t) as [[Es Sp] t0] eqn:Hs.
      apply getSubLoopSuccessors_spec in Hs as ((HPa & _) & _).
      unfold CurPaths in *. cbn. by rewrite HPa.
  - done.
  - rewrite CurPaths_clearLoop. simpl. lia.
Qed.

(** X7.  [rerunOnLoop] touches the results of the one loop only: when the
    analysis succeeds, the paths stored for every other loop and every
    answer of the two summaries about another loop are what they were, and
    the loop has paths; when it fails, the results of all the loops are
    discarded and a failure flag is set. *)
Theorem rerunOnLoop_frame n L s :
  (∀ s', rerunOnLoop F LI MaxNumPaths n L s = Returned true s' →
         hasPaths s' L = true ∧
         ∀ k, k ≠ loopId L →
              Paths s' !! k = Paths s !! k ∧
              ∀ b, flag (HasSpPath s') k b = flag (HasSpPath s) k b ∧
                   flag (HasEqPointPath s') k b = flag (HasEqPointPath s) k b) ∧
  (∀ s', rerunOnLoop F LI MaxNumPaths n L s = Returned false s' →
         Paths s' = ∅ ∧ HasSpPath s' = ∅ ∧ HasEqPointPath s' = ∅ ∧
         analysisFailed s' = true).
Proof.
  unfold rerunOnLoop.
  set (s0 := setPaths (<[loopId L := default [] (Paths s !! loopId L)]>
                         (Paths s)) s).
  pose proof (analyzeLoop_kept F LI MaxNumPaths n L s0) as Hk.
  pose proof (analyzeLoop_outcome F LI MaxNumPaths n L s0) as Ho.
  destruct (analyzeLoop F LI MaxNumPaths n L s0) as [[] s1|s1].
  - split; [|done]. intros s' [= <-]. destruct Hk as [_ HL].
    destruct Ho as (Hsteps & _). split.
    { unfold hasPaths. by apply bool_decide_eq_true. }
    intros k Hk.
    apply (steps_invariant F LI MaxNumPaths L
             (λ t, Paths t !! k = Paths s !! k ∧
                   ∀ b, flag (HasSpPath t) k b = flag (HasSpPath s) k b ∧
                        flag (HasEqPointPath t) k b
                          = flag (HasEqPointPath s) k b) _ _) in Hsteps.
    + done.
    + intros St sah t t' Hev [HP Hfl]. split.
      * apply event_frame in Hev as (_ & _ & Hev & _). by rewrite Hev.
      * intros b. destruct (event_others L St sah t t' k b Hev Hk) as [-> ->].
        apply Hfl.
    + done.
    + unfold s0. cbn. split.
      * by rewrite !lookup_insert_ne.
      * intros b. unfold flag. by rewrite !lookup_insert_ne.
  - split; [done|]. intros s' [= <-]. by split_and!.
  - done.
Qed.

End AnalysisMore.

Lemma loopDFS_appends_starts_witness :
  ∃ new, NewPaths endLatchSearched = [] ++ new ∧
         (NoDup ([] : list Instruction) → NoDup (NewPaths endLatchSearched)).
Proof.
  apply (loopDFS_appends_starts endLatchF [endLatchL] 10000 endLatchL
           (getLoopLatches endLatchF endLatchL) (getSubBlocks endLatchL)
           (front 0) true 1 (front 0) (clearLoop endLatchL initial)
           endLatchSearched).
  - split; [simpl; lia|left].
  - apply wfPath_nil.
  - reflexivity.
Defined.

Lemma loopDFS_terminates_witness :
  ∃ r, ∀ depth, depthOf [endLatchL] endLatchL ≤ depth →
       loopDFS endLatchF [endLatchL] 10000 endLatchL
               (getLoopLatches endLatchF endLatchL) (getSubBlocks endLatchL)
               (front 0) true depth (front 0) (clearLoop endLatchL initial)
         = Some r.
Proof.
  apply (loopDFS_terminates endLatchF [endLatchL] 10000 endLatchL (front 0)
           true (front 0) (clearLoop endLatchL initial)).
  - split; [simpl; lia|left].
  - reflexivity.
Defined.

Lemma analyzeLoop_within_ceiling_witness :
  length (CurPaths eqLatchL eqLatchDone) ≤ 10000 ∧
  NewPaths eqLatchDone = [] ∧ PathNodes eqLatchDone = [] ∧
  analysisFailed eqLatchDone = analysisFailed initial.
Proof.
  apply (analyzeLoop_within_ceiling eqLatchF [eqLatchL] 10000 8 eqLatchL
           initial eqLatchDone).
  vm_compute. reflexivity.
Defined.

(** *** The loop nests *)

Lemma populateLoopNest_eq L :
  populateLoopNest L = L :: flat_map populateLoopNest (getSubLoops L).
Proof. by destruct L. Qed.

Lemma flat_map_cons_Permutation {A} (g : A → list A) l :
  flat_map (λ x, x :: g x) l ≡ₚ l ++ flat_map g l.
Proof.
  induction l as [|x l IH]; [done|]. simpl. rewrite IH.
  apply Permutation_cons; [done|]. rewrite !app_assoc.
  apply Permutation_app_tail, Permutation_app_comm.
Qed.

Lemma populateLoop_nest fuel ToVisit Nest :
  length (flat_map populateLoopNest ToVisit) ≤ fuel →
  populateLoop fuel ToVisit Nest ≡ₚ
  Nest ++ flat_map (λ Q, flat_map populateLoopNest (getSubLoops Q)) ToVisit.
Proof.
  revert ToVisit Nest.
  induction fuel as [|fuel IH]; intros [|Sub ToVisit] Nest Hf; simpl.
  - by rewrite app_nil_r.
  - cbn [flat_map] in Hf. rewrite populateLoopNest_eq in Hf.
    cbn [app length] in Hf. lia.
  - by rewrite app_nil_r.
  - rewrite IH.
    + rewrite flat_map_app, <- !app_assoc. apply Permutation_app_head.
      rewrite (Permutation_app_comm
                 (flat_map (λ Q, flat_map populateLoopNest (getSubLoops Q))
                           ToVisit)).
      rewrite !app_assoc. apply Permutation_app_tail.
      rewrite (List.flat_map_ext populateLoopNest _ populateLoopNest_eq).
      symmetry. apply flat_map_cons_Permutation.
    + cbn [flat_map] in Hf. rewrite populateLoopNest_eq in Hf.
      cbn [app length] in Hf. rewrite length_app in Hf.
      rewrite flat_map_app, length_app. lia.
Qed.

Lemma populateLoopNest_rtc L L' :
  L' ∈ populateLoopNest L ↔ rtc subLoopOf L L'.
Proof.
  split.
  - revert L'. induction L as [L IH] using Loop_nest_ind. intros L'.
    rewrite populateLoopNest_eq. intros [->|H]%elem_of_cons; [done|].
    apply list_elem_of_In, in_flat_map in H as (C & HC & H).
    apply list_elem_of_In in HC, H. rewrite Forall_forall in IH.
    eapply rtc_l; [exact HC|]. by apply IH.
  - induction 1 as [L|L C L' HC _ IH].
    + rewrite populateLoopNest_eq. by left.
    + rewrite populateLoopNest_eq. right.
      apply list_elem_of_In, in_flat_map. exists C.
      split; by apply list_elem_of_In.
Qed.

(** X8.  [populateLoopNest]: the loop over the queue ends after as many
    iterations as the nest has loops, and the nest it leaves holds the loop
    [L] and every loop nested in [L] at any depth, each of them once (it is
    the nest the analysis is stated with, in another order), and no other
    loop. *)
Theorem populateLoopNest_queue L fuel :
  length (populateLoopNest L) ≤ fuel →
  populateLoop fuel [L] [L] ≡ₚ populateLoopNest L ∧
  ∀ L', L' ∈ populateLoop fuel [L] [L] ↔ rtc subLoopOf L L'.
Proof.
  intros Hf.
  assert (Hp : populateLoop fuel [L] [L] ≡ₚ populateLoopNest L).
  { rewrite populateLoop_nest by (simpl; by rewrite app_nil_r).
    rewrite (populateLoopNest_eq L). simpl. by rewrite app_nil_r. }
  split; [done|]. intros L'. rewrite Hp. apply populateLoopNest_rtc.
Qed.

(** X9.  [getSubBlocks] collects the blocks of the loops nested strictly
    inside [L] at any depth, and no other block; [SubLoopBlocks.count] is
    the test for these blocks. *)
Theorem getSubBlocks_nested L b :
  count (getSubBlocks L) b = true ↔
  ∃ C Sub, subLoopOf L C ∧ rtc subLoopOf C Sub ∧ b ∈ getBlocks Sub.
Proof.
  unfold count, getSubBlocks. rewrite bool_decide_eq_true. split.
  - intros H. apply list_elem_of_In, in_flat_map in H as (C & HC & H).
    apply in_flat_map in H as (Sub & HS & H).
    exists C, Sub. split_and!.
    + by apply list_elem_of_In.
    + by apply populateLoopNest_rtc, list_elem_of_In.
    + by apply list_elem_of_In.
  - intros (C & Sub & HC & HS & Hb).
    apply list_elem_of_In, in_flat_map. exists C.
    split; [by apply list_elem_of_In|]. apply in_flat_map. exists Sub.
    split; [by apply list_elem_of_In, populateLoopNest_rtc|].
    by apply list_elem_of_In.
Qed.

Lemma populateLoopNest_queue_witness :
  populateLoop 5 [outerL] [outerL] ≡ₚ populateLoopNest outerL.
Proof.
  apply (populateLoopNest_queue outerL 5). simpl. lia.
Defined.

(** *** A rule for the invariants of a search *)

Section Rule.
Variable F : Function.
Variable LI : list Loop.
Variable MaxNumPaths : nat.
Variable CurLoop : Loop.
Variables Latches SubLoopBlocks : list BasicBlock.
Variable Start : Instruction.
Variable SAH : bool.

Local Abbreviation dfs :=
  (loopDFS F LI MaxNumPaths CurLoop Latches SubLoopBlocks Start SAH).
Local Abbreviation body :=
  (loopDFS_body F LI MaxNumPaths CurLoop Latches SubLoopBlocks Start SAH).
Local Abbreviation add := (addPath MaxNumPaths CurLoop Start SAH).

(** The invariant, and what holds of the instruction a search is called
    with. *)
Variable Inv : State → Prop.
Variable Pre : Instruction → State → Prop.

Hypothesis Hpush : ∀ I s,
  Inv s → Pre I s → pathContains (PathNodes s) (getParent I) = false →
  Inv (setPathNodes
         (PathNodes s ++ [(getParent I, count SubLoopBlocks (getParent I))]) s).
Hypothesis Hpop : ∀ s pn n,
  Inv s → PathNodes s = pn ++ [n] → Inv (setPathNodes pn s).
Hypothesis Hpath : ∀ s E eab,
  Inv s → PathNodes s ≠ [] →
  length (CurPaths CurLoop (emplace_back CurLoop Start SAH E eab s))
    ≤ MaxNumPaths →
  Inv (emplace_back CurLoop Start SAH E eab s).
Hypothesis Hsp : ∀ s,
  SAH = true → Inv s →
  Inv (setHasSpPath
         (markPath CurLoop SubLoopBlocks (HasSpPath s) (PathNodes s)) s).
Hypothesis Heq : ∀ s,
  Inv s →
  Inv (setHasEqPointPath
         (markPath CurLoop SubLoopBlocks (HasEqPointPath s) (PathNodes s)) s).
Hypothesis Hnew : ∀ s J, Inv s → Inv (pushNew J s).
Hypothesis Hreads : ∀ s Succ,
  contains CurLoop Succ = true → count SubLoopBlocks Succ = true →
  Inv s → Inv (getSubLoopSuccessors F LI Succ s).2.
Hypothesis Hrec : ∀ s J, Inv s → PathNodes s ≠ [] → Pre J s.

Local Abbreviation ok := (holdsAt Inv).

Lemma ok_forEach {A} pn (f : A → State → option (bool * State)) xs :
  (∀ x, x ∈ xs → ok pn (f x)) → ok pn (forEach f xs).
Proof.
  induction xs as [|x xs IH]; intros Hf s s' Hs Hpn; simpl.
  - by intros [= <-].
  - destruct (f x s) as [[[] s1]|] eqn:Hx; [|done|done].
    destruct (Hf x ltac:(by left) s s1 Hs Hpn Hx) as [Hs1 Hpn1].
    apply IH; [|done|done]. intros y Hy. apply Hf. by right.
Qed.

Lemma ok_andThen pn r k s' :
  (∀ s1, r = Some (true, s1) → Inv s1 ∧ PathNodes s1 = pn) →
  ok pn k →
  andThen r k = Some (true, s') → Inv s' ∧ PathNodes s' = pn.
Proof.
  intros Hr Hk. destruct r as [[[] s1]|]; simpl; [|done|done].
  destruct (Hr s1 eq_refl) as [H1 H2]. by apply Hk.
Qed.

Lemma ok_add pn E eab : pn ≠ [] → ok pn (add E eab).
Proof.
  intros Hne s s' Hs Hpn [-> Hlen]%addPath_true. split; [|done].
  apply Hpath; [done|by rewrite Hpn|done].
Qed.

Lemma ok_reads pn Succ s :
  contains CurLoop Succ = true → count SubLoopBlocks Succ = true →
  Inv s → PathNodes s = pn →
  Inv (getSubLoopSuccessors F LI Succ s).2 ∧
  PathNodes (getSubLoopSuccessors F LI Succ s).2 = pn.
Proof.
  intros HC HS Hs Hpn. split; [by apply Hreads|].
  destruct (getSubLoopSuccessors F LI Succ s) as [[E Sp] s0] eqn:Hg.
  apply getSubLoopSuccessors_spec in Hg as ((_ & HP & _) & _).
  simpl. by rewrite HP.
Qed.

Lemma ok_pushAll pn (Is : list Instruction) s :
  Inv s → PathNodes s = pn →
  Inv (fold_left (λ s SLE, pushNew SLE s) Is s) ∧
  PathNodes (fold_left (λ s SLE, pushNew SLE s) Is s) = pn.
Proof.
  revert s. induction Is as [|J Is IH]; intros s Hs Hpn; [done|].
  simpl. apply IH; [by apply Hnew|done].
Qed.

Lemma ok_throughSubLoop pn rec BB Succ :
  pn ≠ [] → contains CurLoop Succ = true → count SubLoopBlocks Succ = true →
  (∀ J, ok pn (rec J)) →
  ok pn (throughSubLoop F LI MaxNumPaths CurLoop Start SAH rec BB Succ).
Proof.
  intros Hne HC HS Hrec' s s' Hs Hpn. unfold throughSubLoop.
  destruct (ok_reads pn Succ s HC HS Hs Hpn) as [Hs0 Hpn0].
  destruct (getSubLoopSuccessors F LI Succ s) as [[Es Sp] s0]. simpl in *.
  apply ok_andThen.
  - intros s1 H1. revert H1. apply ok_forEach; [|done|done].
    intros SLE _ t t' Ht Hpt Hrun.
    apply andThen_true in Hrun as (t1 & Ha & [= <-]).
    destruct (ok_add pn (getTerminator F BB) false Hne t t1 Ht Hpt Ha).
    split; [by apply Hnew|done].
  - apply ok_forEach. intros J _. apply Hrec'.
Qed.

Lemma ok_queueSuccessor pn rec Succ :
  pn ≠ [] → (∀ J, ok pn (rec J)) →
  ok pn (queueSuccessor F LI CurLoop SubLoopBlocks rec Succ).
Proof.
  intros Hne Hrec' s s' Hs Hpn. unfold queueSuccessor.
  destruct (negb (contains CurLoop Succ)) eqn:HC; simpl.
  { by intros [= <-]. }
  destruct (Succ =? getHeader CurLoop); simpl.
  { by intros [= <-]. }
  destruct (negb (count SubLoopBlocks Succ)) eqn:HS.
  { intros [= <-]. split; [by apply Hnew|done]. }
  apply negb_false_iff in HC, HS.
  destruct (ok_reads pn Succ s HC HS Hs Hpn) as [Hs0 Hpn0].
  destruct (getSubLoopSuccessors F LI Succ s) as [[Es Sp] s0]. simpl in *.
  destruct (ok_pushAll pn Es s0 Hs0 Hpn0) as [Hs1 Hpn1].
  apply ok_forEach; [|done|done]. intros J _. apply Hrec'.
Qed.

Lemma ok_visitSuccessor pn rec BB Succ :
  pn ≠ [] → (∀ J, ok pn (rec J)) → contains CurLoop Succ = true →
  ok pn (λ s, if negb (count SubLoopBlocks Succ) then rec (front Succ) s
              else throughSubLoop F LI MaxNumPaths CurLoop Start SAH rec
                                  BB Succ s).
Proof.
  intros Hne Hrec' HC s s' Hs Hpn.
  destruct (negb (count SubLoopBlocks Succ)) eqn:HS; [by apply Hrec'|].
  apply negb_false_iff in HS. by apply ok_throughSubLoop.
Qed.

Lemma ok_body rec I pn :
  (∀ J pn', pn' ≠ [] → ok pn' (rec J)) →
  ∀ s s', Inv s → Pre I s → PathNodes s = pn →
          body rec I s = Some (true, s') → Inv s' ∧ PathNodes s' = pn.
Proof.
  intros Hrec' s s' Hs HI Hpn. unfold loopDFS_body.
  set (BB := getParent I).
  assert (Hne : pn ++ [(BB, count SubLoopBlocks BB)] ≠ []) by by destruct pn.
  assert (Hpopped : ∀ r,
    (∀ t', r = Some (true, t') →
           Inv t' ∧ PathNodes t' = pn ++ [(BB, count SubLoopBlocks BB)]) →
    andThen r pop_back = Some (true, s') → Inv s' ∧ PathNodes s' = pn).
  { intros r Hr Hrun. apply andThen_true in Hrun as (t' & -> & [= <-]).
    destruct (Hr t' eq_refl) as [Ht Hpt]. rewrite Hpt, removelast_last.
    split; [|done]. by eapply Hpop. }
  destruct (count SubLoopBlocks BB) eqn:HS; cbn [negb];
    (destruct (pathContains (PathNodes s) BB) eqn:Hcyc; [done|]);
    pose proof (Hpush I s Hs HI Hcyc) as Hs1; fold BB in Hs1;
    rewrite HS, Hpn in Hs1; rewrite Hpn;
    set (s1 := setPathNodes _ s) in *;
    pose proof (eq_refl : PathNodes s1 = _) as Hpn1; cbn in Hpn1.
  - (* a block of a sub-loop *)
    apply Hpopped. intros t'. unfold outOfSubLoop.
    apply ok_forEach; [|done|done]. intros Succ _ t t2 Ht Hpt.
    destruct (_ || negb (contains CurLoop Succ)) eqn:HC.
    { by intros [= <-]. }
    apply orb_false_iff in HC as [_ HC%negb_false_iff].
    apply ok_visitSuccessor; try done. intros J. by apply Hrec'.
  - apply Hpopped. intros t'.
    destruct (hasEquivalencePoint F I) as [E|] eqn:HE.
    + unfold atEquivalencePoint. intros Hrun.
      apply andThen_true in Hrun as (t1 & Ha & Hrun).
      destruct (ok_add _ E false Hne s1 t1 Hs1 Hpn1 Ha) as [Ht1 Hpt1].
      pose proof (Heq t1 Ht1) as Ht2.
      destruct (negb (isTerminator F E)).
      * injection Hrun as <-. split; [by apply Hnew|done].
      * revert Hrun. apply ok_forEach; [|done|done].
        intros Succ _. apply ok_queueSuccessor; [done|].
        intros J. by apply Hrec'.
    + destruct (count Latches BB).
      * unfold atLatch. intros Hrun.
        apply andThen_true in Hrun as (t1 & Ha & Hrun).
        destruct (ok_add _ _ true Hne s1 t1 Hs1 Hpn1 Ha) as [Ht1 Hpt1].
        destruct SAH eqn:HSAH; injection Hrun as <-.
        -- split; [by apply Hsp|done].
        -- split; [by apply Heq|done].
      * unfold intoSuccessors.
        apply ok_forEach; [|done|done]. intros Succ _ t t2 Ht Hpt.
        destruct (negb (contains CurLoop Succ)) eqn:HC.
        { by intros [= <-]. }
        apply negb_false_iff in HC.
        apply ok_visitSuccessor; try done. intros J. by apply Hrec'.
Qed.

(** A search that returns [true] from a state of the invariant leaves a
    state of the invariant, and the stack of path nodes as it found it. *)
Lemma loopDFS_rule depth I s s' :
  Inv s → Pre I s → dfs depth I s = Some (true, s') →
  Inv s' ∧ PathNodes s' = PathNodes s.
Proof.
  revert I s s'. induction depth as [|depth IH]; intros I s s' Hs HI; [done|].
  cbn [loopDFS]. apply ok_body; [|done|done|done].
  intros J pn' Hne t t' Ht Hpt Hrun.
  destruct (IH J t t' Ht) as [H1 H2]; [apply Hrec; by rewrite ?Hpt|done|].
  split; [done|]. by rewrite H2.
Qed.

End Rule.

Section RuleUses.
Variable F : Function.
Variable LI : list Loop.
Variable MaxNumPaths : nat.

#[local] Arguments loopDFS : simpl never.

(** The stack of path nodes behind a search that returns [true]. *)
Lemma loopDFS_keeps_stack CurLoop Latches SubLoopBlocks Start SAH
    depth I s s' :
  loopDFS F LI MaxNumPaths CurLoop Latches SubLoopBlocks Start SAH depth I s
    = Some (true, s') →
  PathNodes s' = PathNodes s.
Proof.
  intros Hrun.
  by destruct (loopDFS_rule F LI MaxNumPaths CurLoop Latches SubLoopBlocks
                 Start SAH (λ _, True) (λ _ _, True)
                 ltac:(done) ltac:(done) ltac:(done) ltac:(done) ltac:(done)
                 ltac:(done) ltac:(done) ltac:(done) depth I s s'
                 Logic.I Logic.I Hrun).
Qed.

(** X10.  A search that returns [true] leaves the stack of path nodes as it
    found it: every node it pushed is popped again, whatever the function
    and the loops are.  So the assertion of [analyzeLoop] behind every call,
    that the stack is empty, holds. *)
Theorem loopDFS_restores_stack CurLoop Latches SubLoopBlocks Start SAH
    depth I s s' :
  loopDFS F LI MaxNumPaths CurLoop Latches SubLoopBlocks Start SAH depth I s
    = Some (true, s') →
  PathNodes s' = PathNodes s.
Proof. apply loopDFS_keeps_stack. Qed.

(** The rule for the [while] loop of [analyzeLoop] and for [analyzeLoop]. *)
Lemma drain_rule L (AInv : State → Prop) n s s' :
  (∀ Start t t', AInv t → PathNodes t = [] →
     loopDFS F LI MaxNumPaths L (getLoopLatches F L) (getSubBlocks L)
             Start false (depthOf LI L) Start t = Some (true, t') →
     AInv t') →
  (∀ t l, AInv t → AInv (setNewPaths l t)) →
  AInv s → PathNodes s = [] →
  drain F LI MaxNumPaths L (getLoopLatches F L) (getSubBlocks L) n s
    = Returned true s' →
  AInv s'.
Proof.
  intros Hdfs Hdq. revert s. induction n as [|n IH]; intros s Hs Hpn.
  - simpl. destruct (NewPaths s); [|done]. by intros [= <-].
  - simpl. destruct (NewPaths s) as [|St rest]; [by intros [= <-]|].
    destruct (loopDFS _ _ _ _ _ _ _ _ _ _ _) as [[[] s1]|] eqn:Hrun;
      [|done|done].
    apply IH.
    + apply (Hdfs St (setNewPaths rest s) s1); [by apply Hdq|done|exact Hrun].
    + by rewrite (loopDFS_keeps_stack _ _ _ _ _ _ _ _ _ Hrun).
Qed.

Lemma analyzeLoop_rule L (AInv : State → Prop) n s s' :
  (∀ t t', AInv t → PathNodes t = [] →
     loopDFS F LI MaxNumPaths L (getLoopLatches F L) (getSubBlocks L)
             (front (getHeader L)) true (depthOf LI L) (front (getHeader L)) t
       = Some (true, t') →
     AInv t') →
  (∀ Start t t', AInv t → PathNodes t = [] →
     loopDFS F LI MaxNumPaths L (getLoopLatches F L) (getSubBlocks L)
             Start false (depthOf LI L) Start t = Some (true, t') →
     AInv t') →
  (∀ t l, AInv t → AInv (setNewPaths l t)) →
  AInv (clearLoop L s) →
  analyzeLoop F LI MaxNumPaths n L s = Returned true s' →
  AInv s'.
Proof.
  intros Hhead Hdfs Hdq Hs. unfold analyzeLoop.
  destruct (loopDFS _ _ _ _ _ _ _ _ _ _ _) as [[[] s1]|] eqn:Hrun;
    [|done|done].
  apply drain_rule; try done.
  - by eapply Hhead.
  - by rewrite (loopDFS_keeps_stack _ _ _ _ _ _ _ _ _ Hrun).
Qed.

(** **** The entries of the summaries *)

Lemma entry_flag m l b : flag m l b = default false (entry m l b).
Proof. unfold flag, entry. by destruct (m !! l). Qed.

Lemma entry_setTrue m l b b' :
  entry (setTrue m l b) l b' = if decide (b = b') then Some true
                               else entry m l b'.
Proof.
  unfold entry, setTrue. rewrite lookup_insert_eq.
  destruct (decide (b = b')) as [->|Hne].
  - by rewrite lookup_insert_eq.
  - rewrite lookup_insert_ne by done. by destruct (m !! l).
Qed.

Lemma onlyTrue_markPath L Sub m nodes :
  onlyTrue m (loopId L) → onlyTrue (markPath L Sub m nodes) (loopId L).
Proof.
  unfold markPath. revert m. induction nodes as [|n nodes IH]; intros m Hm.
  - done.
  - simpl. apply IH. destruct (negb (count Sub (getBlock n))); [|done].
    intros b v. rewrite entry_setTrue. destruct (decide _); [congruence|].
    apply Hm.
Qed.

Lemma visitExits_other SubLoop k exits acc :
  k ≠ loopId SubLoop →
  HasSpPath (fold_left (visitExit F SubLoop) exits acc).2 !! k
    = HasSpPath acc.2 !! k ∧
  HasEqPointPath (fold_left (visitExit F SubLoop) exits acc).2 !! k
    = HasEqPointPath acc.2 !! k.
Proof.
  intros Hk. revert acc. induction exits as [|x exits IH]; intros acc; [done|].
  cbn [fold_left]. destruct (IH (visitExit F SubLoop acc x)) as [-> ->].
  destruct acc as [[E Sp] t]. rewrite visitExit_eq. cbn [snd].
  cbn [HasSpPath HasEqPointPath setHasEqPointPath setHasSpPath index snd].
  by rewrite !lookup_insert_ne.
Qed.

Lemma getSubLoopSuccessors_other Succ k s :
  (∀ Sub, getLoopFor LI Succ = Some Sub → loopId Sub ≠ k) →
  HasSpPath (getSubLoopSuccessors F LI Succ s).2 !! k = HasSpPath s !! k ∧
  HasEqPointPath (getSubLoopSuccessors F LI Succ s).2 !! k
    = HasEqPointPath s !! k.
Proof.
  intros Hk. unfold getSubLoopSuccessors.
  destruct (getLoopFor LI Succ) as [Sub|]; [|done].
  apply (visitExits_other Sub k _ ([], [], s)). intros ->. by eapply Hk.
Qed.

(** X11.  After the successful analysis of a loop, the two maps of the
    summaries hold for that loop no entry other than [true]: a block
    without a path of the kind has no entry at all.  So the lookup of
    [spanningPathThroughBlock] and of [eqPointPathThroughBlock] finds an
    entry, which is [true], exactly for the blocks the summary flags; for
    every other block of the loop [find] returns the end of the map.  (The
    loops the reads of [getSubLoopSuccessors] look at are taken to be other
    loops than the analysed one.) *)
Theorem analyzeLoop_entries n L s s' BB :
  (∀ Succ Sub, contains L Succ = true → count (getSubBlocks L) Succ = true →
               getLoopFor LI Succ = Some Sub → loopId Sub ≠ loopId L) →
  analyzeLoop F LI MaxNumPaths n L s = Returned true s' →
  spanningPathThroughBlock s' L BB
    = (if contains L BB && flag (HasSpPath s') (loopId L) BB
       then Some true else None) ∧
  eqPointPathThroughBlock s' L BB
    = (if contains L BB && flag (HasEqPointPath s') (loopId L) BB
       then Some true else None).
Proof.
  intros Hids Hrun.
  pose proof (analyzeLoop_kept F LI MaxNumPaths n L s) as Hk.
  rewrite Hrun in Hk. destruct Hk as [_ HL].
  assert (Hinv : onlyTrue (HasSpPath s') (loopId L) ∧
                 onlyTrue (HasEqPointPath s') (loopId L)).
  { assert (Hsearch : ∀ St sah d I t t',
      onlyTrue (HasSpPath t) (loopId L) ∧
        onlyTrue (HasEqPointPath t) (loopId L) →
      loopDFS F LI MaxNumPaths L (getLoopLatches F L) (getSubBlocks L)
              St sah d I t = Some (true, t') →
      onlyTrue (HasSpPath t') (loopId L) ∧
        onlyTrue (HasEqPointPath t') (loopId L)).
    { intros St sah d I t t' Ht Hdfs.
      apply (loopDFS_rule F LI MaxNumPaths L (getLoopLatches F L)
               (getSubBlocks L) St sah
               (λ t, onlyTrue (HasSpPath t) (loopId L) ∧
                     onlyTrue (HasEqPointPath t) (loopId L))
               (λ _ _, True)) in Hdfs; try done.
      - by destruct Hdfs.
      - intros t0 _ [H1 H2]. split; [|done]. by apply onlyTrue_markPath.
      - intros t0 [H1 H2]. split; [done|]. by apply onlyTrue_markPath.
      - intros t0 Succ HC HS [H1 H2].
        destruct (getSubLoopSuccessors_other Succ (loopId L) t0) as [E1 E2].
        { intros Sub. by apply Hids. }
        unfold onlyTrue, entry in *. rewrite E1, E2. done. }
    apply (analyzeLoop_rule L
             (λ t, onlyTrue (HasSpPath t) (loopId L) ∧
                   onlyTrue (HasEqPointPath t) (loopId L)) n s s');
      try done.
    - intros t t' Ht _. by apply Hsearch.
    - intros St t t' Ht _. by apply Hsearch.
    - unfold onlyTrue, entry. cbn. rewrite !lookup_insert_eq.
      split; intros b v; by rewrite lookup_empty. }
  destruct Hinv as [H1 H2].
  unfold spanningPathThroughBlock, eqPointPathThroughBlock, hasPaths.
  rewrite bool_decide_eq_true_2 by done. rewrite !entry_flag. cbn [andb].
  destruct (contains L BB); [|done]. cbn [andb]. split.
  - destruct (entry (HasSpPath s') (loopId L) BB) as [v|] eqn:He; [|done].
    by rewrite (H1 BB v He).
  - destruct (entry (HasEqPointPath s') (loopId L) BB) as [v|] eqn:He; [|done].
    by rewrite (H2 BB v He).
Qed.

(** **** Where a path starts *)

Lemma head_insertNodes l acc :
  head (fold_left insertNode l acc) = head (acc ++ l).
Proof.
  revert acc. induction l as [|x l IH]; intros acc.
  - by rewrite app_nil_r.
  - simpl. rewrite IH. unfold insertNode.
    destruct (bool_decide (x ∈ acc)) eqn:Hx.
    + apply bool_decide_eq_true in Hx. destruct acc; [inversion Hx|done].
    + by rewrite <- app_assoc.
Qed.

(** X12.  Every path stored by a successful analysis of a loop begins in
    the block of its start instruction, and a path from the header starts at
    the first instruction of the header.  With the end of the path, which
    lies in its last block, the assertions of the constructor of [LoopPath]
    hold at every call. *)
Theorem analyzeLoop_path_starts n L s s' p :
  analyzeLoop F LI MaxNumPaths n L s = Returned true s' →
  p ∈ CurPaths L s' →
  startsWell L p.
Proof.
  intros Hrun Hp.
  assert (Hsearch : ∀ St sah t t',
    (sah = true → St = front (getHeader L)) →
    Forall (startsWell L) (CurPaths L t) → PathNodes t = [] →
    loopDFS F LI MaxNumPaths L (getLoopLatches F L) (getSubBlocks L)
            St sah (depthOf LI L) St t = Some (true, t') →
    Forall (startsWell L) (CurPaths L t')).
  { intros St sah t t' Hsah Ht Hpn Hdfs.
    apply (loopDFS_rule F LI MaxNumPaths L (getLoopLatches F L)
             (getSubBlocks L) St sah
             (λ t, (∀ n, head (PathNodes t) = Some n →
                         getBlock n = getParent St) ∧
                   Forall (startsWell L) (CurPaths L t))
             (λ I t, PathNodes t = [] → I = St)) in Hdfs.
    - by destruct Hdfs as [[_ ?] _].
    - intros I t0 [H1 H2] HI _. split; [|done]. cbn.
      destruct (PathNodes t0) as [|m pn] eqn:Ht0.
      + intros nd [= <-]. by rewrite HI.
      + intros nd [= <-]. by apply H1.
    - intros t0 pn n0 [H1 H2] Ht0. split; [|done]. cbn. intros nd Hn.
      apply H1. rewrite Ht0. by destruct pn.
    - intros t0 E eab [H1 H2] Hne _. split; [done|].
      rewrite CurPaths_emplace_back. apply Forall_app. split; [done|].
      constructor; [|done]. split; [|done]. cbn.
      rewrite head_insertNodes. cbn.
      destruct (PathNodes t0) as [|m pn]; [done|]. exists m.
      split; [done|]. by apply H1.
    - done.
    - done.
    - done.
    - intros t0 Succ _ _ [H1 H2].
      destruct (getSubLoopSuccessors F LI Succ t0) as [[Es Sp] t1] eqn:Hg.
      apply getSubLoopSuccessors_spec in Hg as ((HP & HN & _) & _).
      cbn. unfold CurPaths in *. by rewrite HP, HN.
    - intros t0 J _ Hne Hnil. done.
    - split; [|done]. by rewrite Hpn.
    - done. }
  assert (Hall : Forall (startsWell L) (CurPaths L s')).
  { apply (analyzeLoop_rule L (λ t, Forall (startsWell L) (CurPaths L t))
             n s s'); try done.
    - intros t t' Ht Hpn. by apply Hsearch.
    - intros St t t' Ht Hpn. by apply Hsearch.
    - rewrite CurPaths_clearLoop. constructor. }
  rewrite Forall_forall in Hall. by apply Hall.
Qed.

(** **** A run starts from nothing *)

Lemma clearLoop_sameResults L s1 s2 :
  sameResults s1 s2 → clearLoop L s1 = clearLoop L s2.
Proof.
  intros (H1 & H2 & H3 & H4 & H5). unfold clearLoop. destruct s1, s2.
  simpl in *. by subst.
Qed.

Lemma analyzeLoop_sameResults n L s1 s2 :
  sameResults s1 s2 →
  analyzeLoop F LI MaxNumPaths n L s1 = analyzeLoop F LI MaxNumPaths n L s2.
Proof.
  intros H. unfold analyzeLoop. by rewrite (clearLoop_sameResults L s1 s2 H).
Qed.

Lemma sameOutcome_refl r : sameOutcome r r.
Proof. by destruct r. Qed.

Section Order.
Variable LoopNestOrder : list Loop → list Loop.

Lemma searchNest_sameResults n Nest s1 s2 :
  sameResults s1 s2 →
  sameOutcome (searchNest F LI MaxNumPaths n Nest s1)
              (searchNest F LI MaxNumPaths n Nest s2).
Proof.
  intros H. destruct Nest as [|L Nest]; [done|]. cbn [searchNest].
  rewrite (analyzeLoop_sameResults n L _
             (setPaths (<[loopId L := default [] (Paths s2 !! loopId L)]>
                          (Paths s2)) s2)).
  - apply sameOutcome_refl.
  - destruct H as (H1 & H2 & H3 & H4 & H5). unfold sameResults. cbn.
    by rewrite H1.
Qed.

Lemma searchNests_sameResults n Nests s1 s2 :
  sameResults s1 s2 →
  sameOutcome (searchNests F LI MaxNumPaths LoopNestOrder n Nests s1)
              (searchNests F LI MaxNumPaths LoopNestOrder n Nests s2).
Proof.
  revert s1 s2. induction Nests as [|Nest Nests IH]; intros s1 s2 H; [done|].
  cbn [searchNests].
  pose proof (searchNest_sameResults n (LoopNestOrder Nest) s1 s2 H) as Hn.
  destruct (searchNest F LI MaxNumPaths n (LoopNestOrder Nest) s1)
    as [ok1 t1|t1],
    (searchNest F LI MaxNumPaths n (LoopNestOrder Nest) s2) as [ok2 t2|t2];
    try done.
  destruct Hn as [-> Ht]. unfold analysisFailed.
  destruct Ht as (H1 & H2 & H3 & H4 & H5). rewrite H4, H5.
  destruct (_ || _); [done|]. by apply IH.
Qed.

(** X13.  A run of [runOnFunction] starts from nothing: its results (the
    stored paths, the two summaries and the two failure flags) and what it
    returns do not depend on what the pass held before the run. *)
Theorem runOnFunction_from_scratch n s :
  sameOutcome (runOnFunction F LI MaxNumPaths LoopNestOrder n s)
              (runOnFunction F LI MaxNumPaths LoopNestOrder n initial).
Proof.
  unfold runOnFunction.
  pose proof (searchNests_sameResults n (map populateLoopNest LI)
                (setDetectedCycle false (setTooManyPaths false (reset s)))
                (setDetectedCycle false (setTooManyPaths false (reset initial)))
                ltac:(done)) as H.
  destruct (searchNests _ _ _ _ _ _ (setDetectedCycle false
              (setTooManyPaths false (reset s)))) as [ok1 t1|t1],
    (searchNests _ _ _ _ _ _ (setDetectedCycle false
              (setTooManyPaths false (reset initial)))) as [ok2 t2|t2];
    try done.
  destruct H as [_ (H1 & H2 & H3 & H4 & H5)]. split; [done|].
  rewrite H4.
  destruct (TooManyPaths t2) eqn:HT; cbn [DetectedCycle reset setPaths
    setHasSpPath setHasEqPointPath]; rewrite H5;
    destruct (DetectedCycle t2) eqn:HD; unfold sameResults; cbn;
    rewrite ?H4, ?H5, ?HT, ?HD; by split_and!.
Qed.

End Order.

End RuleUses.

Lemma loopDFS_restores_stack_witness :
  PathNodes endLatchSearched = PathNodes (clearLoop endLatchL initial).
Proof.
  apply (loopDFS_restores_stack endLatchF [endLatchL] 10000 endLatchL
           (getLoopLatches endLatchF endLatchL) (getSubBlocks endLatchL)
           (front 0) true 1 (front 0) (clearLoop endLatchL initial)
           endLatchSearched).
  reflexivity.
Defined.

Lemma analyzeLoop_entries_witness :
  spanningPathThroughBlock nestedOuterDone outerL 0
    = (if contains outerL 0 && flag (HasSpPath nestedOuterDone) (loopId outerL) 0
       then Some true else None) ∧
  eqPointPathThroughBlock nestedOuterDone outerL 0
    = (if contains outerL 0
          && flag (HasEqPointPath nestedOuterDone) (loopId outerL) 0
       then Some true else None).
Proof.
  apply (analyzeLoop_entries nestedF [outerL] 10000 8 outerL nestedInnerDone
           nestedOuterDone 0).
  - intros Succ Sub HC HS. apply bool_decide_eq_true in HS.
    apply list_elem_of_singleton in HS as ->. by intros [= <-].
  - vm_compute. reflexivity.
Defined.

Lemma analyzeLoop_path_starts_witness : startsWell outerL nestedCut.
Proof.
  apply (analyzeLoop_path_starts nestedF [outerL] 10000 8 outerL
           nestedInnerDone nestedOuterDone).
  - vm_compute. reflexivity.
  - vm_compute. left.
Defined.

(** *** The analysis of a loop ends *)

Section Termination.
Variable F : Function.
Variable LI : list Loop.
Variable MaxNumPaths : nat.
Variable CurLoop : Loop.
Variables Latches SubLoopBlocks : list BasicBlock.
Variable Start : Instruction.
Variable SAH : bool.

Local Abbreviation dfs :=
  (loopDFS F LI MaxNumPaths CurLoop Latches SubLoopBlocks Start SAH).
Local Abbreviation body :=
  (loopDFS_body F LI MaxNumPaths CurLoop Latches SubLoopBlocks Start SAH).
Local Abbreviation add := (addPath MaxNumPaths CurLoop Start SAH).
Local Abbreviation K := (startsPerPath F LI CurLoop).

#[local] Arguments startsPerPath : simpl never.
Local Abbreviation pays := (pays F LI CurLoop).
Local Abbreviation costs k c :=
  (∀ s s', c s = Some (true, s') → LoopPaths.pays F LI CurLoop k s s').

Lemma pays_refl s : pays 0 s s.
Proof. unfold LoopPaths.pays. lia. Qed.

Lemma pays_trans k1 k2 s s1 s2 :
  pays k1 s s1 → pays k2 s1 s2 → pays (k1 + k2) s s2.
Proof. unfold LoopPaths.pays. lia. Qed.

Lemma pays_more k k' s s' : k ≤ k' → pays k s s' → pays k' s s'.
Proof. unfold LoopPaths.pays. lia. Qed.

Lemma pays_same k s s' :
  Paths s' = Paths s → NewPaths s' = NewPaths s → pays k s s'.
Proof.
  intros HP HN. unfold LoopPaths.pays, CurPaths. rewrite HP, HN. lia.
Qed.

Lemma costs_forEach {A} (w : A → nat) (f : A → State → option (bool * State))
    xs :
  (∀ x, x ∈ xs → costs (w x) (f x)) →
  costs (list_sum (map w xs)) (forEach f xs).
Proof.
  induction xs as [|x xs IH]; intros Hf s s'; simpl.
  - intros [= <-]. apply pays_refl.
  - destruct (f x s) as [[[] s1]|] eqn:Hx; [|done|done]. intros Hrun.
    eapply pays_trans; [by apply (Hf x ltac:(by left))|].
    apply IH; [|done]. intros y Hy. apply Hf. by right.
Qed.

Lemma costs_forEach_0 {A} (f : A → State → option (bool * State)) xs :
  (∀ x, x ∈ xs → costs 0 (f x)) → costs 0 (forEach f xs).
Proof.
  intros Hf s s' Hrun. apply (costs_forEach (λ _, 0)) in Hrun; [|done].
  eapply pays_more; [|exact Hrun].
  clear. induction xs; simpl; lia.
Qed.

Lemma length_pushIfNotPresent I l :
  length l ≤ length (pushIfNotPresent I l) ≤ S (length l).
Proof.
  unfold pushIfNotPresent. destruct (bool_decide _); [lia|].
  rewrite length_app. simpl. lia.
Qed.

Lemma pays_pushNew I s : pays 1 s (pushNew I s).
Proof.
  unfold LoopPaths.pays. rewrite CurPaths_pushNew. cbn.
  pose proof (length_pushIfNotPresent I (NewPaths s)). lia.
Qed.

Lemma pays_add E eab s s1 :
  add E eab s = Some (true, s1) →
  length (CurPaths CurLoop s1) = S (length (CurPaths CurLoop s)) ∧
  NewPaths s1 = NewPaths s.
Proof.
  intros [-> _]%addPath_true. rewrite CurPaths_emplace_back, length_app.
  simpl. split; [lia|done].
Qed.

Lemma pays_reads Succ s :
  pays 0 s (getSubLoopSuccessors F LI Succ s).2 ∧
  length (getSubLoopSuccessors F LI Succ s).1.1 ≤ exitsBehind F LI Succ.
Proof.
  split.
  - destruct (getSubLoopSuccessors F LI Succ s) as [[E Sp] s'] eqn:Hs.
    apply getSubLoopSuccessors_spec in Hs as ((HP & _ & HN & _) & _).
    by apply pays_same.
  - unfold exitsBehind.
    destruct (getLoopFor LI Succ) as [Sub|] eqn:HL.
    + destruct (getSubLoopSuccessors_filter F LI Succ Sub s HL) as [-> _].
      rewrite length_map. apply List.filter_length_le.
    + unfold getSubLoopSuccessors. by rewrite HL.
Qed.

Lemma pays_pushAll (Is : list Instruction) s :
  pays (length Is) s (fold_left (λ s SLE, pushNew SLE s) Is s).
Proof.
  revert s. induction Is as [|J Is IH]; intros s; [apply pays_refl|].
  cbn [fold_left length]. change (S (length Is)) with (1 + length Is).
  eapply pays_trans; [apply pays_pushNew|apply IH].
Qed.

Lemma costs_throughSubLoop rec BB Succ :
  (∀ J, valid F LI CurLoop J → costs 0 (rec J)) →
  costs 0 (throughSubLoop F LI MaxNumPaths CurLoop Start SAH rec BB Succ).
Proof.
  intros Hrec s s'. unfold throughSubLoop.
  destruct (pays_reads Succ s) as [Hpay _].
  destruct (getSubLoopSuccessors F LI Succ s) as [[Es Sp] s0] eqn:Hg.
  apply getSubLoopSuccessors_spec in Hg as (_ & _ & HSp).
  cbn [fst snd] in *. intros Hrun.
  apply andThen_true in Hrun as (s1 & H1 & H2).
  assert (P1 : pays 0 s0 s1).
  { revert H1. apply costs_forEach_0. intros SLE _ t t' Ht.
    apply andThen_true in Ht as (t1 & Ha & [= <-]).
    apply pays_add in Ha as [Hl HN].
    pose proof (pays_pushNew SLE t1) as Hp. unfold LoopPaths.pays in *.
    rewrite CurPaths_pushNew in *. rewrite Hl in *. rewrite HN in *.
    unfold startsPerPath in *. lia. }
  assert (P2 : pays 0 s1 s').
  { revert H2. apply costs_forEach_0. intros J HJ. apply Hrec.
    rewrite Forall_forall in HSp. eapply exitOf_valid. by apply HSp. }
  unfold LoopPaths.pays in *. lia.
Qed.

Lemma costs_queueSuccessor rec Succ :
  (∀ J, valid F LI CurLoop J → costs 0 (rec J)) →
  costs (S (exitsBehind F LI Succ))
        (queueSuccessor F LI CurLoop SubLoopBlocks rec Succ).
Proof.
  intros Hrec s s'. unfold queueSuccessor.
  destruct (_ || _).
  { intros [= <-]. eapply pays_more; [|apply pays_refl]. lia. }
  destruct (negb _).
  { intros [= <-]. eapply pays_more; [|apply pays_pushNew]. lia. }
  destruct (pays_reads Succ s) as [Hpay Hlen].
  destruct (getSubLoopSuccessors F LI Succ s) as [[Es Sp] s0] eqn:Hg.
  apply getSubLoopSuccessors_spec in Hg as (_ & _ & HSp).
  cbn [fst snd] in *. intros Hrun.
  pose proof (pays_pushAll Es s0) as P1.
  assert (P2 : pays 0 (fold_left (λ s SLE, pushNew SLE s) Es s0) s').
  { revert Hrun. apply costs_forEach_0. intros J HJ. apply Hrec.
    rewrite Forall_forall in HSp. eapply exitOf_valid. by apply HSp. }
  unfold LoopPaths.pays in *. lia.
Qed.

Lemma startsBehind_le BB :
  BB ∈ reachable LI CurLoop → startsBehind F LI BB < K.
Proof.
  intros HBB. unfold startsPerPath.
  pose proof (proj1 (list_max_le (map (startsBehind F LI)
                                      (reachable LI CurLoop)) _)
                    (le_n _)) as Hall.
  rewrite List.Forall_forall in Hall.
  specialize (Hall (startsBehind F LI BB)).
  assert (startsBehind F LI BB
          ≤ list_max (map (startsBehind F LI) (reachable LI CurLoop))).
  { apply Hall. apply in_map. by apply list_elem_of_In. }
  lia.
Qed.

Lemma costs_visitSuccessor rec BB Succ :
  (∀ J, valid F LI CurLoop J → costs 0 (rec J)) →
  contains CurLoop Succ = true →
  costs 0 (λ s, if negb (count SubLoopBlocks Succ) then rec (front Succ) s
                else throughSubLoop F LI MaxNumPaths CurLoop Start SAH rec
                                    BB Succ s).
Proof.
  intros Hrec HC s s'. destruct (negb _).
  - apply Hrec. by apply valid_front, contains_reachable.
  - by apply costs_throughSubLoop.
Qed.

Lemma costs_body rec I :
  valid F LI CurLoop I →
  (∀ J, valid F LI CurLoop J → costs 0 (rec J)) → costs 0 (body rec I).
Proof.
  intros HI Hrec s s'. unfold loopDFS_body.
  assert (Hpop : ∀ r t,
    pays 0 s t → (∀ t', r = Some (true, t') → pays 0 t t') →
    andThen r pop_back = Some (true, s') → pays 0 s s').
  { intros r t Hst Hr Hrun. apply andThen_true in Hrun as (t' & -> & [= <-]).
    specialize (Hr t' eq_refl). unfold LoopPaths.pays, CurPaths in *. cbn.
    lia. }
  destruct (negb (count SubLoopBlocks (getParent I)));
    (destruct (pathContains (PathNodes s) (getParent I)); [done|]);
    match goal with
    | |- andThen _ _ = _ → _ => eapply Hpop; [apply pays_same; done|]
    end; intros t'.
  - destruct (hasEquivalencePoint F I) as [E|].
    + unfold atEquivalencePoint. intros Hrun.
      apply andThen_true in Hrun as (t1 & Ha & Hrun).
      apply pays_add in Ha as [Hl HN].
      pose proof (startsBehind_le (getParent I) (proj2 HI)) as HK.
      destruct (negb (isTerminator F E)).
      * injection Hrun as <-.
        pose proof (pays_pushNew (getNextNode E)
                      (setHasEqPointPath
                         (markPath CurLoop SubLoopBlocks (HasEqPointPath t1)
                                   (PathNodes t1)) t1)) as Hp.
        unfold LoopPaths.pays in *. rewrite CurPaths_pushNew in *.
        rewrite CurPaths_setHasEqPointPath in *. cbn in *.
        rewrite Hl, HN in *. unfold CurPaths in *. cbn in *. nia.
      * apply (costs_forEach (λ Succ, S (exitsBehind F LI Succ))) in Hrun.
        2:{ intros Succ _. by apply costs_queueSuccessor. }
        fold (startsBehind F LI (getParent I)) in Hrun.
        unfold LoopPaths.pays in *. rewrite CurPaths_setHasEqPointPath in *.
        cbn in *. rewrite Hl, HN in *. unfold CurPaths in *. cbn in *. nia.
    + destruct (count Latches (getParent I)).
      * unfold atLatch. intros Hrun.
        apply andThen_true in Hrun as (t1 & Ha & Hrun).
        apply pays_add in Ha as [Hl HN].
        destruct SAH; injection Hrun as <-; unfold LoopPaths.pays;
          rewrite ?CurPaths_setHasSpPath, ?CurPaths_setHasEqPointPath; cbn;
          rewrite Hl, HN; unfold CurPaths; cbn; nia.
      * unfold intoSuccessors. apply costs_forEach_0. intros Succ _ t t2.
        destruct (negb (contains CurLoop Succ)) eqn:HC.
        { intros [= <-]. apply pays_refl. }
        apply negb_false_iff in HC. by apply costs_visitSuccessor.
  - unfold outOfSubLoop. apply costs_forEach_0. intros Succ _ t t2.
    destruct (_ || negb (contains CurLoop Succ)) eqn:HC.
    { intros [= <-]. apply pays_refl. }
    apply orb_false_iff in HC as [_ HC%negb_false_iff].
    by apply costs_visitSuccessor.
Qed.

Lemma loopDFS_costs depth I : valid F LI CurLoop I → costs 0 (dfs depth I).
Proof.
  revert I. induction depth as [|depth IH]; intros I HI; [done|].
  cbn [loopDFS]. by apply costs_body.
Qed.

End Termination.

Section AnalysisEnds.
Variable F : Function.
Variable LI : list Loop.
Variable MaxNumPaths : nat.

#[local] Arguments loopDFS : simpl never.
#[local] Arguments startsPerPath : simpl never.

Lemma loopDFS_ceiling L Start SAH depth I s s' :
  length (CurPaths L s) ≤ MaxNumPaths →
  loopDFS F LI MaxNumPaths L (getLoopLatches F L) (getSubBlocks L)
          Start SAH depth I s = Some (true, s') →
  length (CurPaths L s') ≤ MaxNumPaths.
Proof.
  intros Hs Hrun.
  apply (loopDFS_rule F LI MaxNumPaths L (getLoopLatches F L)
           (getSubBlocks L) Start SAH
           (λ t, length (CurPaths L t) ≤ MaxNumPaths) (λ _ _, True))
    in Hrun; try done.
  - by destruct Hrun.
  - intros t Succ _ _ Ht.
    destruct (getSubLoopSuccessors F LI Succ t) as [[Es Sp] t1] eqn:Hg.
    apply getSubLoopSuccessors_spec in Hg as ((HP & _) & _).
    cbn. unfold CurPaths in *. by rewrite HP.
Qed.

Lemma loopDFS_valid_starts L Start SAH depth I s s' :
  valid F LI L I → PathNodes s = [] →
  Forall (valid F LI L) (NewPaths s) →
  loopDFS F LI MaxNumPaths L (getLoopLatches F L) (getSubBlocks L)
          Start SAH depth I s = Some (true, s') →
  Forall (valid F LI L) (NewPaths s').
Proof.
  intros HI Hpn Hv Hrun.
  apply loopDFS_traced with (pn := []) in Hrun as [_ Hev];
    [|done|apply wfPath_nil|done].
  apply events_steps, steps_frame in Hev as (_ & _ & _ & _ & H). by apply H.
Qed.

Lemma drain_returns L n s :
  PathNodes s = [] → Forall (valid F LI L) (NewPaths s) →
  length (CurPaths L s) ≤ MaxNumPaths →
  searchesLeft F LI MaxNumPaths L s ≤ n →
  ∃ ok s', drain F LI MaxNumPaths L (getLoopLatches F L) (getSubBlocks L) n s
           = Returned ok s'.
Proof.
  revert s. induction n as [|n IH]; intros s Hpn Hv Hlen Hleft; simpl.
  - unfold searchesLeft in Hleft.
    destruct (NewPaths s) as [|I rest]; [eauto|]. cbn [length] in Hleft.
    set (x := _ * _) in Hleft. lia.
  - destruct (NewPaths s) as [|I rest] eqn:HN; [eauto|].
    assert (HI : valid F LI L I) by by inversion Hv.
    destruct (loopDFS_returns F LI MaxNumPaths L I false I
                (setNewPaths rest s) HI Hpn) as [[[] s1] Hdfs];
      rewrite Hdfs; [|eauto].
    apply IH.
    + by rewrite (loopDFS_keeps_stack _ _ _ _ _ _ _ _ _ _ _ _ Hdfs).
    + apply (loopDFS_valid_starts L I false (depthOf LI L) I
               (setNewPaths rest s) s1 HI Hpn); [|exact Hdfs].
      simpl. by inversion Hv.
    + exact (loopDFS_ceiling L I false (depthOf LI L) I (setNewPaths rest s)
               s1 Hlen Hdfs).
    + pose proof (loopDFS_ceiling L I false (depthOf LI L) I
                    (setNewPaths rest s) s1 Hlen Hdfs) as Hlen1.
      apply loopDFS_costs in Hdfs as [Hle Hpay]; [|done].
      unfold searchesLeft in *. rewrite HN in Hleft.
      change (CurPaths L (setNewPaths rest s)) with (CurPaths L s) in *.
      cbn [NewPaths setNewPaths length] in *.
      set (k := startsPerPath F LI L) in *.
      assert (MaxNumPaths - length (CurPaths L s)
              = (MaxNumPaths - length (CurPaths L s1))
                + (length (CurPaths L s1) - length (CurPaths L s))) as E by lia.
      assert (k * length (CurPaths L s1)
              = k * length (CurPaths L s)
                + k * (length (CurPaths L s1) - length (CurPaths L s)))
        as E1 by nia.
      rewrite E in Hleft. nia.
Qed.

Lemma analyzeLoop_returns n L s :
  startsPerPath F LI L * MaxNumPaths ≤ n →
  ∃ ok s', analyzeLoop F LI MaxNumPaths n L s = Returned ok s'.
Proof.
  intros Hn. unfold analyzeLoop.
  assert (HI : valid F LI L (front (getHeader L)))
    by (apply valid_front; by left).
  destruct (loopDFS_returns F LI MaxNumPaths L (front (getHeader L)) true
              (front (getHeader L)) (clearLoop L s) HI eq_refl)
    as [[[] s1] Hdfs]; rewrite Hdfs; [|eauto].
  assert (Hlen : length (CurPaths L (clearLoop L s)) ≤ MaxNumPaths).
  { rewrite CurPaths_clearLoop. simpl. lia. }
  apply drain_returns.
  - by rewrite (loopDFS_keeps_stack _ _ _ _ _ _ _ _ _ _ _ _ Hdfs).
  - apply (loopDFS_valid_starts L (front (getHeader L)) true (depthOf LI L)
             (front (getHeader L)) (clearLoop L s) s1 HI eq_refl);
      [|exact Hdfs]. constructor.
  - exact (loopDFS_ceiling L _ true _ _ (clearLoop L s) s1 Hlen Hdfs).
  - pose proof (loopDFS_ceiling L _ true _ _ (clearLoop L s) s1 Hlen Hdfs)
      as Hlen1.
    apply loopDFS_costs in Hdfs as [Hle Hpay]; [|done].
    unfold searchesLeft. rewrite CurPaths_clearLoop in *.
    cbn [NewPaths clearLoop setNewPaths length] in *.
    set (k := startsPerPath F LI L) in *. nia.
Qed.

Section Order.
Variable LoopNestOrder : list Loop → list Loop.

Lemma searchNest_returns n Nest s :
  (∀ L, L ∈ Nest → startsPerPath F LI L * MaxNumPaths ≤ n) →
  ∃ ok s', searchNest F LI MaxNumPaths n Nest s = Returned ok s'.
Proof.
  revert s. induction Nest as [|L Nest IH]; intros s Hn; simpl; [eauto|].
  destruct (analyzeLoop_returns n L
              (setPaths (<[loopId L := default [] (Paths s !! loopId L)]>
                           (Paths s)) s)) as (ok & s1 & ->).
  { apply Hn. by left. }
  destruct ok; [|eauto]. apply IH. intros L' HL'. apply Hn. by right.
Qed.

Lemma searchNests_returns n Nests s :
  (∀ Nest L, Nest ∈ Nests → L ∈ LoopNestOrder Nest →
             startsPerPath F LI L * MaxNumPaths ≤ n) →
  ∃ ok s', searchNests F LI MaxNumPaths LoopNestOrder n Nests s
           = Returned ok s'.
Proof.
  revert s. induction Nests as [|Nest Nests IH]; intros s Hn; simpl; [eauto|].
  destruct (searchNest_returns n (LoopNestOrder Nest) s) as (ok & s1 & ->).
  { intros L HL. apply (Hn Nest); [by left|done]. }
  destruct (analysisFailed s1); [eauto|].
  apply IH. intros N L HN HL. apply (Hn N); [by right|done].
Qed.

(** X14.  The analysis ends.  The [while] loop of [analyzeLoop] makes at
    most [startsPerPath L * MaxNumPaths] searches behind the search from the
    header, every recorded path accounting for the starts queued behind it;
    with that many iterations allowed, [analyzeLoop] returns, and so does
    [runOnFunction] when that many are allowed for every loop it visits.
    [runOnFunction] returns [false], as an analysis that changes nothing. *)
Theorem analysis_ends n s :
  (∀ L, startsPerPath F LI L * MaxNumPaths ≤ n →
        ∃ ok s', analyzeLoop F LI MaxNumPaths n L s = Returned ok s') ∧
  ((∀ Nest L, Nest ∈ map populateLoopNest LI → L ∈ LoopNestOrder Nest →
              startsPerPath F LI L * MaxNumPaths ≤ n) →
   ∃ s', runOnFunction F LI MaxNumPaths LoopNestOrder n s = Returned false s').
Proof.
  split.
  - intros L. apply analyzeLoop_returns.
  - intros Hn. unfold runOnFunction.
    destruct (searchNests_returns n (map populateLoopNest LI)
                (setDetectedCycle false (setTooManyPaths false (reset s))) Hn)
      as (ok & s1 & ->).
    eauto.
Qed.

End Order.

End AnalysisEnds.

Lemma analysis_ends_witness :
  ∃ ok s', analyzeLoop eqLatchF [eqLatchL] 5 20 eqLatchL initial
           = Returned ok s'.
Proof.
  apply (proj1 (analysis_ends eqLatchF [eqLatchL] 5 id 20 initial)).
  vm_compute. lia.
Defined.


End LoopPathsFacts.

Module InsertStackMapsFacts.
Import InsertStackMaps.

Open Scope Z_scope.

(** *** The comparison of values is a strict order *)

Lemma ascii_compare_refl a : Ascii.compare a a = Eq.
Proof. unfold Ascii.compare. apply N.compare_refl. Qed.

Lemma ascii_compare_trans a b c :
  Ascii.compare a b = Lt → Ascii.compare b c = Lt → Ascii.compare a c = Lt.
Proof.
  unfold Ascii.compare. rewrite !N.compare_lt_iff. apply N.lt_trans.
Qed.

Lemma string_compare_refl x : String.compare x x = Eq.
Proof.
  induction x as [|a x IH]; simpl; [done|]. by rewrite ascii_compare_refl.
Qed.

Lemma string_compare_trans x y z :
  String.compare x y = Lt → String.compare y z = Lt → String.compare x z = Lt.
Proof.
  revert y z. induction x as [|a x IH]; intros [|b y] [|c z]; simpl; try done.
  destruct (Ascii.compare a b) eqn:Hab; [|intros _|done].
  - apply Ascii.compare_eq_iff in Hab as ->.
    destruct (Ascii.compare b c); [apply IH|done|done].
  - destruct (Ascii.compare b c) eqn:Hbc; [|intros _|done].
    + apply Ascii.compare_eq_iff in Hbc as <-. by rewrite Hab.
    + by rewrite (ascii_compare_trans a b c).
Qed.

Section OrderFacts.
Variable valueName : Value → option string.
Variable getLocalSlot : Value → Z.

Local Abbreviation comp := (ValueComp valueName getLocalSlot).
Local Abbreviation before := (λ a b, ValueComp valueName getLocalSlot a b = true).
Local Abbreviation ins := (insert valueName getLocalSlot).
Local Abbreviation insAll := (insertAll valueName getLocalSlot).

Lemma ValueComp_irrefl a : comp a a = false.
Proof.
  unfold ValueComp. destruct (valueName a) as [n|].
  - by rewrite string_compare_refl.
  - apply Z.ltb_irrefl.
Qed.

Lemma ValueComp_trans a b c : before a b → before b c → before a c.
Proof.
  unfold ValueComp.
  destruct (valueName a) as [na|], (valueName b) as [nb|],
           (valueName c) as [nc|]; try done.
  - destruct (String.compare na nb) eqn:Hab; try done.
    destruct (String.compare nb nc) eqn:Hbc; try done.
    by rewrite (string_compare_trans na nb nc).
  - rewrite !Z.ltb_lt. lia.
Qed.

Lemma ValueComp_asym a b : before a b → comp b a = false.
Proof.
  intros Hab. destruct (comp b a) eqn:Hba; [|done].
  pose proof (ValueComp_trans _ _ _ Hab Hba) as H. cbv beta in H.
  by rewrite ValueComp_irrefl in H.
Qed.

(** *** Insertion into the ordered set *)

Lemma insert_elem_of x v s : x ∈ ins v s → x = v ∨ x ∈ s.
Proof.
  induction s as [|y s IH]; simpl.
  - intros ->%list_elem_of_singleton. by left.
  - destruct (comp v y).
    + intros [->|H]%elem_of_cons; [by left|by right].
    + destruct (comp y v); [|by right].
      intros [->|H]%elem_of_cons; [right; by left|].
      destruct (IH H) as [->|?]; [by left|right; by right].
Qed.

Lemma insert_keeps x v s : x ∈ s → x ∈ ins v s.
Proof.
  induction s as [|y s IH]; simpl; [by inversion 1|].
  intros Hx. destruct (comp v y); [by right|].
  destruct (comp y v); [|done].
  apply elem_of_cons in Hx as [->|Hx]; [by left|right; by apply IH].
Qed.

(** The inserted value is in the set afterwards, unless an element that
    compares equivalent to it was there. *)
Lemma insert_adds v s :
  v ∈ ins v s ∨ ∃ x, x ∈ s ∧ comp v x = false ∧ comp x v = false.
Proof.
  induction s as [|y s IH]; simpl.
  - left. by left.
  - destruct (comp v y) eqn:Hvy; [left; by left|].
    destruct (comp y v) eqn:Hyv.
    + destruct IH as [H|(x & Hx & ?)]; [left; by right|].
      right. exists x. split; [by right|done].
    + right. exists y. split; [by left|done].
Qed.

Lemma insert_sorted v s :
  StronglySorted before s → StronglySorted before (ins v s).
Proof.
  induction 1 as [|y s Hs IH Hy]; simpl.
  - repeat constructor.
  - destruct (comp v y) eqn:Hvy.
    + constructor; [by constructor|]. constructor; [done|].
      eapply Forall_impl; [exact Hy|]. intros z Hz.
      by eapply ValueComp_trans.
    + destruct (comp y v) eqn:Hyv; [|by constructor].
      constructor; [done|]. rewrite Forall_forall in Hy |- *.
      intros z [->|Hz]%insert_elem_of; [done|by apply Hy].
Qed.

Lemma insertAll_elem_of x vs s : x ∈ insAll vs s → x ∈ vs ∨ x ∈ s.
Proof.
  revert s. induction vs as [|v vs IH]; intros s; simpl; [by right|].
  intros [H|[->|H]%insert_elem_of]%IH.
  - left. by right.
  - left. by left.
  - by right.
Qed.

Lemma insertAll_keeps x vs s : x ∈ s → x ∈ insAll vs s.
Proof.
  revert s. induction vs as [|v vs IH]; intros s; simpl; [done|].
  intros Hx. by apply IH, insert_keeps.
Qed.

Lemma insertAll_sorted vs s :
  StronglySorted before s → StronglySorted before (insAll vs s).
Proof.
  revert s. induction vs as [|v vs IH]; intros s; simpl; [done|].
  intros Hs. by apply IH, insert_sorted.
Qed.

Local Abbreviation distinct := (distinctKeys valueName getLocalSlot).

Lemma insertAll_adds vs s v :
  distinct (vs ++ s) → v ∈ vs → v ∈ insAll vs s.
Proof.
  revert s. induction vs as [|a vs IH]; intros s Hd Hv; [inversion Hv|].
  simpl. apply elem_of_cons in Hv as [->|Hv].
  - apply insertAll_keeps.
    destruct (insert_adds a s) as [H|(x & Hx & Hax & Hxa)]; [done|].
    assert (a = x) as ->.
    { apply Hd; [by left| |done|done]. right. apply elem_of_app. by right. }
    by apply insert_keeps.
  - apply IH; [|done]. intros x y Hx Hy. apply Hd.
    + apply elem_of_app in Hx as [Hx|[->|Hx]%insert_elem_of].
      * right. apply elem_of_app. by left.
      * by left.
      * right. apply elem_of_app. by right.
    + apply elem_of_app in Hy as [Hy|[->|Hy]%insert_elem_of].
      * right. apply elem_of_app. by left.
      * by left.
      * right. apply elem_of_app. by right.
Qed.

(** Two strictly ordered sequences with the same elements are equal. *)
Lemma sorted_unique l1 l2 :
  StronglySorted before l1 → StronglySorted before l2 →
  (∀ x, x ∈ l1 ↔ x ∈ l2) → l1 = l2.
Proof.
  intros H1. revert l2. induction H1 as [|a l1 Hl1 IH Ha]; intros l2 H2 Heq.
  - destruct l2 as [|b l2]; [done|].
    assert (H : b ∈ @nil Value) by (apply Heq; by left). inversion H.
  - destruct H2 as [|b l2 Hl2 Hb].
    { assert (H : a ∈ @nil Value) by (apply Heq; by left). inversion H. }
    rewrite Forall_forall in Ha, Hb.
    assert (a = b) as <-.
    { assert (Hal : a ∈ b :: l2) by (apply Heq; by left).
      assert (Hbl : b ∈ a :: l1) by (apply Heq; by left).
      apply elem_of_cons in Hal as [?|Hal]; [done|].
      apply elem_of_cons in Hbl as [?|Hbl]; [done|].
      pose proof (ValueComp_asym _ _ (Ha _ Hbl)) as Hasym.
      pose proof (Hb _ Hal) as Hba. cbv beta in Hba. congruence. }
    f_equal. apply IH; [done|]. intros x. split; intros Hx.
    + assert (Hx' : x ∈ a :: l2) by (apply Heq; by right).
      apply elem_of_cons in Hx' as [->|?]; [|done].
      pose proof (Ha _ Hx) as H. cbv beta in H.
      by rewrite ValueComp_irrefl in H.
    + assert (Hx' : x ∈ a :: l1) by (apply Heq; by right).
      apply elem_of_cons in Hx' as [->|?]; [|done].
      pose proof (Hb _ Hx) as H. cbv beta in H.
      by rewrite ValueComp_irrefl in H.
Qed.

Lemma distinctKeysb_spec vs : distinctKeysb valueName getLocalSlot vs = true → distinct vs.
Proof.
  unfold distinctKeysb. rewrite forallb_forall. intros H a b Ha Hb Hab Hba.
  apply list_elem_of_In in Ha, Hb. specialize (H a Ha).
  rewrite forallb_forall in H. specialize (H b Hb).
  rewrite Hab, Hba in H. simpl in H. by apply bool_decide_eq_true in H.
Qed.

(** A strictly ordered sequence is its values with a name, in the order of
    the names, followed by its values without one, in the order of the
    slots. *)
Lemma sorted_split l :
  StronglySorted before l →
  ∃ named unnamed,
    l = named ++ unnamed ∧
    Forall (λ v, is_Some (valueName v)) named ∧
    Forall (λ v, valueName v = None) unnamed ∧
    StronglySorted (byName valueName) named ∧
    StronglySorted (bySlot valueName getLocalSlot) unnamed.
Proof.
  induction 1 as [|a l Hl IH Ha].
  - exists [], []. split_and!; by constructor.
  - destruct IH as (named & unnamed & -> & Hn & Hu & Hsn & Hsu).
    apply Forall_app in Ha as [Han Hau].
    destruct (valueName a) as [na|] eqn:Hna.
    + exists (a :: named), unnamed. split_and!; try done.
      * constructor; [by rewrite Hna|done].
      * constructor; [done|]. rewrite Forall_forall in Han, Hn |- *.
        intros b Hb. specialize (Han b Hb). specialize (Hn b Hb).
        unfold ValueComp in Han. unfold byName. rewrite Hna in *.
        destruct Hn as [nb Hnb]. rewrite Hnb in *.
        by destruct (String.compare na nb).
    + destruct named as [|b named].
      * exists [], (a :: unnamed). split_and!; try done; [by constructor|].
        constructor; [done|]. rewrite Forall_forall in Hau, Hu |- *.
        intros b Hb. specialize (Hau b Hb). specialize (Hu b Hb).
        unfold ValueComp in Hau. rewrite Hna, Hu in Hau.
        split_and!; [done|done|]. by apply Z.ltb_lt.
      * exfalso. apply Forall_cons in Han as [Hab _], Hn as [[nb Hnb] _].
        unfold ValueComp in Hab. by rewrite Hna, Hnb in Hab.
Qed.

(** The order of the insertions does not matter. *)
Lemma insertAll_order vs1 vs2 :
  (∀ x, x ∈ vs1 ↔ x ∈ vs2) → distinct vs1 → insAll vs1 [] = insAll vs2 [].
Proof.
  intros Heq Hd.
  assert (Hd2 : distinct vs2).
  { intros a b Ha Hb. apply Hd; by apply Heq. }
  apply sorted_unique; try (apply insertAll_sorted; constructor).
  intros x. split.
  - intros [Hx|Hx]%insertAll_elem_of; [|inversion Hx].
    apply insertAll_adds; [by rewrite app_nil_r|by apply Heq].
  - intros [Hx|Hx]%insertAll_elem_of; [|inversion Hx].
    apply insertAll_adds; [by rewrite app_nil_r|by apply Heq].
Qed.

End OrderFacts.

(** *** The values a marker records *)

Section RecordFacts.
Variable NoLiveVals : bool.
Variable getLiveValues : Instruction → list Value.
Variable dominates : Instruction → Instruction → bool.
Variable valueName : Value → option string.
Variable getLocalSlot : Value → Z.

Local Abbreviation before := (λ a b, ValueComp valueName getLocalSlot a b = true).
Local Abbreviation distinct := (distinctKeys valueName getLocalSlot).
Local Abbreviation hide := (addHidden valueName getLocalSlot).
Local Abbreviation sortedLive :=
  (sortedLiveAt getLiveValues dominates valueName getLocalSlot).

Lemma addHidden_elem_of cond hidden s x :
  x ∈ hide cond hidden s →
  x ∈ s ∨ ∃ H vs, (H, vs) ∈ hidden ∧ cond H = true ∧ x ∈ vs.
Proof.
  revert s. induction hidden as [|[H vs] hidden IH]; intros s; simpl;
    [by left|].
  intros [Hx|(H' & vs' & Hin & ? & ?)]%IH.
  - destruct (cond H) eqn:Hc; [|by left].
    apply insertAll_elem_of in Hx as [Hx|Hx]; [|by left].
    right. exists H, vs. split; [by left|done].
  - right. exists H', vs'. split; [by right|done].
Qed.

Lemma addHidden_keeps cond hidden s x : x ∈ s → x ∈ hide cond hidden s.
Proof.
  revert s. induction hidden as [|[H vs] hidden IH]; intros s; simpl; [done|].
  intros Hx. apply IH. destruct (cond H); [by apply insertAll_keeps|done].
Qed.

Lemma addHidden_sorted cond hidden s :
  StronglySorted before s → StronglySorted before (hide cond hidden s).
Proof.
  revert s. induction hidden as [|[H vs] hidden IH]; intros s; simpl; [done|].
  intros Hs. apply IH. destruct (cond H); [by apply insertAll_sorted|done].
Qed.

Lemma addHidden_adds cond hidden s H vs v :
  distinct (flat_map snd hidden ++ s) →
  (H, vs) ∈ hidden → cond H = true → v ∈ vs → v ∈ hide cond hidden s.
Proof.
  revert s. induction hidden as [|[H' vs'] hidden IH]; intros s Hd Hin Hc Hv;
    [inversion Hin|].
  simpl in *. apply elem_of_cons in Hin as [[= <- <-]|Hin].
  - rewrite Hc. apply addHidden_keeps. apply insertAll_adds; [|done].
    intros a b Ha Hb. apply Hd; rewrite <- app_assoc, !elem_of_app in *;
      naive_solver.
  - apply (IH _); [|done|done|done].
    intros a b Ha Hb. apply Hd; rewrite <- app_assoc, !elem_of_app in *.
    + destruct Ha as [?|Ha]; [naive_solver|].
      destruct (cond H'); [|naive_solver].
      apply insertAll_elem_of in Ha. naive_solver.
    + destruct Hb as [?|Hb]; [naive_solver|].
      destruct (cond H'); [|naive_solver].
      apply insertAll_elem_of in Hb. naive_solver.
Qed.

Lemma sortedLiveAt_elem_of hI hA I x :
  x ∈ sortedLive hI hA I →
  x ∈ getLiveValues I ∨
  (∃ H vs, (H, vs) ∈ hI ∧ dominates H I = true ∧
           VInst (instId H) ∈ getLiveValues I ∧ x ∈ vs) ∨
  (∃ H vs, (H, vs) ∈ hA ∧ VInst (instId H) ∈ getLiveValues I ∧ x ∈ vs).
Proof.
  unfold sortedLiveAt.
  intros [[[Hx|Hx]%insertAll_elem_of|(H & vs & Hin & Hc & Hv)]%addHidden_elem_of
         |(H & vs & Hin & Hc & Hv)]%addHidden_elem_of.
  - by left.
  - inversion Hx.
  - right; left. apply andb_true_iff in Hc as [Hd Hl].
    apply bool_decide_eq_true in Hl. by exists H, vs.
  - right; right. apply bool_decide_eq_true in Hc. by exists H, vs.
Qed.

Lemma sortedLiveAt_sorted hI hA I : StronglySorted before (sortedLive hI hA I).
Proof.
  unfold sortedLiveAt. do 2 apply addHidden_sorted.
  apply insertAll_sorted. constructor.
Qed.

Lemma sortedLiveAt_live hI hA I v :
  distinct (getLiveValues I) → v ∈ getLiveValues I → v ∈ sortedLive hI hA I.
Proof.
  intros Hd Hv. unfold sortedLiveAt. do 2 apply addHidden_keeps.
  apply insertAll_adds; [by rewrite app_nil_r|done].
Qed.

(** C7 (as amended).  The live values of a marker are in the order of
    [ValueComp]: the values with a name first, in the lexical order of their
    names, then the values without a name in the order of their slots.  The
    order in which a set of values is enumerated does not change the
    sequence the insertions build from it, provided no two values of the
    set have the same name, or no name and the same slot. *)
Theorem sortedLive_deterministic hI hA I :
  StronglySorted before (sortedLive hI hA I) ∧
  (∃ named unnamed,
     sortedLive hI hA I = named ++ unnamed ∧
     Forall (λ v, is_Some (valueName v)) named ∧
     Forall (λ v, valueName v = None) unnamed ∧
     StronglySorted (byName valueName) named ∧
     StronglySorted (bySlot valueName getLocalSlot) unnamed) ∧
  (∀ vs1 vs2,
     (∀ x, x ∈ vs1 ↔ x ∈ vs2) → distinct vs1 →
     insertAll valueName getLocalSlot vs1 [] =
     insertAll valueName getLocalSlot vs2 []).
Proof.
  split_and!.
  - apply sortedLiveAt_sorted.
  - apply sorted_split, sortedLiveAt_sorted.
  - apply insertAll_order.
Qed.

(** C10 (as amended).  At a call site that gets a marker with live values,
    the marker is the site's two leading arguments followed by the ordered
    set, and every value the liveness analysis reports for the call is in
    that set, provided no two of the reported values have the same name, or
    no name and the same slot. *)
Theorem visitInstruction_records_live hI hA I p v :
  isCallSite I = true → isInvoke I = false → NoLiveVals = false →
  distinct (getLiveValues I) →
  v ∈ getLiveValues I →
  (visitInstruction NoLiveVals getLiveValues dominates valueName getLocalSlot
                    hI hA I p).1
    = [I; CreateCall (nextId p) (siteArgs p ++ sortedLive hI hA I)] ∧
  v ∈ sortedLive hI hA I.
Proof.
  intros HC HI HN Hd Hv. unfold visitInstruction. rewrite HC, HI, HN. simpl.
  split; [done|]. by apply sortedLiveAt_live.
Qed.

(** C5 (as amended).  With the maps of [getHiddenVals], and provided no two
    of the live values of the call and of the hidden values of the function
    have the same name, or no name and the same slot: for a hiding
    instruction [H] whose result is live across the call [I], every argument
    of the function among the operands of [H] is in the set of [I], and so
    is every operand that is an instruction if [H] dominates [I]; and where
    the dominance relation is transitive and has every definition dominate
    the hiding instructions that use it, a result of an instruction that is
    in the set without being live itself comes from an instruction that
    dominates [I]. *)
Theorem hidden_values_recorded F I :
  distinct (candidates getLiveValues (getHiddenVals F).1 (getHiddenVals F).2 I) →
  (∀ H, H ∈ instructions F → hidesValues H = true →
        VInst (instId H) ∈ getLiveValues I →
        (∀ a, VArg a ∈ operands H →
              VArg a ∈ sortedLive (getHiddenVals F).1 (getHiddenVals F).2 I) ∧
        (dominates H I = true →
         ∀ d, VInst d ∈ operands H →
              VInst d ∈ sortedLive (getHiddenVals F).1 (getHiddenVals F).2 I)) ∧
  ((∀ A B C, dominates A B = true → dominates B C = true →
             dominates A C = true) →
   (∀ D H, D ∈ instructions F → H ∈ instructions F → hidesValues H = true →
           VInst (instId D) ∈ operands H → dominates D H = true) →
   ∀ D, D ∈ instructions F →
        VInst (instId D) ∈ sortedLive (getHiddenVals F).1 (getHiddenVals F).2 I →
        VInst (instId D) ∉ getLiveValues I →
        dominates D I = true).
Proof.
  intros Hd.
  assert (HhI : ∀ H vs v, (H, vs) ∈ (getHiddenVals F).1 → v ∈ vs →
            H ∈ instructions F ∧ hidesValues H = true ∧ v ∈ operands H ∧
            isaInstruction v = true).
  { intros H vs v Hin Hv. simpl in Hin.
    apply list_elem_of_fmap in Hin as (H' & [= <- ->] & HH').
    destruct (hidesValues H); [|inversion Hv].
    apply list_elem_of_In, filter_In in Hv as [Hv ?].
    by apply list_elem_of_In in Hv. }
  assert (HhA : ∀ H vs v, (H, vs) ∈ (getHiddenVals F).2 → v ∈ vs →
            isaArgument v = true).
  { intros H vs v Hin Hv. simpl in Hin.
    apply list_elem_of_fmap in Hin as (H' & [= <- ->] & HH').
    destruct (hidesValues H); [|inversion Hv].
    by apply list_elem_of_In, filter_In in Hv as [_ ?]. }
  split.
  - intros H HH Hh Hl. split.
    + intros a Ha. unfold sortedLiveAt.
      apply (addHidden_adds _ _ _ H (List.filter isaArgument (operands H))).
      * intros x y Hx Hy. apply Hd; unfold candidates;
          rewrite !elem_of_app in *.
        -- destruct Hx as [?|Hx]; [naive_solver|].
           apply addHidden_elem_of in Hx as [Hx|(H' & vs & Hin & _ & Hx)].
           ++ apply insertAll_elem_of in Hx as [?|Hx]; [by left|inversion Hx].
           ++ right; left. apply list_elem_of_In, in_flat_map.
              exists (H', vs). split; by apply list_elem_of_In.
        -- destruct Hy as [?|Hy]; [naive_solver|].
           apply addHidden_elem_of in Hy as [Hy|(H' & vs & Hin & _ & Hy)].
           ++ apply insertAll_elem_of in Hy as [?|Hy]; [by left|inversion Hy].
           ++ right; left. apply list_elem_of_In, in_flat_map.
              exists (H', vs). split; by apply list_elem_of_In.
      * simpl. apply list_elem_of_fmap. exists H. by rewrite Hh.
      * by apply bool_decide_eq_true.
      * apply list_elem_of_In, filter_In. split; [by apply list_elem_of_In|done].
    + intros HD d Hd'. unfold sortedLiveAt. apply addHidden_keeps.
      apply (addHidden_adds _ _ _ H (List.filter isaInstruction (operands H))).
      * intros x y Hx Hy. apply Hd; unfold candidates;
          rewrite !elem_of_app in *.
        -- destruct Hx as [?|Hx]; [naive_solver|].
           apply insertAll_elem_of in Hx as [?|Hx]; [by left|inversion Hx].
        -- destruct Hy as [?|Hy]; [naive_solver|].
           apply insertAll_elem_of in Hy as [?|Hy]; [by left|inversion Hy].
      * simpl. apply list_elem_of_fmap. exists H. by rewrite Hh.
      * rewrite HD. by apply bool_decide_eq_true.
      * apply list_elem_of_In, filter_In. split; [by apply list_elem_of_In|done].
  - intros Htrans Hdef D HD Hin Hnl.
    apply sortedLiveAt_elem_of
      in Hin as [?|[(H & vs & HH & Hdom & _ & Hv)|(H & vs & HH & _ & Hv)]].
    + done.
    + destruct (HhI H vs _ HH Hv) as (HHF & Hh & Hop & _).
      eapply Htrans; [|exact Hdom]. by apply Hdef.
    + by apply (HhA H vs _ HH) in Hv.
Qed.

End RecordFacts.

(** *** Markers without live values, and the count of the markers *)

Lemma wrap64_succ c : wrap64 (wrap64 c + 1) = wrap64 (c + 1).
Proof. unfold wrap64. by rewrite Z.add_mod_idemp_l. Qed.

Lemma markersOf_app b1 b2 : markersOf (b1 ++ b2) = markersOf b1 ++ markersOf b2.
Proof. unfold markersOf. by rewrite List.filter_app, map_app. Qed.

Lemma bareMarkers_S c n :
  bareMarkers c (S n) = bareMarker (wrap64 c) :: bareMarkers (c + 1) n.
Proof.
  unfold bareMarkers. simpl. rewrite Z.add_0_r. f_equal.
  rewrite <- seq_shift, map_map. apply map_ext. intros k.
  do 2 f_equal. lia.
Qed.

Lemma bareMarkers_shift c n m i :
  map (λ k, bareMarker (wrap64 (c + Z.of_nat n + Z.of_nat k))) (seq i m) =
  map (λ k, bareMarker (wrap64 (c + Z.of_nat k))) (seq (i + n) m).
Proof.
  revert i. induction m as [|m IH]; intros i; simpl; [done|].
  f_equal; [do 2 f_equal; lia|]. apply (IH (S i)).
Qed.

Section CountFacts.
Variable NoLiveVals : bool.
Variable getLiveValues : Instruction → list Value.
Variable dominates : Instruction → Instruction → bool.
Variable valueName : Value → option string.
Variable getLocalSlot : Value → Z.
Variables hI hA : list (Instruction * list Value).

Local Abbreviation site := (λ I : Instruction, isCallSite I && negb (isInvoke I)).
Local Abbreviation visitI :=
  (visitInstruction NoLiveVals getLiveValues dominates valueName getLocalSlot
                    hI hA).
Local Abbreviation visitB :=
  (visitBlock NoLiveVals getLiveValues dominates valueName getLocalSlot hI hA).
Local Abbreviation visitBs :=
  (visitBlocks NoLiveVals getLiveValues dominates valueName getLocalSlot hI hA).

(** What the visit of an instruction does to the pass. *)
Lemma visitInstruction_pass I p :
  (visitI I p).2 =
  if site I
  then mkPass (wrap64 (callSiteID p + 1)) (wrap64 (numInstrumented p + 1))
              (S (nextId p))
  else p.
Proof.
  unfold visitInstruction. destruct (isCallSite I); [|done].
  by destruct (isInvoke I).
Qed.

Lemma visitInstruction_markers I p :
  isStackmap I = false →
  markersOf (visitI I p).1 =
  if site I
  then [if NoLiveVals then siteArgs p
        else siteArgs p ++ sortedLiveAt getLiveValues dominates valueName
                                        getLocalSlot hI hA I]
  else [].
Proof.
  intros HI. unfold visitInstruction, markersOf.
  destruct (isCallSite I); simpl; [|by rewrite HI].
  destruct (isInvoke I); simpl; rewrite HI; [done|].
  by destruct NoLiveVals.
Qed.

Lemma visitBlock_cons I b p :
  visitB (I :: b) p =
  ((visitI I p).1 ++ (visitB b (visitI I p).2).1,
   (visitB b (visitI I p).2).2).
Proof.
  simpl. destruct (visitI I p) as [out p1]. simpl.
  by destruct (visitB b p1).
Qed.

Lemma visitBlocks_cons b bs p :
  visitBs (b :: bs) p =
  ((visitB b p).1 :: (visitBs bs (visitB b p).2).1,
   (visitBs bs (visitB b p).2).2).
Proof.
  simpl. destruct (visitB b p) as [b' p1]. simpl.
  by destruct (visitBs bs p1).
Qed.

Lemma visitBlock_count b p c :
  numInstrumented p = wrap64 c →
  numInstrumented (visitB b p).2 =
  wrap64 (c + Z.of_nat (length (List.filter site b))).
Proof.
  revert p c. induction b as [|I b IH]; intros p c Hp.
  - simpl. by rewrite Z.add_0_r.
  - rewrite visitBlock_cons. simpl. rewrite visitInstruction_pass.
    destruct (isCallSite I && negb (isInvoke I)) eqn:HS.
    + rewrite (IH _ (c + 1)); [|simpl; by rewrite Hp, wrap64_succ].
      f_equal. simpl. lia.
    + by apply IH.
Qed.

Lemma visitBlocks_count bs p c :
  numInstrumented p = wrap64 c →
  numInstrumented (visitBs bs p).2 =
  wrap64 (c + Z.of_nat (length (List.filter site (concat bs)))).
Proof.
  revert p c. induction bs as [|b bs IH]; intros p c Hp.
  - simpl. by rewrite Z.add_0_r.
  - rewrite visitBlocks_cons. simpl.
    rewrite (IH _ (c + Z.of_nat (length (List.filter site b))));
      [|by apply visitBlock_count].
    f_equal. rewrite List.filter_app, length_app. lia.
Qed.

End CountFacts.

Section BareFacts.
Variable getLiveValues : Instruction → list Value.
Variable dominates : Instruction → Instruction → bool.
Variable valueName : Value → option string.
Variable getLocalSlot : Value → Z.

Local Abbreviation site := (λ I : Instruction, isCallSite I && negb (isInvoke I)).
Local Abbreviation visitI :=
  (visitInstruction true getLiveValues dominates valueName getLocalSlot).
Local Abbreviation visitB :=
  (visitBlock true getLiveValues dominates valueName getLocalSlot).
Local Abbreviation visitBs :=
  (visitBlocks true getLiveValues dominates valueName getLocalSlot).

Lemma visitBlock_bare hI hA b p c :
  Forall (λ I, isStackmap I = false) b → callSiteID p = wrap64 c →
  markersOf (visitB hI hA b p).1
    = bareMarkers c (length (List.filter site b)) ∧
  callSiteID (visitB hI hA b p).2 =
    wrap64 (c + Z.of_nat (length (List.filter site b))).
Proof.
  intros Hb. revert p c. induction Hb as [|I b HI Hb IH]; intros p c Hp.
  - simpl. by rewrite Z.add_0_r.
  - rewrite visitBlock_cons. simpl. rewrite markersOf_app.
    rewrite visitInstruction_markers by done. rewrite visitInstruction_pass.
    destruct (isCallSite I && negb (isInvoke I)) eqn:HS.
    + destruct (IH (mkPass (wrap64 (callSiteID p + 1))
                           (wrap64 (numInstrumented p + 1)) (S (nextId p)))
                   (c + 1)) as [IH1 IH2];
        [simpl; by rewrite Hp, wrap64_succ|].
      rewrite IH1, IH2. simpl length. rewrite bareMarkers_S. split.
      * simpl. unfold siteArgs, bareMarker. by rewrite Hp.
      * f_equal. lia.
    + by apply IH.
Qed.

Lemma visitBlocks_bare hI hA bs p c :
  Forall (λ I, isStackmap I = false) (concat bs) → callSiteID p = wrap64 c →
  markersOf (concat (visitBs hI hA bs p).1) =
    bareMarkers c (length (List.filter site (concat bs))) ∧
  callSiteID (visitBs hI hA bs p).2 =
    wrap64 (c + Z.of_nat (length (List.filter site (concat bs)))).
Proof.
  revert p c. induction bs as [|b bs IH]; intros p c Hbs Hp.
  - simpl. by rewrite Z.add_0_r.
  - simpl in Hbs. apply Forall_app in Hbs as [Hb Hbs].
    rewrite visitBlocks_cons. simpl. rewrite markersOf_app.
    destruct (visitBlock_bare hI hA b p c Hb Hp) as [H1 H2].
    destruct (IH _ _ Hbs H2) as [I1 I2]. rewrite H1, I1, I2.
    rewrite List.filter_app, length_app. split; [|f_equal; lia].
    unfold bareMarkers. rewrite seq_app, map_app. f_equal.
    by rewrite (bareMarkers_shift c _ _ 0).
Qed.

(** C9.  With the option [-no-live-vals] the marker of a call site has
    exactly two arguments, the 64-bit site identifier and the 32-bit flags
    0, and the identifier of the pass goes up by one (as a [size_t]); so a
    function without stale markers, visited with the identifier at 0, holds
    afterwards the markers of the sites 0, 1, 2, ... in this order, one per
    call site that is not an invoke, and the identifier is back at 0. *)
Theorem noLiveVals_markers :
  (∀ hI hA I p, isCallSite I = true → isInvoke I = false →
          visitI hI hA I p =
          ([I; CreateCall (nextId p) (bareMarker (callSiteID p))],
           mkPass (wrap64 (callSiteID p + 1)) (wrap64 (numInstrumented p + 1))
                  (S (nextId p)))) ∧
  (∀ F p, isDeclaration F = false →
          Forall (λ I, isStackmap I = false) (instructions F) →
          callSiteID p = 0 →
          markersOfFunction
            (visitFunction true getLiveValues dominates valueName getLocalSlot
                           F p).1
            = bareMarkers 0 (length (instrumentedSites F)) ∧
          callSiteID
            (visitFunction true getLiveValues dominates valueName getLocalSlot
                           F p).2 = 0).
Proof.
  split.
  - intros hI hA I p HC HI. unfold visitInstruction. by rewrite HC, HI.
  - intros F p HD HF Hp. unfold visitFunction. rewrite HD.
    destruct (getHiddenVals F) as [hI hA].
    destruct (visitBlocks_bare hI hA (getBasicBlocks F) p 0 HF Hp) as [H1 _].
    destruct (visitBlocks true getLiveValues dominates valueName getLocalSlot
                hI hA (getBasicBlocks F) p) as [bs p'] eqn:Hv.
    split; [|done]. exact H1.
Qed.

End BareFacts.

(** *** The removal of old markers and the result of a run *)

Lemma removeLoop_true fuel bb i : (removeLoop fuel bb i true).2 = true.
Proof.
  revert bb i. induction fuel as [|fuel IH]; intros bb i; simpl; [done|].
  destruct (bb !! i) as [I|]; [|done]. by destruct (isStackmap I).
Qed.

Lemma removeLoop_clean fuel bb i m :
  (∀ j I, (i ≤ j)%nat → bb !! j = Some I → isStackmap I = false) →
  removeLoop fuel bb i m = (bb, m).
Proof.
  revert i. induction fuel as [|fuel IH]; intros i Hc; simpl; [done|].
  destruct (bb !! i) as [I|] eqn:HI; [|done].
  rewrite (Hc i I) by done. apply IH. intros j J Hj. apply Hc. lia.
Qed.

Lemma removeLoop_found fuel bb i j I m :
  (i ≤ j)%nat → (j - i < fuel)%nat → bb !! j = Some I → isStackmap I = true →
  (removeLoop fuel bb i m).2 = true.
Proof.
  revert i m. induction fuel as [|fuel IH]; intros i m Hij Hf HI Hm; [lia|].
  simpl. destruct (bb !! i) as [J|] eqn:HJ.
  - destruct (isStackmap J) eqn:HmJ; [apply removeLoop_true|].
    assert (i ≠ j) by (intros ->; congruence).
    apply IH; [lia|lia|done|done].
  - apply lookup_ge_None in HJ. apply lookup_lt_Some in HI. lia.
Qed.

Lemma removeFromBlock_modified bb m :
  (removeFromBlock bb m).2 = m || existsb isStackmap bb.
Proof.
  unfold removeFromBlock. destruct (existsb isStackmap bb) eqn:He.
  - rewrite orb_true_r. apply existsb_exists in He as (I & HI & Hm).
    apply list_elem_of_In, list_elem_of_lookup in HI as [j Hj].
    apply (removeLoop_found _ _ _ j I); [lia| |done|done].
    apply lookup_lt_Some in Hj. unfold removeFuel. nia.
  - rewrite orb_false_r, removeLoop_clean; [done|].
    intros j I _ Hj. destruct (isStackmap I) eqn:Hm; [|done].
    rewrite <- He. symmetry. apply existsb_exists. exists I.
    split; [|done]. apply list_elem_of_In. by eapply list_elem_of_lookup_2.
Qed.

Lemma removeFromBlocks_modified bs m :
  (removeFromBlocks bs m).2 = m || existsb (existsb isStackmap) bs.
Proof.
  revert m. induction bs as [|bb bs IH]; intros m; simpl.
  - by rewrite orb_false_r.
  - pose proof (removeFromBlock_modified bb m) as Hb.
    destruct (removeFromBlock bb m) as [bb' m1]. simpl in Hb.
    specialize (IH m1). destruct (removeFromBlocks bs m1) as [bs' m2].
    simpl in *. by rewrite IH, Hb, orb_assoc.
Qed.

Lemma removeOldStackmaps_modified M :
  (removeOldStackmaps M).2 = hasStackmap M.
Proof.
  unfold removeOldStackmaps. change (hasStackmap M) with (false || hasStackmap M).
  generalize false as m. induction M as [|F M IH]; intros m; simpl.
  - by rewrite orb_false_r.
  - pose proof (removeFromBlocks_modified (getBasicBlocks F) m) as Hb.
    destruct (removeFromBlocks (getBasicBlocks F) m) as [bs m1]. simpl in Hb.
    specialize (IH m1). destruct (removeOldStackmapsFrom M m1) as [M' m2].
    simpl in *. by rewrite IH, Hb, orb_assoc.
Qed.

Lemma hasStackmap_addSMDeclaration M :
  hasStackmap (addSMDeclaration M).2 = hasStackmap M.
Proof.
  unfold addSMDeclaration. destruct (existsb _ M); [done|]. simpl.
  unfold hasStackmap. rewrite existsb_app. simpl. by rewrite !orb_false_r.
Qed.

Section ResultFacts.
Variable NoLiveVals : bool.
Variable getLiveValues : Instruction → list Value.
Variable dominates : Instruction → Instruction → bool.
Variable valueName : Value → option string.
Variable getLocalSlot : Value → Z.

Local Abbreviation visitFs :=
  (visitFunctions NoLiveVals getLiveValues dominates valueName getLocalSlot).
Local Abbreviation run :=
  (runOnModule NoLiveVals getLiveValues dominates valueName getLocalSlot).

Lemma visitFunction_eq F p :
  visitFunction NoLiveVals getLiveValues dominates valueName getLocalSlot F p =
  if isDeclaration F then (F, p)
  else
    let r := visitBlocks NoLiveVals getLiveValues dominates valueName
                         getLocalSlot (getHiddenVals F).1 (getHiddenVals F).2
                         (getBasicBlocks F) p in
    (mkFunction (getName F) false r.1,
     mkPass 0 (numInstrumented r.2) (nextId r.2)).
Proof.
  unfold visitFunction. destruct (isDeclaration F); [done|].
  destruct (getHiddenVals F) as [hI hA]. simpl.
  by destruct (visitBlocks _ _ _ _ _ hI hA (getBasicBlocks F) p).
Qed.

Lemma visitFunctions_cons F M p :
  visitFs (F :: M) p =
  ((visitFunction NoLiveVals getLiveValues dominates valueName getLocalSlot
                  F p).1
     :: (visitFs M (visitFunction NoLiveVals getLiveValues dominates valueName
                                  getLocalSlot F p).2).1,
   (visitFs M (visitFunction NoLiveVals getLiveValues dominates valueName
                             getLocalSlot F p).2).2).
Proof.
  simpl. destruct (visitFunction _ _ _ _ _ F p) as [F' p1]. simpl.
  by destruct (visitFs M p1).
Qed.

Lemma visitFunctions_count M p c :
  numInstrumented p = wrap64 c →
  numInstrumented (visitFs M p).2 = wrap64 (c + Z.of_nat (insertedMarkers M)).
Proof.
  revert p c. induction M as [|F M IH]; intros p c Hp.
  - simpl. by rewrite Z.add_0_r.
  - rewrite visitFunctions_cons, visitFunction_eq.
    unfold insertedMarkers. cbn [List.filter fst snd].
    destruct (isDeclaration F) eqn:HD; cbn [negb fst snd].
    + by apply IH.
    + cbv zeta. cbn [fst snd flat_map].
      rewrite (IH _ (c + Z.of_nat (length (instrumentedSites F)))).
      * f_equal. rewrite length_app. unfold insertedMarkers. lia.
      * cbn [numInstrumented]. by apply visitBlocks_count.
Qed.

(** C6 (as amended).  The result of a run of a new pass is [true] exactly
    when the module did not declare the intrinsic (the declaration is then
    added), or held a marker of an earlier run, or the count of the inserted
    markers, a [size_t], is positive: that count is the number of call sites
    other than invokes in the defined functions, as the removal of the old
    markers leaves them. *)
Theorem runOnModule_result M fresh :
  numInstrumented (run M (newPass fresh)).2 =
    wrap64 (Z.of_nat (insertedMarkers
                        (removeOldStackmaps (addSMDeclaration M).2).1)) ∧
  ((run M (newPass fresh)).1.1 = true ↔
   declared M = false ∨ hasStackmap M = true ∨
   0 < numInstrumented (run M (newPass fresh)).2).
Proof.
  unfold runOnModule.
  pose proof (hasStackmap_addSMDeclaration M) as Hh.
  assert (Ha : (addSMDeclaration M).1 = negb (declared M)).
  { unfold addSMDeclaration, declared. by destruct (existsb _ M). }
  destruct (addSMDeclaration M) as [added M1]. simpl in Hh, Ha.
  cbn [fst snd].
  pose proof (removeOldStackmaps_modified M1) as Hr. rewrite Hh in Hr.
  destruct (removeOldStackmaps M1) as [M2 removed]. simpl in Hr.
  pose proof (visitFunctions_count M2 (newPass fresh) 0 eq_refl) as Hc.
  destruct (visitFs M2 (newPass fresh)) as [M3 p3]. simpl in *.
  split; [done|]. subst added removed. clear Hc.
  destruct (0 <? numInstrumented p3) eqn:Hn.
  - apply Z.ltb_lt in Hn. naive_solver.
  - apply Z.ltb_ge in Hn. destruct (declared M), (hasStackmap M); simpl;
      naive_solver lia.
Qed.

End ResultFacts.

(** C6 as the specification states it fails: the run on the empty module
    returns [true], for the declaration of the intrinsic that it adds, and
    inserts no marker. *)
Lemma result_without_marker :
  runOnModule false (λ _, []) (λ _ _, false) (λ _, None) (λ _, -1)
              [] (newPass 0)
    = (true, [mkFunction SMName true []], newPass 0) ∧
  insertedMarkers [] = 0%nat ∧
  markersOfModule [mkFunction SMName true []] = [].
Proof. split_and!; reflexivity. Qed.

Lemma runOnModule_result_witness :
  numInstrumented
    (runOnModule false exampleLive exampleDominates exampleName exampleSlot
                 [exampleF] (newPass 6)).2 = 1 ∧
  (runOnModule false exampleLive exampleDominates exampleName exampleSlot
               [exampleF] (newPass 6)).1.1 = true.
Proof.
  destruct (runOnModule_result false exampleLive exampleDominates exampleName
              exampleSlot [exampleF] 6) as [Hn Hr].
  split; [exact Hn|]. apply Hr. left. reflexivity.
Defined.

Lemma noLiveVals_markers_witness :
  markersOfFunction
    (visitFunction true exampleLive exampleDominates exampleName exampleSlot
                   exampleF (newPass 6)).1 = [bareMarker 0].
Proof.
  apply (noLiveVals_markers exampleLive exampleDominates exampleName
                            exampleSlot).
  - reflexivity.
  - repeat constructor.
  - reflexivity.
Defined.

(** C8 fails on [staleM]: the removal of the old markers erases the first
    marker of the block and, the iterator set back to the first instruction
    and then incremented, passes over the second one.  The first run leaves
    that marker in the function, the second run removes it: one marker after
    the first run, none after the second. *)
Lemma stale_marker_survives :
  markersOfModule staleRun1.1.2 = [bareMarker 1] ∧
  markersOfModule staleRun2.1.2 = [].
Proof. split; reflexivity. Qed.

(** *** A second run on the result of a run *)

Lemma sweep_delete (bb : BasicBlock) i I :
  bb !! i = Some I → isStackmap I = true → sweep (delete i bb) = sweep bb.
Proof.
  intros Hi Hm. unfold sweep. rewrite <- (take_drop_middle bb i I Hi) at 2.
  unfold BasicBlock in *.
  rewrite (delete_take_drop bb i), !List.filter_app. simpl. by rewrite Hm.
Qed.

Lemma sweep_noStackmap bb : noStackmap bb → sweep bb = bb.
Proof.
  unfold sweep. induction 1 as [|I bb HI _ IH]; simpl; [done|].
  by rewrite HI, IH.
Qed.

Lemma noStackmap_sweep bb : noStackmap (sweep bb).
Proof.
  apply Forall_forall. intros I HI. unfold sweep in HI.
  apply list_elem_of_In, List.filter_In in HI. destruct HI as [_ HI].
  by apply negb_true_iff.
Qed.

Lemma noStackmaps_sweepModule M : noStackmaps (sweepModule M).
Proof.
  apply Forall_forall. intros F [F' [-> _]]%list_elem_of_fmap. simpl.
  apply Forall_forall. intros b [b' [-> _]]%list_elem_of_fmap.
  apply noStackmap_sweep.
Qed.

Lemma declared_sweepModule M : declared (sweepModule M) = declared M.
Proof.
  unfold declared, sweepModule. induction M as [|F M IH]; [done|].
  simpl. by rewrite IH.
Qed.

Lemma noStackmap_headClean bb : noStackmap bb → headClean bb.
Proof.
  intros Hb I HI. unfold noStackmap in Hb. rewrite Forall_forall in Hb.
  apply Hb. by eapply list_elem_of_lookup_2.
Qed.

(** When the first instruction of the block is no marker, the loop of the
    removal erases every marker. *)
Lemma removeLoop_sweeps fuel (bb : BasicBlock) i m :
  headClean bb →
  (∀ j I, (j < i)%nat → bb !! j = Some I → isStackmap I = false) →
  (S (length bb) * length bb + (length bb - i) < fuel)%nat →
  (removeLoop fuel bb i m).1 = sweep bb.
Proof.
  revert bb i m. induction fuel as [|fuel IH]; intros bb i m H0 Hi Hf; [lia|].
  cbn [removeLoop]. destruct (bb !! i) as [I|] eqn:HI.
  - destruct (isStackmap I) eqn:Hm.
    + assert (i ≠ 0%nat) by (intros ->; by rewrite (H0 I HI) in Hm).
      assert (Hlen : (i < length bb)%nat) by by eapply lookup_lt_Some.
      rewrite IH.
      * by eapply sweep_delete.
      * intros J. unfold BasicBlock in *; rewrite list_lookup_delete_lt by lia. apply H0.
      * intros j J Hj. assert (j = 0%nat) as -> by lia.
        unfold BasicBlock in *; rewrite list_lookup_delete_lt by lia. apply H0.
      * unfold BasicBlock in *. rewrite (length_delete bb i) by eauto. nia.
    + apply IH; [done| |].
      * intros j J Hj HJ. destruct (decide (j = i)) as [->|]; [congruence|].
        apply (Hi j); [lia|done].
      * apply lookup_lt_Some in HI. lia.
  - simpl. symmetry. apply sweep_noStackmap. apply Forall_forall.
    intros J [j Hj]%list_elem_of_lookup. apply (Hi j); [|done].
    apply lookup_ge_None in HI. apply lookup_lt_Some in Hj. lia.
Qed.

Lemma removeFromBlock_sweeps (bb : BasicBlock) m :
  headClean bb → (removeFromBlock bb m).1 = sweep bb.
Proof.
  intros H0. apply removeLoop_sweeps; [done|intros; lia|].
  unfold removeFuel. nia.
Qed.

Lemma removeFromBlocks_sweeps bs m :
  Forall headClean bs → (removeFromBlocks bs m).1 = map sweep bs.
Proof.
  intros Hbs. revert m. induction Hbs as [|b bs Hb _ IH]; intros m; [done|].
  cbn [removeFromBlocks]. pose proof (removeFromBlock_sweeps b m Hb) as H1.
  destruct (removeFromBlock b m) as [b' m1]. specialize (IH m1).
  destruct (removeFromBlocks bs m1) as [bs' m2]. simpl in *. by subst.
Qed.

Lemma removeOldStackmapsFrom_sweeps M m :
  headsClean M → (removeOldStackmapsFrom M m).1 = sweepModule M.
Proof.
  intros HM. revert m. induction HM as [|F M HF _ IH]; intros m; [done|].
  cbn [removeOldStackmapsFrom].
  pose proof (removeFromBlocks_sweeps (getBasicBlocks F) m HF) as H1.
  destruct (removeFromBlocks (getBasicBlocks F) m) as [bs m1].
  specialize (IH m1). destruct (removeOldStackmapsFrom M m1) as [M' m2].
  simpl in *. by subst.
Qed.

Lemma removeFromBlock_clean bb m :
  noStackmap bb → removeFromBlock bb m = (bb, m).
Proof.
  intros Hb. apply removeLoop_clean. intros j I _ Hj.
  unfold noStackmap in Hb. rewrite Forall_forall in Hb. apply Hb.
  by eapply list_elem_of_lookup_2.
Qed.

Lemma removeFromBlocks_clean bs m :
  Forall noStackmap bs → removeFromBlocks bs m = (bs, m).
Proof.
  induction 1 as [|bb bs Hb _ IH]; simpl; [done|].
  by rewrite removeFromBlock_clean, IH.
Qed.

Lemma removeOldStackmapsFrom_clean M m :
  noStackmaps M → removeOldStackmapsFrom M m = (M, m).
Proof.
  induction 1 as [|F M HF _ IH]; simpl; [done|].
  rewrite removeFromBlocks_clean by done. rewrite IH. by destruct F.
Qed.

Lemma isStackmap_forget I : isStackmap (forget I) = isStackmap I.
Proof. unfold forget. by destruct (isStackmap I) eqn:HI. Qed.

Lemma operands_forget I : operands (forget I) = operands I.
Proof. unfold forget. by destruct (isStackmap I). Qed.

Lemma markersOf_forget b : markersOf (map forget b) = markersOf b.
Proof.
  unfold markersOf. induction b as [|I b IH]; [done|].
  simpl. rewrite isStackmap_forget. destruct (isStackmap I); simpl.
  - by rewrite operands_forget, IH.
  - done.
Qed.

Lemma markersOfModule_forgetIds M :
  markersOfModule (forgetIds M) = markersOfModule M.
Proof.
  unfold markersOfModule. induction M as [|F M IH]; [done|].
  simpl. rewrite IH. f_equal.
  unfold markersOfFunction, instructions. simpl.
  induction (getBasicBlocks F) as [|b bs IHb]; [done|].
  simpl. by rewrite !markersOf_app, markersOf_forget, IHb.
Qed.

Section SecondRun.
Variable NoLiveVals : bool.
Variable getLiveValues : Instruction → list Value.
Variable dominates : Instruction → Instruction → bool.
Variable valueName : Value → option string.
Variable getLocalSlot : Value → Z.

Local Abbreviation visitI :=
  (visitInstruction NoLiveVals getLiveValues dominates valueName getLocalSlot).
Local Abbreviation visitB :=
  (visitBlock NoLiveVals getLiveValues dominates valueName getLocalSlot).
Local Abbreviation visitBs :=
  (visitBlocks NoLiveVals getLiveValues dominates valueName getLocalSlot).
Local Abbreviation visitF :=
  (visitFunction NoLiveVals getLiveValues dominates valueName getLocalSlot).
Local Abbreviation visitFs :=
  (visitFunctions NoLiveVals getLiveValues dominates valueName getLocalSlot).
Local Abbreviation run :=
  (runOnModule NoLiveVals getLiveValues dominates valueName getLocalSlot).

(** The markers of a visited block come out again. *)
Lemma visitBlock_swept hI hA b p m :
  noStackmap b → (removeFromBlock (visitB hI hA b p).1 m).1 = b.
Proof.
  intros Hb. rewrite removeFromBlock_sweeps; unfold sweep.
  - revert p. induction Hb as [|I b HI Hb IH]; intros p; [done|].
    rewrite visitBlock_cons. cbn [fst]. rewrite List.filter_app, IH.
    unfold visitInstruction.
    destruct (isCallSite I); [destruct (isInvoke I)|]; simpl; by rewrite HI.
  - destruct Hb as [|I b HI Hb]; [done|].
    rewrite visitBlock_cons. cbn [fst]. unfold visitInstruction.
    destruct (isCallSite I); [destruct (isInvoke I)|]; simpl;
      by intros J [= <-].
Qed.

Lemma visitBlocks_swept hI hA bs p m :
  Forall noStackmap bs → (removeFromBlocks (visitBs hI hA bs p).1 m).1 = bs.
Proof.
  intros Hbs. revert p m. induction Hbs as [|b bs Hb _ IH]; intros p m; [done|].
  rewrite visitBlocks_cons. cbn [fst removeFromBlocks].
  pose proof (visitBlock_swept hI hA b p m Hb) as H1.
  destruct (removeFromBlock (visitB hI hA b p).1 m) as [b' m1]. simpl in H1.
  specialize (IH (visitB hI hA b p).2 m1).
  destruct (removeFromBlocks _ m1) as [bs' m2]. simpl in *. by subst.
Qed.

Lemma visitFunctions_swept M p m :
  noStackmaps M → (removeOldStackmapsFrom (visitFs M p).1 m).1 = M.
Proof.
  intros HM. revert p m. induction HM as [|F M HF _ IH]; intros p m; [done|].
  rewrite visitFunctions_cons. cbn [fst removeOldStackmapsFrom].
  rewrite visitFunction_eq. destruct F as [name decl bs]. simpl in *.
  destruct decl; simpl.
  - rewrite removeFromBlocks_clean by done.
    specialize (IH p m). destruct (removeOldStackmapsFrom _ m). simpl in *.
    by subst.
  - pose proof (visitBlocks_swept (getHiddenVals (mkFunction name false bs)).1
                  (getHiddenVals (mkFunction name false bs)).2 bs p m HF) as H1.
    destruct (removeFromBlocks _ m) as [bs' m1]. simpl in H1.
    match goal with
    | |- context [removeOldStackmapsFrom (visitFs M ?q).1 m1] =>
        specialize (IH q m1);
        destruct (removeOldStackmapsFrom (visitFs M q).1 m1)
    end.
    simpl in *. by subst.
Qed.

(** The visit with another pass differs in the identities of the markers
    only, the site identifier being the same. *)
Lemma visitBlock_forget hI hA b p p' :
  callSiteID p = callSiteID p' →
  map forget (visitB hI hA b p).1 = map forget (visitB hI hA b p').1 ∧
  callSiteID (visitB hI hA b p).2 = callSiteID (visitB hI hA b p').2.
Proof.
  revert p p'. induction b as [|I b IH]; intros p p' Hp; [done|].
  rewrite !visitBlock_cons. cbn [fst snd]. rewrite !map_app.
  assert (HI : map forget (visitI hI hA I p).1 = map forget (visitI hI hA I p').1
               ∧ callSiteID (visitI hI hA I p).2
                 = callSiteID (visitI hI hA I p').2).
  { unfold visitInstruction, siteArgs. rewrite Hp.
    destruct (isCallSite I); [destruct (isInvoke I)|]; done. }
  destruct HI as [H1 H2]. destruct (IH _ _ H2) as [I1 I2].
  by rewrite H1, I1, I2.
Qed.

Lemma visitBlocks_forget hI hA bs p p' :
  callSiteID p = callSiteID p' →
  map (map forget) (visitBs hI hA bs p).1
    = map (map forget) (visitBs hI hA bs p').1.
Proof.
  revert p p'. induction bs as [|b bs IH]; intros p p' Hp; [done|].
  rewrite !visitBlocks_cons. cbn [fst snd map].
  destruct (visitBlock_forget hI hA b p p' Hp) as [H1 H2].
  by rewrite H1, (IH _ _ H2).
Qed.

Lemma visitFunctions_forget M p p' :
  callSiteID p = callSiteID p' →
  forgetIds (visitFs M p).1 = forgetIds (visitFs M p').1.
Proof.
  revert p p'. induction M as [|F M IH]; intros p p' Hp; [done|].
  rewrite !visitFunctions_cons, !visitFunction_eq. cbn [fst snd].
  destruct (isDeclaration F) eqn:HD; cbn [fst snd forgetIds map].
  - f_equal. by apply IH.
  - cbv zeta. cbn [fst snd getName isDeclaration getBasicBlocks].
    f_equal; [f_equal; by apply visitBlocks_forget|]. by apply IH.
Qed.

Lemma visitFunctions_callSiteID M p :
  callSiteID p = 0 → callSiteID (visitFs M p).2 = 0.
Proof.
  revert p. induction M as [|F M IH]; intros p Hp; [done|].
  rewrite visitFunctions_cons, visitFunction_eq. cbn [snd].
  destruct (isDeclaration F); [by apply IH|]. by apply IH.
Qed.

Lemma visitFunctions_declared M p : declared (visitFs M p).1 = declared M.
Proof.
  revert p. induction M as [|F M IH]; intros p; [done|].
  rewrite visitFunctions_cons, visitFunction_eq. cbn [fst snd].
  unfold declared in *. simpl. rewrite IH. f_equal.
  by destruct (isDeclaration F).
Qed.

Lemma runOnModule_module M p :
  (run M p).1.2 = (visitFs (removeOldStackmaps (addSMDeclaration M).2).1 p).1.
Proof.
  unfold runOnModule. destruct (addSMDeclaration M) as [added Md].
  cbn [fst snd]. destruct (removeOldStackmaps Md) as [Mc removed].
  cbn [fst snd]. by destruct (visitFs Mc p).
Qed.

Lemma runOnModule_pass M p :
  (run M p).2 = (visitFs (removeOldStackmaps (addSMDeclaration M).2).1 p).2.
Proof.
  unfold runOnModule. destruct (addSMDeclaration M) as [added Md].
  cbn [fst snd]. destruct (removeOldStackmaps Md) as [Mc removed].
  cbn [fst snd]. by destruct (visitFs Mc p).
Qed.

(** A run on a module none of whose blocks begins with a marker, followed by
    a second run of the same pass: the second run finds the declaration,
    erases exactly the markers of the first run and inserts them again; the
    module is the one the first run left, up to the identities of the
    markers.  (The run on [staleM] shows what markers at the head of a block
    do to this.) *)
Theorem runOnModule_twice M fresh :
  headsClean M →
  forgetIds (run (run M (newPass fresh)).1.2 (run M (newPass fresh)).2).1.2
    = forgetIds (run M (newPass fresh)).1.2.
Proof.
  intros HM.
  assert (Hheads : headsClean (addSMDeclaration M).2).
  { unfold addSMDeclaration. destruct (existsb _ M); [done|].
    apply Forall_app. split; [done|]. by repeat constructor. }
  assert (Hdecl : declared (sweepModule (addSMDeclaration M).2) = true).
  { replace (declared (sweepModule (addSMDeclaration M).2))
      with (declared (addSMDeclaration M).2).
    - unfold addSMDeclaration, declared.
      destruct (existsb _ M) eqn:He; [done|].
      simpl. rewrite existsb_app. simpl. by rewrite orb_true_r.
    - symmetry. apply declared_sweepModule. }
  rewrite (runOnModule_module (run M (newPass fresh)).1.2), runOnModule_pass.
  rewrite !runOnModule_module. unfold removeOldStackmaps.
  rewrite (removeOldStackmapsFrom_sweeps (addSMDeclaration M).2) by done.
  set (Md := sweepModule (addSMDeclaration M).2) in *.
  assert (Hclean : noStackmaps Md) by apply noStackmaps_sweepModule.
  assert (Hsame : (addSMDeclaration (visitFs Md (newPass fresh)).1).2
                  = (visitFs Md (newPass fresh)).1).
  { unfold addSMDeclaration.
    change (existsb _ (visitFs Md (newPass fresh)).1)
      with (declared (visitFs Md (newPass fresh)).1).
    by rewrite visitFunctions_declared, Hdecl. }
  rewrite Hsame, visitFunctions_swept by done.
  apply visitFunctions_forget. by apply visitFunctions_callSiteID.
Qed.

(** The markers of the module after the second run: as many, with the same
    site identifiers and the same live values in the same order. *)
Corollary runOnModule_twice_markers M fresh :
  headsClean M →
  markersOfModule
    (run (run M (newPass fresh)).1.2 (run M (newPass fresh)).2).1.2
    = markersOfModule (run M (newPass fresh)).1.2.
Proof.
  intros HM. rewrite <- markersOfModule_forgetIds.
  rewrite (runOnModule_twice M fresh HM). apply markersOfModule_forgetIds.
Qed.

End SecondRun.

(** The two runs on the module of [exampleF]: after each of them the one
    marker of the call of [g], with the site identifier 0 and the three live
    values. *)
Lemma runOnModule_twice_example :
  let run := runOnModule false exampleLive exampleDominates exampleName
                         exampleSlot in
  markersOfModule
    (run (run [exampleF] (newPass 6)).1.2 (run [exampleF] (newPass 6)).2).1.2
    = markersOfModule (run [exampleF] (newPass 6)).1.2 ∧
  markersOfModule (run [exampleF] (newPass 6)).1.2
    = [[ConstantInt 64 0; ConstantInt 32 0; VInst 1; VArg 0; VInst 2]].
Proof.
  split.
  - apply runOnModule_twice_markers. repeat constructor. by intros ? [= <-].
  - vm_compute. reflexivity.
Qed.

(** The live values of the call in [exampleF]: the allocation and the
    argument hidden behind the address, by name, then the address. *)
Example exampleSorted_value : exampleSorted = [VInst 1; VArg 0; VInst 2].
Proof. reflexivity. Qed.

Lemma sortedLive_deterministic_witness :
  insertAll exampleName exampleSlot [VInst 2; VInst 1; VArg 0] [] =
  insertAll exampleName exampleSlot [VArg 0; VInst 2; VInst 1; VInst 2] [].
Proof.
  apply (sortedLive_deterministic exampleLive exampleDominates exampleName
           exampleSlot [] [] callI).
  - intros x. rewrite !elem_of_cons. naive_solver.
  - apply distinctKeysb_spec. vm_compute. reflexivity.
Defined.

(** C7 as the specification states it fails: two values without a name and
    with the same slot are equivalent under [ValueComp], the set keeps the
    one inserted first, and so the same set of values enumerated in two
    orders gives two sequences, for the set alone and for the list of a call
    site. *)
Lemma enumeration_order_shows :
  (∀ x, x ∈ [VOther 8; VOther 7] ↔ x ∈ [VOther 7; VOther 8]) ∧
  insertAll exampleName exampleSlot [VOther 8; VOther 7] [] = [VOther 8] ∧
  insertAll exampleName exampleSlot [VOther 7; VOther 8] [] = [VOther 7] ∧
  sortedLiveAt (λ _, [VOther 8; VOther 7]) exampleDominates exampleName
               exampleSlot (getHiddenVals exampleF).1 (getHiddenVals exampleF).2
               callI
    ≠ sortedLiveAt (λ _, [VOther 7; VOther 8]) exampleDominates exampleName
                   exampleSlot (getHiddenVals exampleF).1
                   (getHiddenVals exampleF).2 callI.
Proof.
  split_and!.
  - intros x. rewrite !elem_of_cons. naive_solver.
  - reflexivity.
  - reflexivity.
  - vm_compute. discriminate.
Qed.

Lemma visitInstruction_records_live_witness :
  (visitInstruction false exampleLive exampleDominates exampleName exampleSlot
     (getHiddenVals exampleF).1 (getHiddenVals exampleF).2 callI (newPass 6)).1
    = [callI; CreateCall 6 (siteArgs (newPass 6) ++ exampleSorted)] ∧
  VInst 2 ∈ exampleSorted.
Proof.
  apply (visitInstruction_records_live false exampleLive exampleDominates
           exampleName exampleSlot).
  - reflexivity.
  - reflexivity.
  - reflexivity.
  - apply distinctKeysb_spec. vm_compute. reflexivity.
  - vm_compute. left.
Defined.

(** C10 as the specification states it fails: the liveness analysis
    reports [VOther 8] and [VOther 7] for the call, which [ValueComp] orders
    neither way; the set keeps [VOther 8], and the marker of the call lacks
    the live value [VOther 7]. *)
Lemma live_value_dropped :
  isCallSite callI = true ∧ isInvoke callI = false ∧
  VOther 7 ∈ tiedLive callI ∧
  (visitInstruction false tiedLive exampleDominates exampleName exampleSlot
     (getHiddenVals exampleF).1 (getHiddenVals exampleF).2 callI (newPass 6)).1
    = [callI; CreateCall 6 [ConstantInt 64 0; ConstantInt 32 0;
                            VInst 1; VArg 0; VOther 8; VInst 2]] ∧
  VOther 7 ∉ sortedLiveAt tiedLive exampleDominates exampleName exampleSlot
               (getHiddenVals exampleF).1 (getHiddenVals exampleF).2 callI.
Proof.
  split_and!.
  - reflexivity.
  - reflexivity.
  - vm_compute. right. left.
  - reflexivity.
  - intros H. apply list_elem_of_In in H. vm_compute in H.
    intuition discriminate.
Qed.

(** C5 as the specification states it fails: the address computation
    [gepI] hides the argument [VArg 0], and its result is live across the
    call; a live value of the name of the argument is in the set before the
    hidden values are added, and the argument is not inserted. *)
Lemma hidden_argument_dropped :
  gepI ∈ instructions exampleF ∧ hidesValues gepI = true ∧
  VInst (instId gepI) ∈ clashLive callI ∧
  VArg 0 ∈ operands gepI ∧ isaArgument (VArg 0) = true ∧
  (visitInstruction false clashLive exampleDominates clashName exampleSlot
     (getHiddenVals exampleF).1 (getHiddenVals exampleF).2 callI (newPass 6)).1
    = [callI; CreateCall 6 [ConstantInt 64 0; ConstantInt 32 0;
                            VInst 1; VOther 9; VInst 2]] ∧
  VArg 0 ∉ sortedLiveAt clashLive exampleDominates clashName exampleSlot
             (getHiddenVals exampleF).1 (getHiddenVals exampleF).2 callI.
Proof.
  split_and!.
  - vm_compute. right. left.
  - reflexivity.
  - vm_compute. left.
  - vm_compute. right. left.
  - reflexivity.
  - reflexivity.
  - intros H. apply list_elem_of_In in H. vm_compute in H.
    intuition discriminate.
Qed.

Lemma hidden_values_recorded_witness :
  VArg 0 ∈ exampleSorted ∧ VInst 1 ∈ exampleSorted ∧
  exampleDominates allocaI callI = true.
Proof.
  destruct (hidden_values_recorded exampleLive exampleDominates exampleName
              exampleSlot exampleF callI) as [Hh Hd].
  { apply distinctKeysb_spec. vm_compute. reflexivity. }
  destruct (Hh gepI) as [Harg Hinst].
  { vm_compute. right. left. }
  { reflexivity. }
  { vm_compute. left. }
  split_and!.
  - apply Harg. vm_compute. right. left.
  - apply Hinst; [reflexivity|]. vm_compute. left.
  - apply Hd.
    + intros A B C. unfold exampleDominates. rewrite !Nat.ltb_lt. lia.
    + intros D H _ HH Hhide Hop. vm_compute in HH.
      repeat (apply elem_of_cons in HH as [->|HH]; [try discriminate Hhide|]);
        [|inversion HH].
      vm_compute in Hop.
      repeat (apply elem_of_cons in Hop as [Hop|Hop];
              [try discriminate Hop|]); [|inversion Hop].
      injection Hop as Hop. change (instId D = 1%nat) in Hop.
      unfold exampleDominates. rewrite Hop. reflexivity.
    + vm_compute. left.
    + vm_compute. left.
    + vm_compute. intros H. apply list_elem_of_singleton in H. discriminate H.
Defined.

(** *** Further properties of the ordered set *)

Section OrderMore.
Variable valueName : Value → option string.
Variable getLocalSlot : Value → Z.

Local Abbreviation comp := (ValueComp valueName getLocalSlot).
Local Abbreviation before := (λ a b, ValueComp valueName getLocalSlot a b = true).
Local Abbreviation ins := (insert valueName getLocalSlot).

(** Two values the comparison orders neither way have the same name, or
    have no name and the same slot. *)
Lemma ValueComp_equiv a b :
  comp a b = false → comp b a = false →
  valueName a = valueName b ∧
  (valueName a = None → getLocalSlot a = getLocalSlot b).
Proof.
  unfold ValueComp.
  destruct (valueName a) as [na|], (valueName b) as [nb|]; try done.
  - rewrite (String.compare_antisym nb na).
    destruct (String.compare na nb) eqn:Hc; try done.
    apply String.compare_eq_iff in Hc as ->. done.
  - rewrite !Z.ltb_ge. intros ? ?. split; [done|]. intros _. lia.
Qed.

Lemma ValueComp_equiv_l a b c :
  comp a b = false → comp b a = false → comp a c = comp b c.
Proof.
  intros H1 H2. destruct (ValueComp_equiv a b H1 H2) as [Hn Hs].
  unfold ValueComp. rewrite <- Hn. destruct (valueName a); [done|].
  destruct (valueName c); [done|]. by rewrite Hs.
Qed.

Lemma ValueComp_equiv_r a b c :
  comp a b = false → comp b a = false → comp c a = comp c b.
Proof.
  intros H1 H2. destruct (ValueComp_equiv a b H1 H2) as [Hn Hs].
  unfold ValueComp. rewrite <- Hn. destruct (valueName c), (valueName a);
    try done. by rewrite Hs.
Qed.

(** X15.  [ValueComp] is a strict weak ordering, which [std::set] requires of
    its comparison: no value comes before itself, the comparison is
    transitive, and so is the equivalence of the values it orders neither
    way. *)
Theorem ValueComp_strict_weak_ordering :
  (∀ a, ValueComp valueName getLocalSlot a a = false) ∧
  (∀ a b c, ValueComp valueName getLocalSlot a b = true →
            ValueComp valueName getLocalSlot b c = true →
            ValueComp valueName getLocalSlot a c = true) ∧
  (∀ a b c, ValueComp valueName getLocalSlot a b = false ∧
            ValueComp valueName getLocalSlot b a = false →
            ValueComp valueName getLocalSlot b c = false ∧
            ValueComp valueName getLocalSlot c b = false →
            ValueComp valueName getLocalSlot a c = false ∧
            ValueComp valueName getLocalSlot c a = false).
Proof.
  split_and!.
  - apply ValueComp_irrefl.
  - intros a b c. apply ValueComp_trans.
  - intros a b c [H1 H2] [H3 H4].
    by rewrite (ValueComp_equiv_l a b c), (ValueComp_equiv_r a b c).
Qed.

Lemma insert_present v s :
  StronglySorted before s →
  (∃ y, y ∈ s ∧ comp v y = false ∧ comp y v = false) → ins v s = s.
Proof.
  induction 1 as [|x s Hs IH Hx]; intros (y & Hy & H1 & H2).
  { inversion Hy. }
  simpl. destruct (comp v x) eqn:Hvx.
  - exfalso. apply elem_of_cons in Hy as [->|Hy]; [congruence|].
    rewrite Forall_forall in Hx. specialize (Hx y Hy). cbv beta in Hx.
    pose proof (ValueComp_trans valueName getLocalSlot v x y Hvx Hx) as Hc.
    cbv beta in Hc. congruence.
  - destruct (comp x v) eqn:Hxv; [|done]. f_equal. apply IH.
    apply elem_of_cons in Hy as [->|Hy]; [congruence|]. eauto.
Qed.

Lemma insert_absent v s :
  (∀ y, y ∈ s → comp v y = true ∨ comp y v = true) →
  ∃ s1 s2, s = s1 ++ s2 ∧ ins v s = s1 ++ v :: s2 ∧
           Forall (λ y, comp y v = true) s1 ∧
           (∀ y, head s2 = Some y → comp v y = true).
Proof.
  induction s as [|x s IH]; intros Hall.
  { exists [], []. by split_and!. }
  simpl. destruct (comp v x) eqn:Hvx.
  - exists [], (x :: s). split_and!; try done. by intros y [= <-].
  - destruct (Hall x) as [?|Hxv]; [by left|congruence|]. rewrite Hxv.
    destruct IH as (s1 & s2 & -> & Hi & H1 & H2).
    { intros y Hy. apply Hall. by right. }
    exists (x :: s1), s2. rewrite Hi. split_and!; try done. by constructor.
Qed.

(** X16.  The insertion into the set of live values, a [std::set] under
    [ValueComp]: a value equivalent to an element of the set is not
    inserted, the set stays as it is; any other value is put at its place
    in the order, behind the elements that come before it, and the other
    elements keep their places. *)
Theorem insert_into_sorted v s :
  StronglySorted (λ a b, ValueComp valueName getLocalSlot a b = true) s →
  ((∃ y, y ∈ s ∧ ValueComp valueName getLocalSlot v y = false ∧
         ValueComp valueName getLocalSlot y v = false) →
   insert valueName getLocalSlot v s = s) ∧
  ((∀ y, y ∈ s → ValueComp valueName getLocalSlot v y = true ∨
                 ValueComp valueName getLocalSlot y v = true) →
   ∃ s1 s2, s = s1 ++ s2 ∧
            insert valueName getLocalSlot v s = s1 ++ v :: s2 ∧
            Forall (λ y, ValueComp valueName getLocalSlot y v = true) s1 ∧
            Forall (λ y, ValueComp valueName getLocalSlot v y = true) s2).
Proof.
  intros Hs. split; [by apply insert_present|].
  intros Hall. destruct (insert_absent v s Hall) as (s1 & s2 & -> & Hi & H1 & H2).
  exists s1, s2. split_and!; try done.
  destruct s2 as [|y s2]; [constructor|].
  pose proof (H2 y eq_refl) as Hy.
  assert (Hs2 : StronglySorted before (y :: s2)).
  { clear -Hs. induction s1 as [|x s1 IH]; [done|].
    apply IH. by apply StronglySorted_inv in Hs as [Hs _]. }
  apply StronglySorted_inv in Hs2 as [_ Hs2]. clear Hs. rename Hs2 into Hs.
  constructor; [done|].
  eapply Forall_impl; [exact Hs|]. intros z Hz. cbv beta in Hz.
  exact (ValueComp_trans valueName getLocalSlot v y z Hy Hz).
Qed.

End OrderMore.

Lemma insert_into_sorted_witness :
  insert exampleName exampleSlot (VInst 2) [VInst 1; VArg 0]
    = [VInst 1; VArg 0; VInst 2] ∧
  insert exampleName exampleSlot (VOther 7) [VInst 1; VArg 0; VOther 8]
    = [VInst 1; VArg 0; VOther 8].
Proof.
  split.
  - destruct (proj2 (insert_into_sorted exampleName exampleSlot (VInst 2)
                       [VInst 1; VArg 0]
                       ltac:(repeat constructor)))
      as (s1 & s2 & _ & Hi & _).
    + intros y Hy. right. revert Hy. rewrite !elem_of_cons.
      intros [->|[->|Hy]]; [reflexivity|reflexivity|inversion Hy].
    + reflexivity.
  - apply (insert_into_sorted exampleName exampleSlot (VOther 7)
             [VInst 1; VArg 0; VOther 8]).
    + repeat constructor.
    + exists (VOther 8). split_and!; [|reflexivity|reflexivity].
      rewrite !elem_of_cons. auto.
Defined.

(** *** Further properties of the removal of old markers *)

(** X17.  [addSMDeclaration] adds the declaration of the intrinsic at most
    once: it reports [true] exactly when the module did not declare it, the
    functions of the module stay in front of the new declaration, and on its
    own result it reports [false] and changes nothing. *)
Theorem addSMDeclaration_once M :
  (addSMDeclaration M).1 = negb (declared M) ∧
  (addSMDeclaration M).2
    = M ++ (if declared M then [] else [mkFunction SMName true []]) ∧
  declared (addSMDeclaration M).2 = true ∧
  addSMDeclaration (addSMDeclaration M).2 = (false, (addSMDeclaration M).2).
Proof.
  assert (Hd : declared (addSMDeclaration M).2 = true).
  { unfold addSMDeclaration, declared. destruct (existsb _ M) eqn:He; [done|].
    simpl. rewrite existsb_app. simpl. by rewrite orb_true_r. }
  split_and!; [| |done|].
  - unfold addSMDeclaration, declared. by destruct (existsb _ M).
  - unfold addSMDeclaration, declared. destruct (existsb _ M); [|done].
    by rewrite app_nil_r.
  - unfold addSMDeclaration at 1. unfold declared in Hd. by rewrite Hd.
Qed.

Lemma sweep_removeLoop fuel (bb : BasicBlock) i m :
  sweep (removeLoop fuel bb i m).1 = sweep bb.
Proof.
  revert bb i m. induction fuel as [|fuel IH]; intros bb i m; [done|].
  cbn [removeLoop]. destruct (bb !! i) as [I|] eqn:HI; [|done].
  destruct (isStackmap I) eqn:Hm; [|apply IH].
  rewrite IH. by eapply sweep_delete.
Qed.

Lemma sweep_removeFromBlocks bs m :
  map sweep (removeFromBlocks bs m).1 = map sweep bs.
Proof.
  revert m. induction bs as [|bb bs IH]; intros m; [done|].
  cbn [removeFromBlocks].
  pose proof (sweep_removeLoop (removeFuel bb) bb 0 m) as H1.
  fold (removeFromBlock bb m) in H1.
  destruct (removeFromBlock bb m) as [bb' m1]. specialize (IH m1).
  destruct (removeFromBlocks bs m1) as [bs' m2]. simpl in *. by rewrite H1, IH.
Qed.

Lemma sweep_removeOldStackmapsFrom M m :
  sweepModule (removeOldStackmapsFrom M m).1 = sweepModule M.
Proof.
  revert m. induction M as [|F M IH]; intros m; [done|].
  cbn [removeOldStackmapsFrom].
  pose proof (sweep_removeFromBlocks (getBasicBlocks F) m) as H1.
  destruct (removeFromBlocks (getBasicBlocks F) m) as [bs m1].
  specialize (IH m1). destruct (removeOldStackmapsFrom M m1) as [M' m2].
  simpl in *. by rewrite H1, IH.
Qed.

(** X18.  [removeOldStackmaps] erases markers only: the module without its
    markers is the same before and after, function by function and block by
    block; no other instruction is removed or moved, whatever the module. *)
Theorem removeOldStackmaps_erases_markers_only M :
  sweepModule (removeOldStackmaps M).1 = sweepModule M.
Proof. apply sweep_removeOldStackmapsFrom. Qed.

(** X19.  On a module none of whose blocks begins with a marker,
    [removeOldStackmaps] erases every marker: what it leaves is the module
    without its markers. *)
Theorem removeOldStackmaps_complete M :
  headsClean M →
  (removeOldStackmaps M).1 = sweepModule M ∧
  noStackmaps (removeOldStackmaps M).1.
Proof.
  intros HM. unfold removeOldStackmaps.
  rewrite removeOldStackmapsFrom_sweeps by done.
  split; [done|apply noStackmaps_sweepModule].
Qed.

Lemma removeOldStackmaps_complete_witness :
  (removeOldStackmaps
     [mkFunction "f" false [[callI; staleMarker 9 0; useI; staleMarker 8 1; retI]]]).1
    = [mkFunction "f" false [[callI; useI; retI]]].
Proof.
  apply (removeOldStackmaps_complete
           [mkFunction "f" false
              [[callI; staleMarker 9 0; useI; staleMarker 8 1; retI]]]).
  repeat constructor. intros I HI. injection HI as <-. reflexivity.
Defined.

(** The loop from the second instruction on: the first instruction stays,
    whatever it is, and every marker behind it goes. *)
Lemma removeLoop_behind_head fuel (h : Instruction) (t : BasicBlock) i m :
  (1 ≤ i)%nat →
  (∀ j I, (1 ≤ j < i)%nat → (h :: t) !! j = Some I → isStackmap I = false) →
  (S (S (length t)) * S (length t) + (S (length t) - i) < fuel)%nat →
  (removeLoop fuel (h :: t) i m).1 = h :: sweep t.
Proof.
  revert t i m. induction fuel as [|fuel IH]; intros t i m H1 Hi Hf; [lia|].
  cbn [removeLoop]. destruct (((h :: t) : BasicBlock) !! i) as [I|] eqn:HI.
  - destruct i as [|i]; [lia|]. cbn [lookup list_lookup] in HI.
    assert (Hlen : (i < length t)%nat) by by eapply lookup_lt_Some.
    destruct (isStackmap I) eqn:Hm.
    + change (delete (S i) ((h :: t) : BasicBlock)) with (h :: delete i t).
      rewrite IH.
      * f_equal. by eapply sweep_delete.
      * done.
      * intros j J Hj. lia.
      * unfold BasicBlock in *. rewrite (length_delete t i) by eauto. nia.
    + apply IH; [lia| |lia].
      intros j J Hj HJ. destruct (decide (j = S i)) as [->|].
      * cbn [lookup list_lookup] in HJ. unfold BasicBlock in *. congruence.
      * apply (Hi j); [lia|done].
  - simpl. f_equal. symmetry. apply sweep_noStackmap. apply Forall_forall.
    intros J [j Hj]%list_elem_of_lookup. apply (Hi (S j)); [|done].
    apply lookup_ge_None in HI. apply lookup_lt_Some in Hj. simpl in HI. lia.
Qed.

(** X20.  The slip of the loop of [removeOldStackmaps]: after an erasure the
    iterator is set back to the first instruction and then incremented, so
    the first instruction is not looked at again.  In a block that begins
    with two markers the second one survives; every other marker of the
    block is erased. *)
Theorem removeFromBlock_two_markers m0 m1 rest m :
  isStackmap m0 = true → isStackmap m1 = true →
  removeFromBlock (m0 :: m1 :: rest) m = (m1 :: sweep rest, true).
Proof.
  intros H0 H1. unfold removeFromBlock, removeFuel.
  destruct (S (length (m0 :: m1 :: rest)) * S (length (m0 :: m1 :: rest)))%nat
    as [|fuel] eqn:Hf; [simpl in Hf; lia|].
  cbn [removeLoop lookup list_lookup]. rewrite H0.
  change (delete 0%nat (m0 :: m1 :: rest)) with (m1 :: rest).
  pose proof (removeLoop_behind_head fuel m1 rest 1 true) as Hb.
  pose proof (removeLoop_true fuel (m1 :: rest) 1) as Ht.
  destruct (removeLoop fuel (m1 :: rest) 1 true) as [bb b]. simpl in *.
  subst b. f_equal. apply Hb; [lia|intros; lia|nia].
Qed.

Lemma removeFromBlock_two_markers_witness :
  removeFromBlock [staleMarker 1 0; staleMarker 2 1; retI; staleMarker 3 2] false
    = ([staleMarker 2 1; retI], true).
Proof.
  apply (removeFromBlock_two_markers (staleMarker 1 0) (staleMarker 2 1)
           [retI; staleMarker 3 2] false); reflexivity.
Defined.

(** X21.  [removeOldStackmaps] reports a modification exactly when the
    module held a marker. *)
Theorem removeOldStackmaps_reports M :
  (removeOldStackmaps M).2 = true ↔ hasStackmap M = true.
Proof. by rewrite removeOldStackmaps_modified. Qed.

Lemma removeLoop_more fuel (bb : BasicBlock) i m :
  (S (length bb) * length bb + (length bb - i) < fuel)%nat →
  removeLoop (S fuel) bb i m = removeLoop fuel bb i m.
Proof.
  revert bb i m. induction fuel as [|fuel IH]; intros bb i m Hf; [lia|].
  change (removeLoop (S (S fuel)) bb i m) with
    (match bb !! i with
     | None => (bb, m)
     | Some Inst =>
         if isStackmap Inst then removeLoop (S fuel) (delete i bb) 1%nat true
         else removeLoop (S fuel) bb (S i) m
     end).
  change (removeLoop (S fuel) bb i m) with
    (match bb !! i with
     | None => (bb, m)
     | Some Inst =>
         if isStackmap Inst then removeLoop fuel (delete i bb) 1%nat true
         else removeLoop fuel bb (S i) m
     end).
  destruct (bb !! i) as [I|] eqn:HI; [|done].
  assert (Hlen : (i < length bb)%nat) by by eapply lookup_lt_Some.
  destruct (isStackmap I).
  - apply IH. unfold BasicBlock in *. rewrite (length_delete bb i) by eauto.
    nia.
  - apply IH. lia.
Qed.

(** X22.  The loop of [removeOldStackmaps] over a block ends: the iterator
    reaches the end of the block within the steps [removeFromBlock] allows,
    and any larger number of steps gives the same block and the same
    flag. *)
Theorem removeLoop_ends bb m fuel :
  (removeFuel bb ≤ fuel)%nat → removeLoop fuel bb 0 m = removeFromBlock bb m.
Proof.
  unfold removeFromBlock. induction 1 as [|fuel Hle IH]; [done|].
  rewrite removeLoop_more; [done|]. unfold removeFuel in Hle. nia.
Qed.

Lemma removeLoop_ends_witness :
  removeLoop 1000 [staleMarker 1 0; retI] 0 false = ([retI], true).
Proof.
  rewrite (removeLoop_ends [staleMarker 1 0; retI] false 1000).
  - reflexivity.
  - unfold removeFuel. simpl. lia.
Defined.

(** *** Further properties of a run *)

Section RunMore.
Variable NoLiveVals : bool.
Variable getLiveValues : Instruction → list Value.
Variable dominates : Instruction → Instruction → bool.
Variable valueName : Value → option string.
Variable getLocalSlot : Value → Z.

Local Abbreviation site := (λ I : Instruction, isCallSite I && negb (isInvoke I)).
Local Abbreviation visitI :=
  (visitInstruction NoLiveVals getLiveValues dominates valueName getLocalSlot).
Local Abbreviation visitB :=
  (visitBlock NoLiveVals getLiveValues dominates valueName getLocalSlot).
Local Abbreviation visitBs :=
  (visitBlocks NoLiveVals getLiveValues dominates valueName getLocalSlot).
Local Abbreviation visitF :=
  (visitFunction NoLiveVals getLiveValues dominates valueName getLocalSlot).
Local Abbreviation visitFs :=
  (visitFunctions NoLiveVals getLiveValues dominates valueName getLocalSlot).
Local Abbreviation run :=
  (runOnModule NoLiveVals getLiveValues dominates valueName getLocalSlot).
Local Abbreviation sortedLive :=
  (sortedLiveAt getLiveValues dominates valueName getLocalSlot).

Lemma sweep_app b1 b2 : sweep (b1 ++ b2) = sweep b1 ++ sweep b2.
Proof. unfold sweep. apply List.filter_app. Qed.

Lemma sweep_visitInstruction hI hA I p : sweep (visitI hI hA I p).1 = sweep [I].
Proof.
  unfold visitInstruction.
  destruct (isCallSite I); [destruct (isInvoke I)|]; done.
Qed.

Lemma sweep_visitBlock hI hA b p : sweep (visitB hI hA b p).1 = sweep b.
Proof.
  revert p. induction b as [|I b IH]; intros p; [done|].
  rewrite visitBlock_cons. cbn [fst]. rewrite sweep_app, IH.
  rewrite sweep_visitInstruction. by rewrite <- sweep_app.
Qed.

Lemma sweep_visitBlocks hI hA bs p :
  map sweep (visitBs hI hA bs p).1 = map sweep bs.
Proof.
  revert p. induction bs as [|b bs IH]; intros p; [done|].
  rewrite visitBlocks_cons. cbn [fst map]. by rewrite sweep_visitBlock, IH.
Qed.

Lemma sweep_visitFunctions M p : sweepModule (visitFs M p).1 = sweepModule M.
Proof.
  revert p. induction M as [|F M IH]; intros p; [done|].
  rewrite visitFunctions_cons, visitFunction_eq. cbn [fst snd].
  destruct (isDeclaration F) eqn:HD; cbn [fst snd sweepModule map].
  - f_equal. apply IH.
  - cbv zeta. cbn [fst snd getName isDeclaration getBasicBlocks].
    rewrite sweep_visitBlocks, HD. f_equal. apply IH.
Qed.

(** X23.  A run of the pass changes the module by markers only, apart from
    the declaration of the intrinsic it may add at the end: with the markers
    taken out, the module after the run is the module before it; no other
    instruction is added, removed or moved, and no block or function. *)
Theorem runOnModule_changes_markers_only M p :
  sweepModule (run M p).1.2
    = sweepModule M ++ (if declared M then [] else [mkFunction SMName true []]).
Proof.
  rewrite runOnModule_module, sweep_visitFunctions.
  unfold removeOldStackmaps. rewrite sweep_removeOldStackmapsFrom.
  unfold addSMDeclaration, declared. destruct (existsb _ M); cbn [snd].
  - by rewrite app_nil_r.
  - unfold sweepModule. by rewrite map_app.
Qed.

(** The marker of the [k]-th instrumented call site of a function. *)
Lemma visitBlock_markers hI hA b p c :
  noStackmap b → callSiteID p = wrap64 c →
  markersOf (visitB hI hA b p).1
    = imap (λ k I, bareMarker (wrap64 (c + Z.of_nat k))
                   ++ (if NoLiveVals then [] else sortedLive hI hA I))
           (List.filter site b) ∧
  callSiteID (visitB hI hA b p).2 =
    wrap64 (c + Z.of_nat (length (List.filter site b))).
Proof.
  intros Hb. revert p c. induction Hb as [|I b HI Hb IH]; intros p c Hp.
  - simpl. by rewrite Z.add_0_r.
  - rewrite visitBlock_cons. cbn [fst snd]. rewrite markersOf_app.
    rewrite visitInstruction_markers by done. rewrite visitInstruction_pass.
    cbn [List.filter].
    destruct (isCallSite I && negb (isInvoke I)) eqn:HS.
    + destruct (IH (mkPass (wrap64 (callSiteID p + 1))
                           (wrap64 (numInstrumented p + 1)) (S (nextId p)))
                   (c + 1)) as [IH1 IH2];
        [simpl; by rewrite Hp, wrap64_succ|].
      rewrite IH1, IH2. rewrite imap_cons. cbn [length]. split.
      * cbn [app]. f_equal.
        -- unfold siteArgs, bareMarker. rewrite Hp, Z.add_0_r.
           destruct NoLiveVals; [|done]. by rewrite app_nil_r.
        -- apply imap_ext. intros k J _. cbn. do 3 f_equal. lia.
      * f_equal. lia.
    + by apply IH.
Qed.

Lemma visitBlocks_markers hI hA bs p c :
  noStackmap (concat bs) → callSiteID p = wrap64 c →
  markersOf (concat (visitBs hI hA bs p).1)
    = imap (λ k I, bareMarker (wrap64 (c + Z.of_nat k))
                   ++ (if NoLiveVals then [] else sortedLive hI hA I))
           (List.filter site (concat bs)) ∧
  callSiteID (visitBs hI hA bs p).2 =
    wrap64 (c + Z.of_nat (length (List.filter site (concat bs)))).
Proof.
  revert p c. induction bs as [|b bs IH]; intros p c Hbs Hp.
  - simpl. by rewrite Z.add_0_r.
  - simpl in Hbs. apply Forall_app in Hbs as [Hb Hbs].
    rewrite visitBlocks_cons. cbn [fst snd concat]. rewrite markersOf_app.
    destruct (visitBlock_markers hI hA b p c Hb Hp) as [H1 H2].
    destruct (IH _ _ Hbs H2) as [I1 I2]. rewrite H1, I1, I2.
    rewrite List.filter_app, length_app, imap_app. split; [|f_equal; lia].
    f_equal. apply imap_ext. intros k J _. cbn. do 3 f_equal. lia.
Qed.

(** X24.  The markers a function holds after its visit, when it held none
    before and the site identifier of the pass was 0: one marker for every
    call site that is not an invoke, in the order of the instructions; the
    marker of the [k]-th of these call sites has the site identifier [k] (as
    a [size_t]), the flags 0 and, unless [-no-live-vals] is given, the
    ordered live values of that call site.  The identifier of the pass is 0
    again afterwards. *)
Theorem visitFunction_markers F p :
  isDeclaration F = false → noStackmap (instructions F) → callSiteID p = 0 →
  markersOfFunction (visitF F p).1
    = imap (λ k I, bareMarker (wrap64 (Z.of_nat k))
                   ++ (if NoLiveVals then []
                       else sortedLive (getHiddenVals F).1 (getHiddenVals F).2 I))
           (instrumentedSites F) ∧
  callSiteID (visitF F p).2 = 0.
Proof.
  intros HD HF Hp. rewrite visitFunction_eq, HD. cbv zeta. cbn [fst snd].
  split; [|done].
  destruct (visitBlocks_markers (getHiddenVals F).1 (getHiddenVals F).2
              (getBasicBlocks F) p 0 HF Hp) as [H1 _].
  unfold markersOfFunction, instructions at 1. cbn [getBasicBlocks].
  rewrite H1. apply imap_ext. intros k J _. cbn. do 3 f_equal.
Qed.

(** X25.  A second run of the same pass on the result of a run, when no
    block of the module began with a marker: the module after the second run
    is the module after the first, up to the identities of the marker
    instructions; the markers are as many, with the same site identifiers
    and the same live values in the same order. *)
Theorem second_run_reproduces M fresh :
  headsClean M →
  forgetIds (run (run M (newPass fresh)).1.2 (run M (newPass fresh)).2).1.2
    = forgetIds (run M (newPass fresh)).1.2 ∧
  markersOfModule
    (run (run M (newPass fresh)).1.2 (run M (newPass fresh)).2).1.2
    = markersOfModule (run M (newPass fresh)).1.2.
Proof.
  intros HM.
  pose proof (runOnModule_twice NoLiveVals getLiveValues dominates valueName
                getLocalSlot M fresh HM) as H.
  split; [exact H|].
  rewrite <- markersOfModule_forgetIds, H. apply markersOfModule_forgetIds.
Qed.

(** A value that is live, or hidden behind a live instruction that meets
    the condition of its map, is in the set of the call site. *)
Lemma sortedLiveAt_has hI hA I x :
  distinctKeys valueName getLocalSlot (candidates getLiveValues hI hA I) →
  x ∈ getLiveValues I ∨
  (∃ H vs, (H, vs) ∈ hI ∧ dominates H I = true ∧
           VInst (instId H) ∈ getLiveValues I ∧ x ∈ vs) ∨
  (∃ H vs, (H, vs) ∈ hA ∧ VInst (instId H) ∈ getLiveValues I ∧ x ∈ vs) →
  x ∈ sortedLive hI hA I.
Proof.
  intros Hd [Hx|[(H & vs & Hin & Hdom & Hl & Hx)|(H & vs & Hin & Hl & Hx)]].
  - apply sortedLiveAt_live; [|done].
    intros a b Ha Hb. apply Hd; unfold candidates; rewrite !elem_of_app; auto.
  - unfold sortedLiveAt. apply addHidden_keeps.
    apply (addHidden_adds getLiveValues dominates valueName getLocalSlot
             _ _ _ H vs); [|done| |done].
    + intros a b Ha Hb. apply Hd; unfold candidates;
        rewrite !elem_of_app in *.
      * destruct Ha as [?|Ha]; [naive_solver|].
        apply insertAll_elem_of in Ha as [?|Ha]; [by left|inversion Ha].
      * destruct Hb as [?|Hb]; [naive_solver|].
        apply insertAll_elem_of in Hb as [?|Hb]; [by left|inversion Hb].
    + rewrite Hdom. by apply bool_decide_eq_true.
  - unfold sortedLiveAt.
    apply (addHidden_adds getLiveValues dominates valueName getLocalSlot
             _ _ _ H vs); [|done| |done].
    + intros a b Ha Hb. apply Hd; unfold candidates;
        rewrite !elem_of_app in *.
      * destruct Ha as [?|Ha]; [naive_solver|].
        apply addHidden_elem_of in Ha as [Ha|(H' & vs' & Hin' & _ & Ha)].
        -- apply insertAll_elem_of in Ha as [?|Ha]; [by left|inversion Ha].
        -- right; left. apply list_elem_of_In, in_flat_map.
           exists (H', vs'). split; by apply list_elem_of_In.
      * destruct Hb as [?|Hb]; [naive_solver|].
        apply addHidden_elem_of in Hb as [Hb|(H' & vs' & Hin' & _ & Hb)].
        -- apply insertAll_elem_of in Hb as [?|Hb]; [by left|inversion Hb].
        -- right; left. apply list_elem_of_In, in_flat_map.
           exists (H', vs'). split; by apply list_elem_of_In.
    + by apply bool_decide_eq_true.
Qed.

(** X26.  The two maps of hidden values are [DenseMap]s keyed by the
    address of the hiding instruction, so the order in which [runOnModule]
    walks them differs from run to run.  The values a marker records do not
    depend on it: for candidates of distinct names and slots, walking the
    same entries in any other order builds the same ordered list. *)
Theorem sortedLive_any_map_order hI hI' hA hA' I :
  hI ≡ₚ hI' → hA ≡ₚ hA' →
  distinctKeys valueName getLocalSlot (candidates getLiveValues hI hA I) →
  sortedLive hI hA I = sortedLive hI' hA' I.
Proof.
  intros HI HA Hd.
  assert (Hd' : distinctKeys valueName getLocalSlot
                  (candidates getLiveValues hI' hA' I)).
  { assert (Hc : ∀ a, a ∈ candidates getLiveValues hI' hA' I →
                      a ∈ candidates getLiveValues hI hA I).
    { intros a. unfold candidates.
      by rewrite (Permutation_flat_map snd HI),
                 (Permutation_flat_map snd HA). }
    intros a b Ha Hb. apply Hd; by apply Hc. }
  apply (sorted_unique valueName getLocalSlot);
    try apply sortedLiveAt_sorted.
  intros x. split; intros Hx.
  - apply sortedLiveAt_has; [done|].
    apply sortedLiveAt_elem_of
      in Hx as [?|[(H & vs & Hin & ?)|(H & vs & Hin & ?)]].
    + by left.
    + right; left. exists H, vs. by rewrite <- HI.
    + right; right. exists H, vs. by rewrite <- HA.
  - apply sortedLiveAt_has; [done|].
    apply sortedLiveAt_elem_of
      in Hx as [?|[(H & vs & Hin & ?)|(H & vs & Hin & ?)]].
    + by left.
    + right; left. exists H, vs. by rewrite HI.
    + right; right. exists H, vs. by rewrite HA.
Qed.

(** X27.  A marker records no other value than a live one or a hidden one:
    every value of the ordered list of a call site [I] is live across [I],
    or is an operand of an instruction [H] of the function that hides values
    and whose result is live across [I]; and then the operand is an
    argument of the function, or it is an instruction and [H] dominates
    [I]. *)
Theorem recorded_values_sound F I x :
  x ∈ sortedLive (getHiddenVals F).1 (getHiddenVals F).2 I →
  x ∈ getLiveValues I ∨
  ∃ H, H ∈ instructions F ∧ hidesValues H = true ∧
       VInst (instId H) ∈ getLiveValues I ∧ x ∈ operands H ∧
       (isaArgument x = true ∨
        (isaInstruction x = true ∧ dominates H I = true)).
Proof.
  intros Hx. apply sortedLiveAt_elem_of in Hx as [Hx|[Hx|Hx]]; [by left| |].
  - destruct Hx as (H & vs & Hin & Hdom & Hlive & Hvs). right.
    unfold getHiddenVals in Hin. cbn [fst] in Hin.
    apply list_elem_of_fmap in Hin as (H' & [= -> ->] & HH).
    destruct (hidesValues H') eqn:Hh; [|inversion Hvs].
    apply list_elem_of_In, List.filter_In in Hvs as [Hop Hisa].
    exists H'. split_and!; try done; [by apply list_elem_of_In|]. by right.
  - destruct Hx as (H & vs & Hin & Hlive & Hvs). right.
    unfold getHiddenVals in Hin. cbn [snd] in Hin.
    apply list_elem_of_fmap in Hin as (H' & [= -> ->] & HH).
    destruct (hidesValues H') eqn:Hh; [|inversion Hvs].
    apply list_elem_of_In, List.filter_In in Hvs as [Hop Hisa].
    exists H'. split_and!; try done; [by apply list_elem_of_In|]. by left.
Qed.

(** X28.  The count [numInstrumented] is a member of the pass and is never
    set back: a pass that has inserted a marker before reports a
    modification for every later module, whether or not it changes it (as
    long as the count does not wrap around as a [size_t]). *)
Theorem runOnModule_used_pass M p :
  0 < numInstrumented p →
  numInstrumented p
    + Z.of_nat (insertedMarkers (removeOldStackmaps (addSMDeclaration M).2).1)
    < 2 ^ 64 →
  (run M p).1.1 = true.
Proof.
  intros Hpos Hlt. unfold runOnModule.
  destruct (addSMDeclaration M) as [added Md]. cbn [fst snd] in *.
  destruct (removeOldStackmaps Md) as [Mc removed]. cbn [fst snd] in *.
  pose proof (visitFunctions_count NoLiveVals getLiveValues dominates
                valueName getLocalSlot Mc p (numInstrumented p)) as Hc.
  destruct (visitFs Mc p) as [M1 p1]. cbn [fst snd] in *.
  rewrite Hc.
  - unfold wrap64. rewrite Z.mod_small by lia.
    destruct (0 <? _) eqn:H0; [done|]. apply Z.ltb_ge in H0. lia.
  - unfold wrap64. rewrite Z.mod_small; lia.
Qed.

End RunMore.

Lemma visitFunction_markers_witness :
  markersOfFunction
    (visitFunction false exampleLive exampleDominates exampleName exampleSlot
                   exampleF (newPass 6)).1
    = [[ConstantInt 64 0; ConstantInt 32 0; VInst 1; VArg 0; VInst 2]].
Proof.
  apply (visitFunction_markers false exampleLive exampleDominates exampleName
           exampleSlot exampleF (newPass 6)).
  - reflexivity.
  - repeat constructor.
  - reflexivity.
Defined.

Lemma second_run_reproduces_witness :
  markersOfModule
    (runOnModule false exampleLive exampleDominates exampleName exampleSlot
       (runOnModule false exampleLive exampleDominates exampleName exampleSlot
          [exampleF] (newPass 6)).1.2
       (runOnModule false exampleLive exampleDominates exampleName exampleSlot
          [exampleF] (newPass 6)).2).1.2
    = markersOfModule
        (runOnModule false exampleLive exampleDominates exampleName exampleSlot
           [exampleF] (newPass 6)).1.2.
Proof.
  apply (second_run_reproduces false exampleLive exampleDominates exampleName
           exampleSlot [exampleF] 6).
  repeat constructor. intros I HI. injection HI as <-. reflexivity.
Defined.

Lemma recorded_values_sound_witness :
  VInst 1 ∈ exampleLive callI ∨
  ∃ H, H ∈ instructions exampleF ∧ hidesValues H = true ∧
       VInst (instId H) ∈ exampleLive callI ∧ VInst 1 ∈ operands H ∧
       (isaArgument (VInst 1) = true ∨
        (isaInstruction (VInst 1) = true ∧ exampleDominates H callI = true)).
Proof.
  apply (recorded_values_sound exampleLive exampleDominates exampleName
           exampleSlot exampleF callI (VInst 1)).
  vm_compute. left.
Defined.

Lemma sortedLive_any_map_order_witness :
  sortedLiveAt exampleLive exampleDominates exampleName exampleSlot
               (getHiddenVals exampleF).1 (getHiddenVals exampleF).2 callI
    = sortedLiveAt exampleLive exampleDominates exampleName exampleSlot
                   (reverse (getHiddenVals exampleF).1)
                   (reverse (getHiddenVals exampleF).2) callI.
Proof.
  apply (sortedLive_any_map_order exampleLive exampleDominates exampleName
           exampleSlot).
  - symmetry. apply reverse_Permutation.
  - symmetry. apply reverse_Permutation.
  - apply distinctKeysb_spec. vm_compute. reflexivity.
Defined.

Lemma runOnModule_used_pass_witness :
  (runOnModule false exampleLive exampleDominates exampleName exampleSlot
               [mkFunction SMName true []] (mkPass 0 1 7)).1.1 = true.
Proof.
  apply (runOnModule_used_pass false exampleLive exampleDominates exampleName
           exampleSlot [mkFunction SMName true []] (mkPass 0 1 7)).
  - reflexivity.
  - reflexivity.
Defined.

End InsertStackMapsFacts.
